(** * The provider registry of the kad-dht: a shallow embedding

    The class [Providers] keeps, for every content id, the peers known to
    provide it.  Records live in a datastore under keys
    [<PROVIDER_KEY_PREFIX>/<cid>/<peer>] whose value is the varint of the
    time the record was written; an LRU cache of per-cid maps sits in front
    of the datastore, and a periodic [_cleanup] deletes expired records.

    The embedding follows the TypeScript source function by function.  Every
    operation of the class runs inside a queue of concurrency one, so an
    operation is a function from the state before it to its result and the
    state after it.  What the world decides is an argument of the operation:
    whether a call of the datastore fails, and what the clock shows.

    The cache, the datastore, the varint and the codec of cids and peers are
    packages outside the sources.  The first three are modelled as the
    specification describes them; the codec and the constants are
    parameters.  The bound of the cache is that of the package itself:
    for it the registry is also given over the cache that [hashlru]
    builds. *)

From Stdlib Require Import ZArith String Ascii List Bool Lia.
From stdpp Require Import base option list gmap strings fin_maps.
From Equations Require Import Equations.
Import ListNotations.

Local Open Scope Z_scope.

(** ** Results and errors *)

(** The errors an operation can throw.  [BackendFailure] is any rejection of a
    datastore call; [MalformedKey] is the [Error] thrown by
    [parseProviderKey]; [MalformedRecord] is the [RangeError] of the varint
    decoder; [InvalidPeerId] is what [peerIdFromString] throws. *)
Inductive error : Type :=
  | BackendFailure
  | MalformedKey (key : string)
  | MalformedRecord
  | InvalidPeerId (text : string).

Inductive result (A : Type) : Type :=
  | Ok (a : A)
  | Err (e : error).
Arguments Ok {A} a.
Arguments Err {A} e.

Definition bind {A B : Type} (r : result A) (k : A -> result B) : result B :=
  match r with
  | Ok a => k a
  | Err e => Err e
  end.

Notation "'let*' x ':=' r 'in' k" := (bind r (fun x => k))
  (at level 10, x pattern, r at level 100, k at level 200).

(** ** Strings *)

Definition slash : ascii := "/"%char.

(** [String.prototype.split] with a one-character separator. *)
Fixpoint split (sep : ascii) (s : string) : list string :=
  match s with
  | EmptyString => [EmptyString]
  | String a s' =>
      if Ascii.eqb a sep then EmptyString :: split sep s'
      else match split sep s' with
           | h :: t => String a h :: t
           | [] => [String a EmptyString]
           end
  end.

(** [String.prototype.startsWith]. *)
Fixpoint startsWith (s pre : string) {struct pre} : bool :=
  match pre, s with
  | EmptyString, _ => true
  | String a pre', String b s' => Ascii.eqb a b && startsWith s' pre'
  | String _ _, EmptyString => false
  end.

Fixpoint has_char (c : ascii) (s : string) : bool :=
  match s with
  | EmptyString => false
  | String a s' => Ascii.eqb a c || has_char c s'
  end.

(** ** The codec and the configuration *)

(** The content ids and peer ids are opaque to the registry: it only uses
    [uint8ArrayToString(cid.multihash.bytes, 'base32')], [peer.toString()]
    and [peerIdFromString]. *)
Class Codec : Type := {
  CID : Type;
  PeerId : Type;
  cidText : CID -> string;
  peerText : PeerId -> string;
  peerIdFromString : string -> option PeerId
}.

(** The constants of [constants.js] and the options of [ProvidersInit]. *)
Class Config : Type := {
  PROVIDER_KEY_PREFIX : string;
  cacheSize : nat;
  provideValidity : Z
}.

(** What the registry relies on from the codec: the texts hold no '/', no
    cid text is a proper prefix of another one (a multihash tells its own
    length), and [peerIdFromString] reads back the text that [toString]
    writes. *)
Class CodecLaws `{Codec} : Prop := {
  cidText_no_slash : forall c, has_char slash (cidText c) = false;
  peerText_no_slash : forall p, has_char slash (peerText p) = false;
  cidText_prefix_free :
    forall c1 c2, startsWith (cidText c2) (cidText c1) = true ->
                  cidText c1 = cidText c2;
  peerIdFromString_peerText : forall p, peerIdFromString (peerText p) = Some p
}.

(** The key parser takes parts 3 and 4 of five, so the prefix has three
    parts: a leading empty one and two names. *)
Definition prefix_ok `{Config} : Prop :=
  length (split slash PROVIDER_KEY_PREFIX) = 3%nat.

Section Keys.
Context `{Codec} `{Config}.

(** [makeProviderKey]: the argument is a CID or an already encoded text. *)
Definition makeProviderKey (cid : CID + string) : string :=
  let cidStr := match cid with
                | inl c => cidText c
                | inr s => s
                end in
  PROVIDER_KEY_PREFIX +:+ "/" +:+ cidStr.

(** The key under which [writeProviderEntry] stores a record. *)
Definition recordKey (cid : CID) (peer : PeerId) : string :=
  makeProviderKey (inl cid) +:+ "/" +:+ peerText peer.

(** [parseProviderKey] *)
Definition parseProviderKey (key : string) : result (string * string) :=
  let parts := split slash key in
  if negb (length parts =? 5)%nat then Err (MalformedKey key)
  else Ok (nth 3 parts EmptyString, nth 4 parts EmptyString).

End Keys.

(** ** Timestamps *)

(** Modelled from the spec: the [varint] package is not part of the sources.
    The spec (4.1) has the value of a record be the LEB128 unsigned varint of
    its time: seven bits per byte, least significant group first, the high
    bit set on every byte but the last. *)
Equations? varint_encode (num : Z) : list Z by wf (Z.to_nat (Z.log2 num)) lt :=
  varint_encode num with Z_lt_dec num 128 := {
    | left _ => [num]
    | right _ => (num mod 128 + 128) :: varint_encode (num / 128)
  }.
Proof.
  assert (Z.log2 (num / 128) + 7 <= Z.log2 num).
  { replace (num / 128) with (Z.shiftr num 7) by (now rewrite Z.shiftr_div_pow2).
    rewrite Z.log2_shiftr by lia.
    assert (7 <= Z.log2 num) by (apply (Z.log2_le_pow2 num 7); lia). lia. }
  pose proof (Z.log2_nonneg (num / 128)). lia.
Qed.

(** Modelled from the spec: the decoder of the [varint] package, which the
    spec (4.1) has fail on truncation and on overflow.  It reads groups
    until a byte without the high bit, fails when the buffer ends first, and
    reads at most eight groups (shifts 0 to 49). Bytes after the last group
    are not looked at. *)
Fixpoint varint_read (buf : list Z) (shift res : Z) : option Z :=
  match buf with
  | [] => None
  | b :: rest =>
      if 49 <? shift then None
      else
        let res' := res + Z.land b 127 * 2 ^ shift in
        if 128 <=? b then varint_read rest (shift + 7) res' else Some res'
  end.

Definition varint_decode (buf : list Z) : option Z := varint_read buf 0 0.

(** A JavaScript [Date]: a time value in milliseconds, or the invalid date
    whose [getTime()] is NaN.  [new Date(v)] is invalid when [v] is further
    than 8.64e15 ms from the epoch. *)
Inductive Date : Type :=
  | Date_ms (t : Z)
  | InvalidDate.

Definition maxTime : Z := 8640000000000000.

Definition new_Date (v : Z) : Date :=
  if Z.abs v <=? maxTime then Date_ms v else InvalidDate.

(** [Date.prototype.getTime]; [None] is NaN. *)
Definition getTime (d : Date) : option Z :=
  match d with
  | Date_ms t => Some t
  | InvalidDate => None
  end.

(** [readTime] *)
Definition readTime (buf : list Z) : result Date :=
  match varint_decode buf with
  | Some v => Ok (new_Date v)
  | None => Err MalformedRecord
  end.

(** The value [writeProviderEntry] stores:
    [Uint8Array.from(varint.encode(time.getTime()))].  For NaN both loops of
    the encoder are skipped and the single byte 0 is written. *)
Definition encodeTime (time : Date) : list Z :=
  match getTime time with
  | Some t => varint_encode t
  | None => [0]
  end.

(** ** JavaScript maps and sets with string keys *)

(** A [Map<string, V>] as the list of its entries in insertion order. *)
Fixpoint map_get {V : Type} (k : string) (m : list (string * V)) : option V :=
  match m with
  | [] => None
  | (k', v) :: m' => if String.eqb k k' then Some v else map_get k m'
  end.

(** [Map.prototype.set]: an existing key keeps its place. *)
Fixpoint map_set {V : Type} (k : string) (v : V) (m : list (string * V))
  : list (string * V) :=
  match m with
  | [] => [(k, v)]
  | (k', v') :: m' =>
      if String.eqb k k' then (k, v) :: m' else (k', v') :: map_set k v m'
  end.

Definition map_delete {V : Type} (k : string) (m : list (string * V))
  : list (string * V) :=
  List.filter (fun e => negb (String.eqb k (fst e))) m.

Definition map_keys {V : Type} (m : list (string * V)) : list string :=
  List.map fst m.

Definition map_size {V : Type} (m : list (string * V)) : nat := length m.

Definition set_has (x : string) (s : list string) : bool :=
  List.existsb (String.eqb x) s.

(** [Set.prototype.add] *)
Definition set_add (x : string) (s : list string) : list string :=
  if set_has x s then s else (s ++ [x])%list.

(** ** The LRU cache *)

(** The cache is the [hashlru] package, which is not part of the sources.
    The spec (4.3) has a bounded LRU keyed by text whose capacity is fixed at
    construction.  Its entries are kept as a list, most recently used
    first. *)

(** Modelled from the spec: [remove(key)] of the cache, which drops the
    entry of the key. *)
Definition lru_remove {V : Type} (k : string) (c : list (string * V))
  : list (string * V) :=
  List.filter (fun e => negb (String.eqb k (fst e))) c.

(** Modelled from the spec: what the cache holds for a key, read without
    touching it.  The cache has no such call; it serves the statements. *)
Definition lru_peek {V : Type} (k : string) (c : list (string * V)) : option V :=
  map_get k c.

(** Modelled from the spec: [get(key)] of the cache, which returns nothing
    when the key is not cached and touches the recency of the entry when it
    is. *)
Definition lru_get {V : Type} (k : string) (c : list (string * V))
  : option V * list (string * V) :=
  match lru_peek k c with
  | Some v => (Some v, (k, v) :: lru_remove k c)
  | None => (None, c)
  end.

(** Modelled from the spec: [set(key, value)] of the cache, the spec's
    [put], which inserts or replaces and evicts the least recently used
    entry on overflow. *)
Definition lru_set {V : Type} (cap : nat) (k : string) (v : V)
  (c : list (string * V)) : list (string * V) :=
  match lru_peek k c with
  | Some _ => (k, v) :: lru_remove k c
  | None => firstn cap ((k, v) :: c)
  end.

(** A property of every value in the cache. *)
Definition cache_all {V : Type} (P : V -> Prop) (c : list (string * V)) : Prop :=
  List.Forall (fun e => P (snd e)) c.

(** ** The datastore *)

(** The datastore is an external component, a map from keys to byte
    strings.  The spec (4.4) has [put], a scan of the entries under a
    prefix, and a batch whose staged deletes are committed atomically.  Any
    call may fail: the flag [fails] of a call says whether it does.  A key
    is the text that [Key.toString()] gives; the keys of the registry start
    with '/' and do not end with one, and [new Key] leaves such a text as it
    is. *)

(** Modelled from the spec: the entries that a scan under a prefix yields,
    those whose key starts with the prefix, in the order of the store. *)
Definition entries_under (store : gmap string (list Z)) (pre : string)
  : list (string * list Z) :=
  List.filter (fun e => startsWith (fst e) pre) (map_to_list store).

(** Modelled from the spec: [query({ prefix })], read to its end. *)
Definition ds_query (fails : bool) (store : gmap string (list Z))
  (pre : string) : result (list (string * list Z)) :=
  if fails then Err BackendFailure else Ok (entries_under store pre).

(** Modelled from the spec: [put(key, value)], which overwrites. *)
Definition ds_put (fails : bool) (store : gmap string (list Z))
  (key : string) (value : list Z) : result (gmap string (list Z)) :=
  if fails then Err BackendFailure else Ok (<[key := value]> store).

(** Modelled from the spec: [batch.commit()] after the staged
    [batch.delete(key)] calls: all the deletes or none. *)
Definition ds_commit (fails : bool) (store : gmap string (list Z))
  (batch : list string) : result (gmap string (list Z)) :=
  if fails then Err BackendFailure
  else Ok (fold_right (fun k s => delete k s) store batch).

(** ** The registry *)

(** The state of a [Providers] object: the datastore of its components and
    its cache of per-cid maps from peer text to the time of the record. *)
Record Providers : Type := {
  datastore : gmap string (list Z);
  cache : list (string * list (string * Date))
}.

(** One line of the log of a sweep: 'comparing: now - time = delta > validity'. *)
Record comparison : Type := {
  cmp_key : string;
  cmp_now : Z;
  cmp_time : option Z;
  cmp_expired : bool
}.

(** The local variables of [_cleanup] while it scans, with what it logs. *)
Record sweep : Type := {
  count : nat;
  deleteCount : nat;
  deleted : list (string * list string);
  batch : list string;
  reads : nat;
  comparisons : list comparison;
  logged : list error
}.

Section Registry.
Context `{Codec} `{Config}.

(** [writeProviderEntry] *)
Definition writeProviderEntry (put_fails : bool)
  (store : gmap string (list Z)) (cid : CID) (peer : PeerId) (time : Date)
  : result (gmap string (list Z)) :=
  let dsKey := makeProviderKey (inl cid) +:+ "/" +:+ peerText peer in
  let buffer := encodeTime time in
  ds_put put_fails store dsKey buffer.

(** The loop of [loadProviders]: nothing catches what the parser and the
    decoder throw. *)
Fixpoint load_entries (entries : list (string * list Z))
  (providers : list (string * Date)) : result (list (string * Date)) :=
  match entries with
  | [] => Ok providers
  | (key, value) :: rest =>
      let* parsed := parseProviderKey key in
      let* time := readTime value in
      load_entries rest (map_set (snd parsed) time providers)
  end.

(** [loadProviders] *)
Definition loadProviders (scan_fails : bool) (store : gmap string (list Z))
  (cid : CID) : result (list (string * Date)) :=
  let* entries := ds_query scan_fails store (makeProviderKey (inl cid)) in
  load_entries entries [].

(** [_getProvidersMap].  The map it returns is the one the cache holds;
    every caller that changes it puts it back under the same key before it
    does anything else, so passing the map by value loses nothing. *)
Definition _getProvidersMap (scan_fails : bool) (cid : CID) (st : Providers)
  : result (list (string * Date)) * Providers :=
  let cacheKey := makeProviderKey (inl cid) in
  match lru_get cacheKey (cache st) with
  | (Some provs, c) =>
      (Ok provs, {| datastore := datastore st; cache := c |})
  | (None, c) =>
      match loadProviders scan_fails (datastore st) cid with
      | Err e => (Err e, {| datastore := datastore st; cache := c |})
      | Ok provs =>
          (Ok provs, {| datastore := datastore st;
                        cache := lru_set cacheSize cacheKey provs c |})
      end
  end.

(** [addProvider]; [now] is the time value of [new Date()]. *)
Definition addProvider (scan_fails put_fails : bool) (cid : CID)
  (provider : PeerId) (now : Z) (st : Providers) : result unit * Providers :=
  match _getProvidersMap scan_fails cid st with
  | (Err e, st1) => (Err e, st1)
  | (Ok provs, st1) =>
      let provs' := map_set (peerText provider) (Date_ms now) provs in
      let dsKey := makeProviderKey (inl cid) in
      let c := lru_set cacheSize dsKey provs' (cache st1) in
      match writeProviderEntry put_fails (datastore st1) cid provider
              (Date_ms now) with
      | Err e => (Err e, {| datastore := datastore st1; cache := c |})
      | Ok store => (Ok tt, {| datastore := store; cache := c |})
      end
  end.

(** [peerIdFromString] over the keys of a map; the first text it rejects
    is thrown. *)
Fixpoint peers_from_strings (texts : list string) : result (list PeerId) :=
  match texts with
  | [] => Ok []
  | s :: rest =>
      match peerIdFromString s with
      | None => Err (InvalidPeerId s)
      | Some p => let* ps := peers_from_strings rest in Ok (p :: ps)
      end
  end.

(** [getProviders] *)
Definition getProviders (scan_fails : bool) (cid : CID) (st : Providers)
  : result (list PeerId) * Providers :=
  match _getProvidersMap scan_fails cid st with
  | (Err e, st1) => (Err e, st1)
  | (Ok provs, st1) => (peers_from_strings (map_keys provs), st1)
  end.

(** One turn of the scan loop of [_cleanup].  [clock n] is the [n]-th
    reading of [Date.now()] in this sweep; an entry that the parser or the
    decoder rejects is logged and takes no reading. *)
Definition sweep_entry (clock : nat -> Z) (sw : sweep)
  (entry : string * list Z) : sweep :=
  let (key, value) := entry in
  match (let* parsed := parseProviderKey key in
         let* date := readTime value in
         Ok (parsed, date)) with
  | Ok ((cid, peerId), date) =>
      let time := getTime date in
      let now := clock (reads sw) in
      let expired := match time with
                     | Some t => provideValidity <? now - t
                     | None => false
                     end in
      let line := {| cmp_key := key; cmp_now := now; cmp_time := time;
                     cmp_expired := expired |} in
      if expired then
        let peers := default [] (map_get cid (deleted sw)) in
        {| count := S (count sw);
           deleteCount := S (deleteCount sw);
           deleted := map_set cid (set_add peerId peers) (deleted sw);
           batch := (batch sw ++ [key])%list;
           reads := S (reads sw);
           comparisons := (comparisons sw ++ [line])%list;
           logged := logged sw |}
      else
        {| count := S (count sw);
           deleteCount := deleteCount sw;
           deleted := deleted sw;
           batch := batch sw;
           reads := S (reads sw);
           comparisons := (comparisons sw ++ [line])%list;
           logged := logged sw |}
  | Err e =>
      {| count := count sw;
         deleteCount := deleteCount sw;
         deleted := deleted sw;
         batch := batch sw;
         reads := reads sw;
         comparisons := comparisons sw;
         logged := (logged sw ++ [e])%list |}
  end.

(** The locals before the scan; reading 0 of the clock is [start]. *)
Definition sweep_start : sweep :=
  {| count := 0; deleteCount := 0; deleted := []; batch := [];
     reads := 1; comparisons := []; logged := [] |}.

(** The last loop of [_cleanup], for one cid of [deleted]. *)
Definition reconcile (c : list (string * list (string * Date)))
  (del : string * list string) : list (string * list (string * Date)) :=
  let (cid, peers) := del in
  let key := makeProviderKey (inr cid) in
  match lru_get key c with
  | (Some provs, c1) =>
      let provs' := fold_left (fun m peerId => map_delete peerId m) peers provs in
      if (map_size provs' =? 0)%nat then lru_remove key c1
      else lru_set cacheSize key provs' c1
  | (None, c1) => c1
  end.

(** [_cleanup] *)
Definition _cleanup (scan_fails commit_fails : bool) (clock : nat -> Z)
  (st : Providers) : result sweep * Providers :=
  match ds_query scan_fails (datastore st) PROVIDER_KEY_PREFIX with
  | Err e => (Err e, st)
  | Ok entries =>
      let sw := fold_left (sweep_entry clock) entries sweep_start in
      let committed :=
        if (0 <? map_size (deleted sw))%nat
        then ds_commit commit_fails (datastore st) (batch sw)
        else Ok (datastore st) in
      match committed with
      | Err e => (Err e, st)
      | Ok store =>
          (Ok sw, {| datastore := store;
                     cache := fold_left reconcile (deleted sw) (cache st) |})
      end
  end.

(** The calls that the queue admits, with the faults of the backend and the
    readings of the clock during each. *)
Inductive op : Type :=
  | AddProvider (scan_fails put_fails : bool) (cid : CID) (provider : PeerId)
      (now : Z)
  | GetProviders (scan_fails : bool) (cid : CID)
  | Cleanup (scan_fails commit_fails : bool) (clock : nat -> Z).

Definition run_op (st : Providers) (o : op) : Providers :=
  match o with
  | AddProvider sf pf cid provider now =>
      snd (addProvider sf pf cid provider now st)
  | GetProviders sf cid => snd (getProviders sf cid st)
  | Cleanup sf cf clock => snd (_cleanup sf cf clock st)
  end.

Definition run_ops (st : Providers) (ops : list op) : Providers :=
  fold_left run_op ops st.

(** The state of a new [Providers] object over a datastore. *)
Definition init (store : gmap string (list Z)) : Providers :=
  {| datastore := store; cache := [] |}.

(** *** What the theorems speak of *)

(** The map the cache holds for a cid, without touching its recency. *)
Definition cached (st : Providers) (cid : CID)
  : option (list (string * Date)) :=
  lru_peek (makeProviderKey (inl cid)) (cache st).

(** The time the datastore holds for a cid and a peer text. *)
Definition backend_time (store : gmap string (list Z)) (cid : CID)
  (peer : string) : option Date :=
  match store !! (makeProviderKey (inl cid) +:+ "/" +:+ peer) with
  | Some value =>
      match readTime value with
      | Ok d => Some d
      | Err _ => None
      end
  | None => None
  end.

(** Every key under the prefix that the parser accepts is the key of a
    record: the one [writeProviderEntry] builds for some cid and peer. *)
Definition store_wf (store : gmap string (list Z)) : Prop :=
  forall k v r,
    store !! k = Some v ->
    startsWith k PROVIDER_KEY_PREFIX = true ->
    parseProviderKey k = Ok r ->
    exists c p, k = recordKey c p.

(** Every entry that a scan for the cid meets can be read. *)
Definition loadable (store : gmap string (list Z)) (cid : CID) : Prop :=
  forall k v,
    store !! k = Some v ->
    startsWith k (makeProviderKey (inl cid)) = true ->
    (exists r, parseProviderKey k = Ok r) /\ (exists d, readTime v = Ok d).

(** A map is the snapshot of the records of a cid: they can all be read,
    and the map has their peers and times. *)
Definition snapshot (store : gmap string (list Z)) (cid : CID)
  (m : list (string * Date)) : Prop :=
  loadable store cid
  /\ forall peer, map_get peer m = backend_time store cid peer.

(** What holds of a cached map whatever fails: the records of its cid can
    be read, and its keys are texts of peers. *)
Definition sound_map (store : gmap string (list Z)) (cid : CID)
  (m : list (string * Date)) : Prop :=
  loadable store cid
  /\ forall s, In s (map_keys m) -> exists p, s = peerText p.

(** The keys of a map are texts of peers. *)
Definition peer_keys (store : gmap string (list Z)) (cid : CID)
  (m : list (string * Date)) : Prop :=
  forall s, In s (map_keys m) -> exists p, s = peerText p.

Definition cache_rel
  (Q : gmap string (list Z) -> CID -> list (string * Date) -> Prop)
  (st : Providers) : Prop :=
  forall cid m, cached st cid = Some m -> Q (datastore st) cid m.

(** Cache coherence: the cached map of every cid is the snapshot of its
    records. *)
Definition coherent (st : Providers) : Prop := cache_rel snapshot st.

Definition cache_sound (st : Providers) : Prop := cache_rel sound_map st.


(** The comparison of [_cleanup]: [delta > this.provideValidity], which
    is false when the time is NaN. *)
Definition expiry (now : Z) (time : option Z) : bool :=
  match time with
  | Some t => provideValidity <? now - t
  | None => false
  end.

Definition cache_bounded (st : Providers) : Prop :=
  (length (cache st) <= cacheSize)%nat.

Definition maps_nodup (st : Providers) : Prop :=
  List.Forall (fun e => List.NoDup (map_keys (snd e))) (cache st).

(** The clock of an [addProvider] shows a time a [Date] holds. *)
Definition op_clock_ok (o : op) : Prop :=
  match o with
  | AddProvider _ _ _ _ now => 0 <= now <= maxTime
  | _ => True
  end.

(** No [put] of the operation fails. *)
Definition op_put_ok (o : op) : Prop :=
  match o with
  | AddProvider _ put_fails _ _ _ => put_fails = false
  | _ => True
  end.

Definition op_no_sweep (o : op) : Prop :=
  match o with
  | Cleanup _ _ _ => False
  | _ => True
  end.

(** A line of the log of a sweep is the comparison of an entry it has
    scanned: the time is the one the value decodes to, the reading is one
    of the clock, and the verdict is their comparison. *)
Definition line_ok (clock : nat -> Z) (scanned : list (string * list Z))
  (line : comparison) : Prop :=
  exists v ct pt d i,
    In (cmp_key line, v) scanned
    /\ parseProviderKey (cmp_key line) = Ok (ct, pt)
    /\ readTime v = Ok d
    /\ cmp_time line = getTime d
    /\ cmp_now line = clock i
    /\ cmp_expired line = expiry (cmp_now line) (cmp_time line).

(** What the locals of [_cleanup] hold after the entries [scanned]. *)
Record sweep_inv (clock : nat -> Z) (scanned : list (string * list Z))
  (sw : sweep) : Prop := {
  inv_lines : forall line, In line (comparisons sw) ->
                           line_ok clock scanned line;
  inv_lines_nodup : List.NoDup (List.map cmp_key (comparisons sw));
  inv_scanned :
    forall k v r d, In (k, v) scanned -> parseProviderKey k = Ok r ->
                    readTime v = Ok d ->
                    exists line, In line (comparisons sw) /\ cmp_key line = k;
  inv_batch :
    forall k, In k (batch sw) <->
              exists line, In line (comparisons sw) /\ cmp_key line = k
                           /\ cmp_expired line = true;
  inv_deleted :
    forall ct s,
      set_has s (default [] (map_get ct (deleted sw))) = true <->
      exists k, In k (batch sw) /\ parseProviderKey k = Ok (ct, s);
  inv_deleted_nodup : List.NoDup (map_keys (deleted sw))
}.

(** A property of the map of a cid that only looks at the key of the cid. *)
Definition by_key
  (Q : gmap string (list Z) -> CID -> list (string * Date) -> Prop) : Prop :=
  forall store c c' m,
    makeProviderKey (inl c) = makeProviderKey (inl c') ->
    Q store c m -> Q store c' m.

(** The cached maps of a cid hold a peer. *)
Definition holds_peer (cid : CID) (peer : PeerId)
  (store : gmap string (list Z)) (c0 : CID) (m : list (string * Date))
  : Prop :=
  makeProviderKey (inl c0) = makeProviderKey (inl cid) ->
  map_get (peerText peer) m <> None.

(** What a completed [addProvider] of a peer for a cid leaves, and what
    later calls of [addProvider] and [getProviders] keep. *)
Definition provided (cid : CID) (peer : PeerId) (st : Providers) : Prop :=
  store_wf (datastore st)
  /\ cache_sound st
  /\ loadable (datastore st) cid
  /\ backend_time (datastore st) cid (peerText peer) <> None
  /\ cache_rel (holds_peer cid peer) st.

End Registry.

(** ** The cleanup service *)

(** How often a character occurs in a text. *)
Fixpoint count_char (c : ascii) (s : string) : nat :=
  match s with
  | EmptyString => 0%nat
  | String a s' => (if Ascii.eqb a c then 1%nat else 0%nat) + count_char c s'
  end.

(** An interval of the runtime: what [setInterval] returns, with its
    period. *)
Record timer : Type := {
  timer_id : nat;
  timer_period : Z
}.

(** The fields [started] and [cleaner] of a [Providers] object, with the
    intervals of the runtime that are active and the identity that the next
    [setInterval] gives. *)
Record service : Type := {
  started : bool;
  cleaner : option timer;
  active : list timer;
  next_id : nat
}.

(** [isStarted] *)
Definition isStarted (sv : service) : bool := started sv.

(** [start]: returns at once when the service is started; else sets the
    flag and keeps the interval that [setInterval] returns. *)
Definition start (cleanupInterval : Z) (sv : service) : service :=
  if started sv then sv
  else
    let t := {| timer_id := next_id sv; timer_period := cleanupInterval |} in
    {| started := true;
       cleaner := Some t;
       active := t :: active sv;
       next_id := S (next_id sv) |}.

(** [stop]: clears the flag, and clears the interval when there is one. *)
Definition stop (sv : service) : service :=
  match cleaner sv with
  | Some t =>
      {| started := false;
         cleaner := None;
         active := List.filter (fun u => negb (timer_id u =? timer_id t)%nat)
                     (active sv);
         next_id := next_id sv |}
  | None =>
      {| started := false;
         cleaner := None;
         active := active sv;
         next_id := next_id sv |}
  end.

(** The state of the fields after the constructor. *)
Definition service_new : service :=
  {| started := false; cleaner := None; active := []; next_id := 0 |}.

Inductive service_call : Type :=
  | Start
  | Stop.

Definition run_call (cleanupInterval : Z) (sv : service) (c : service_call)
  : service :=
  match c with
  | Start => start cleanupInterval sv
  | Stop => stop sv
  end.

Definition run_calls (cleanupInterval : Z) (sv : service)
  (calls : list service_call) : service :=
  fold_left (run_call cleanupInterval) calls sv.

(** ** The cache as the [hashlru] package builds it *)

(** The registry builds its cache with [cache(options.cacheSize)], the
    default export of the package [hashlru].  What follows is the object
    that [hashlru(max)] returns, as the package is published: two
    generations of entries, [cache] and [_cache], and [size], the number
    of entries put into [cache] since it was last emptied.  A generation is
    an object made with [Object.create(null)], kept here as the list of its
    properties whose value is not [undefined]: every read of the package
    tests a property with [!== undefined], so a property that [remove] has
    set to [undefined] reads as one that was never set.  [hashlru(max)]
    throws when [max] is 0. *)
Record hashlru (V : Type) : Type := {
  hl_max : nat;
  hl_size : nat;
  hl_cache : list (string * V);
  hl_old : list (string * V)
}.
Arguments hl_max {V} h.
Arguments hl_size {V} h.
Arguments hl_cache {V} h.
Arguments hl_old {V} h.

Definition hashlru_new {V : Type} (max : nat) : hashlru V :=
  {| hl_max := max; hl_size := 0; hl_cache := []; hl_old := [] |}.

(** [update(key, value)]: the entry goes into [cache]; when that makes
    [size >= max], [cache] becomes [_cache], whose entries are dropped, and
    a new [cache] starts empty. *)
Definition hashlru_update {V : Type} (key : string) (value : V)
  (h : hashlru V) : hashlru V :=
  let cache' := map_set key value (hl_cache h) in
  let size' := S (hl_size h) in
  if (hl_max h <=? size')%nat
  then {| hl_max := hl_max h; hl_size := 0; hl_cache := [];
          hl_old := cache' |}
  else {| hl_max := hl_max h; hl_size := size'; hl_cache := cache';
          hl_old := hl_old h |}.

(** [has(key)] *)
Definition hashlru_has {V : Type} (key : string) (h : hashlru V) : bool :=
  match map_get key (hl_cache h) with
  | Some _ => true
  | None => match map_get key (hl_old h) with
            | Some _ => true
            | None => false
            end
  end.

(** [remove(key)] *)
Definition hashlru_remove {V : Type} (key : string) (h : hashlru V)
  : hashlru V :=
  {| hl_max := hl_max h; hl_size := hl_size h;
     hl_cache := map_delete key (hl_cache h);
     hl_old := map_delete key (hl_old h) |}.

(** [get(key)]: an entry found in [_cache] only is put into [cache]. *)
Definition hashlru_get {V : Type} (key : string) (h : hashlru V)
  : option V * hashlru V :=
  match map_get key (hl_cache h) with
  | Some v => (Some v, h)
  | None =>
      match map_get key (hl_old h) with
      | Some v => (Some v, hashlru_update key v h)
      | None => (None, h)
      end
  end.

(** [set(key, value)] *)
Definition hashlru_set {V : Type} (key : string) (value : V)
  (h : hashlru V) : hashlru V :=
  match map_get key (hl_cache h) with
  | Some _ => {| hl_max := hl_max h; hl_size := hl_size h;
                 hl_cache := map_set key value (hl_cache h);
                 hl_old := hl_old h |}
  | None => hashlru_update key value h
  end.

(** The keys for which [has] answers true, each once. *)
Definition hashlru_keys {V : Type} (h : hashlru V) : list string :=
  nodup string_dec (map_keys (hl_cache h) ++ map_keys (hl_old h))%list.

(** The state of a [Providers] object whose cache is the one above. *)
Record ProvidersH : Type := {
  h_datastore : gmap string (list Z);
  h_cache : hashlru (list (string * Date))
}.

Section RegistryOverHashlru.
Context `{Codec} `{Config}.

(** [_getProvidersMap] over this cache.  A map that [get] finds in [_cache]
    is then held by both generations; the caller that changes it sets it
    under its key at once, and every read looks at [cache] first, so the
    map that [_cache] still holds is not read again. *)
Definition _getProvidersMap_h (scan_fails : bool) (cid : CID)
  (st : ProvidersH) : result (list (string * Date)) * ProvidersH :=
  let cacheKey := makeProviderKey (inl cid) in
  match hashlru_get cacheKey (h_cache st) with
  | (Some provs, c) =>
      (Ok provs, {| h_datastore := h_datastore st; h_cache := c |})
  | (None, c) =>
      match loadProviders scan_fails (h_datastore st) cid with
      | Err e => (Err e, {| h_datastore := h_datastore st; h_cache := c |})
      | Ok provs =>
          (Ok provs, {| h_datastore := h_datastore st;
                        h_cache := hashlru_set cacheKey provs c |})
      end
  end.

(** [addProvider] over this cache. *)
Definition addProvider_h (scan_fails put_fails : bool) (cid : CID)
  (provider : PeerId) (now : Z) (st : ProvidersH)
  : result unit * ProvidersH :=
  match _getProvidersMap_h scan_fails cid st with
  | (Err e, st1) => (Err e, st1)
  | (Ok provs, st1) =>
      let provs' := map_set (peerText provider) (Date_ms now) provs in
      let dsKey := makeProviderKey (inl cid) in
      let c := hashlru_set dsKey provs' (h_cache st1) in
      match writeProviderEntry put_fails (h_datastore st1) cid provider
              (Date_ms now) with
      | Err e => (Err e, {| h_datastore := h_datastore st1; h_cache := c |})
      | Ok store => (Ok tt, {| h_datastore := store; h_cache := c |})
      end
  end.

(** [getProviders] over this cache. *)
Definition getProviders_h (scan_fails : bool) (cid : CID) (st : ProvidersH)
  : result (list PeerId) * ProvidersH :=
  match _getProvidersMap_h scan_fails cid st with
  | (Err e, st1) => (Err e, st1)
  | (Ok provs, st1) => (peers_from_strings (map_keys provs), st1)
  end.

(** The last loop of [_cleanup] over this cache, for one cid of
    [deleted]. *)
Definition reconcile_h (c : hashlru (list (string * Date)))
  (del : string * list string) : hashlru (list (string * Date)) :=
  let (cid, peers) := del in
  let key := makeProviderKey (inr cid) in
  match hashlru_get key c with
  | (Some provs, c1) =>
      let provs' := fold_left (fun m peerId => map_delete peerId m) peers provs in
      if (map_size provs' =? 0)%nat then hashlru_remove key c1
      else hashlru_set key provs' c1
  | (None, c1) => c1
  end.

(** [_cleanup] over this cache. *)
Definition _cleanup_h (scan_fails commit_fails : bool) (clock : nat -> Z)
  (st : ProvidersH) : result sweep * ProvidersH :=
  match ds_query scan_fails (h_datastore st) PROVIDER_KEY_PREFIX with
  | Err e => (Err e, st)
  | Ok entries =>
      let sw := fold_left (sweep_entry clock) entries sweep_start in
      let committed :=
        if (0 <? map_size (deleted sw))%nat
        then ds_commit commit_fails (h_datastore st) (batch sw)
        else Ok (h_datastore st) in
      match committed with
      | Err e => (Err e, st)
      | Ok store =>
          (Ok sw, {| h_datastore := store;
                     h_cache := fold_left reconcile_h (deleted sw)
                                  (h_cache st) |})
      end
  end.

Definition run_op_h (st : ProvidersH) (o : op) : ProvidersH :=
  match o with
  | AddProvider sf pf cid provider now =>
      snd (addProvider_h sf pf cid provider now st)
  | GetProviders sf cid => snd (getProviders_h sf cid st)
  | Cleanup sf cf clock => snd (_cleanup_h sf cf clock st)
  end.

Definition run_ops_h (st : ProvidersH) (ops : list op) : ProvidersH :=
  fold_left run_op_h ops st.

(** The state of a new [Providers] object over a datastore. *)
Definition init_h (store : gmap string (list Z)) : ProvidersH :=
  {| h_datastore := store; h_cache := hashlru_new cacheSize |}.

(** How many cids the cache holds. *)
Definition resident (st : ProvidersH) : nat :=
  length (hashlru_keys (h_cache st)).

(** What the counters of the cache keep: [cache] has at most [size]
    entries, [size] stays below [max], and [_cache] has at most [max]. *)
Definition hashlru_inv {V : Type} (h : hashlru V) : Prop :=
  (length (hl_cache h) <= hl_size h)%nat
  /\ (hl_size h < hl_max h)%nat
  /\ (length (hl_old h) <= hl_max h)%nat.

(** What every operation keeps of the cache. *)
Definition cache_inv_h (st : ProvidersH) : Prop :=
  hl_max (h_cache st) = cacheSize /\ hashlru_inv (h_cache st).

End RegistryOverHashlru.

(** ** A small instance *)

(** Three cids and three peers with texts in the alphabets of base32 and
    base58, the prefix of the kad-dht, a cache of two cids and a validity of
    one second: the setting of the scenarios of the spec. *)
Inductive demo_cid : Type := CidA | CidB | CidC.

Inductive demo_peer : Type := Peer1 | Peer2 | Peer3.

Definition demo_cidText (c : demo_cid) : string :=
  match c with
  | CidA => "ciqa"
  | CidB => "ciqb"
  | CidC => "ciqc"
  end.

Definition demo_peerText (p : demo_peer) : string :=
  match p with
  | Peer1 => "QmP1"
  | Peer2 => "QmP2"
  | Peer3 => "QmP3"
  end.

Definition demo_peerIdFromString (s : string) : option demo_peer :=
  if String.eqb s "QmP1" then Some Peer1
  else if String.eqb s "QmP2" then Some Peer2
  else if String.eqb s "QmP3" then Some Peer3
  else None.

Definition demo_codec : Codec :=
  {| CID := demo_cid;
     PeerId := demo_peer;
     cidText := demo_cidText;
     peerText := demo_peerText;
     peerIdFromString := demo_peerIdFromString |}.

Definition demo_config : Config :=
  {| PROVIDER_KEY_PREFIX := "/dht/provider";
     cacheSize := 2;
     provideValidity := 1000 |}.

(** The same with the prefix that the spec (4.2) writes, which has two
    parts and not three. *)
Definition spec_prefix_config : Config :=
  {| PROVIDER_KEY_PREFIX := "/providers";
     cacheSize := 2;
     provideValidity := 1000 |}.

(** Two records written at times 0 and 1500. *)
Definition demo_two_records : Providers :=
  @run_ops demo_codec demo_config (init (∅ : gmap string (list Z)))
    [@AddProvider demo_codec false false CidA Peer1 0;
     @AddProvider demo_codec false false CidA Peer2 1500].

(** Three calls for one cid, the last one a refresh. *)
Definition demo_refresh_ops : list (@op demo_codec) :=
  [@AddProvider demo_codec false false CidA Peer1 0;
   @AddProvider demo_codec false false CidA Peer2 1500;
   @AddProvider demo_codec false false CidA Peer1 1700].

Definition demo_refreshed : Providers :=
  @run_ops demo_codec demo_config (init ∅) demo_refresh_ops.

(** Calls for two other cids, one with a failing [put], that push the
    first cid out of a cache of two. *)
Definition demo_other_ops : list (@op demo_codec) :=
  [@AddProvider demo_codec false false CidB Peer2 10;
   @AddProvider demo_codec false true CidC Peer3 20;
   @GetProviders demo_codec false CidB].

(** A sweep of the two records when the clock shows 2000. *)
Definition demo_clock : nat -> Z := fun _ => 2000.

Definition demo_sweep : result sweep * Providers :=
  @_cleanup demo_codec demo_config false false demo_clock demo_two_records.

Definition demo_sweep_log : sweep :=
  match fst demo_sweep with
  | Ok sw => sw
  | Err _ => @sweep_start
  end.

(** An [addProvider] whose [put] fails, on a new registry. *)
Definition demo_failed_put : result unit * Providers :=
  @addProvider demo_codec demo_config false true CidA Peer1 5 (init ∅).

(** A datastore with a record whose value is a truncated varint. *)
Definition store_truncated_value : gmap string (list Z) :=
  <["/dht/provider/ciqa/QmP1" := [128]]> ∅.

(** A datastore with a key of six parts under the prefix of a cid. *)
Definition store_long_key : gmap string (list Z) :=
  <["/dht/provider/ciqa/QmP1/x" := [5]]> ∅.

(** A first [addProvider] on a new registry, and one whose scan fails. *)
Definition demo_first_add : result unit * Providers :=
  @addProvider demo_codec demo_config false false CidA Peer1 5 (init ∅).

Definition demo_scan_failed : result unit * Providers :=
  @addProvider demo_codec demo_config true false CidA Peer1 5 (init ∅).

(** A sweep of the two records whose scan fails. *)
Definition demo_sweep_failed : result sweep * Providers :=
  @_cleanup demo_codec demo_config true false demo_clock demo_two_records.

(** A sweep soon after the first [addProvider]. *)
Definition demo_young_clock : nat -> Z := fun _ => 900.

Definition demo_young_sweep : result sweep * Providers :=
  @_cleanup demo_codec demo_config false false demo_young_clock
    (snd demo_first_add).

Definition demo_young_log : sweep :=
  match fst demo_young_sweep with
  | Ok sw => sw
  | Err _ => @sweep_start
  end.

(** A registry started anew over the datastore of the three calls. *)
Definition demo_restarted : Providers := init (datastore demo_refreshed).




(** A datastore with a record whose peer part is not the text of a peer,
    and an [addProvider] for the cid of the record. *)
Definition demo_bad_peer_store : gmap string (list Z) :=
  <["/dht/provider/ciqa/notapeer" := [5]]> ∅.

Definition demo_bad_peer_add : result unit * Providers :=
  @addProvider demo_codec demo_config false false CidA Peer1 5
    (init demo_bad_peer_store).

(** Calls for three cids on a registry whose [cacheSize] is 2. *)
Definition demo_three_cids : list (@op demo_codec) :=
  [@AddProvider demo_codec false false CidA Peer1 0;
   @GetProviders demo_codec false CidB;
   @GetProviders demo_codec false CidC].

Definition demo_three_resident : ProvidersH :=
  @run_ops_h demo_codec demo_config (@init_h demo_config ∅) demo_three_cids.

(** ** Lemmas on strings *)

Lemma append_nil (s : string) : EmptyString +:+ s = s.
Proof. reflexivity. Qed.

Lemma append_cons (a : ascii) (s1 s2 : string) :
  String a s1 +:+ s2 = String a (s1 +:+ s2).
Proof. reflexivity. Qed.

Lemma string_app_assoc (s1 s2 s3 : string) :
  (s1 +:+ s2) +:+ s3 = s1 +:+ s2 +:+ s3.
Proof.
  induction s1 as [|a s1 IH]; rewrite ?append_nil, ?append_cons; congruence.
Qed.

Lemma split_nonempty sep s : split sep s <> [].
Proof.
  destruct s as [|a s]; simpl; [discriminate|].
  destruct (Ascii.eqb a sep); [discriminate|].
  destruct (split sep s); discriminate.
Qed.

Lemma split_no_sep sep s : has_char sep s = false -> split sep s = [s].
Proof.
  induction s as [|a s IH]; simpl; [reflexivity|].
  intros Hc. apply orb_false_iff in Hc as [Ha Hs].
  rewrite Ha, (IH Hs). reflexivity.
Qed.

Lemma split_app_sep sep s1 s2 :
  has_char sep s1 = false ->
  split sep (s1 +:+ String sep s2) = s1 :: split sep s2.
Proof.
  induction s1 as [|a s1 IH]; rewrite ?append_nil, ?append_cons; simpl.
  - intros _. rewrite Ascii.eqb_refl. reflexivity.
  - intros Hc. apply orb_false_iff in Hc as [Ha Hs].
    rewrite Ha, (IH Hs). reflexivity.
Qed.

Lemma split_app sep s1 s2 :
  split sep (s1 +:+ String sep s2) = split sep s1 ++ split sep s2.
Proof.
  induction s1 as [|a s1 IH]; simpl.
  - rewrite Ascii.eqb_refl. reflexivity.
  - destruct (Ascii.eqb a sep); [now rewrite IH|].
    rewrite IH. destruct (split sep s1) eqn:E; [|reflexivity].
    now apply split_nonempty in E.
Qed.

Section KeyFacts.
Context `{Codec} `{Config}.

Lemma split_record_key (c p : string) :
  has_char slash c = false -> has_char slash p = false ->
  split slash (PROVIDER_KEY_PREFIX +:+ "/" +:+ c +:+ "/" +:+ p)
  = split slash PROVIDER_KEY_PREFIX ++ [c; p].
Proof.
  intros Hc Hp.
  change ("/" +:+ c +:+ "/" +:+ p) with (String slash (c +:+ String slash p)).
  rewrite split_app, split_app_sep, (split_no_sep _ p) by assumption.
  reflexivity.
Qed.

Lemma parse_text_key (c p : string) :
  prefix_ok ->
  has_char slash c = false -> has_char slash p = false ->
  parseProviderKey (PROVIDER_KEY_PREFIX +:+ "/" +:+ c +:+ "/" +:+ p)
  = Ok (c, p).
Proof.
  unfold prefix_ok, parseProviderKey. intros Hpre Hc Hp.
  rewrite split_record_key by assumption.
  destruct (split slash PROVIDER_KEY_PREFIX) as [|x0 [|x1 [|x2 [|? ?]]]];
    try discriminate.
  reflexivity.
Qed.

(** C5. Key round trip: the key that [writeProviderEntry] builds for a cid
    and a peer splits on '/' into exactly five parts, part 3 is the cid
    text and part 4 the peer text, and [parseProviderKey] returns that
    pair. *)
Theorem parse_record_key_roundtrip `{!CodecLaws} (c : CID) (p : PeerId) :
  prefix_ok ->
  parseProviderKey (recordKey c p) = Ok (cidText c, peerText p)
  /\ length (split slash (recordKey c p)) = 5%nat
  /\ nth 3 (split slash (recordKey c p)) EmptyString = cidText c
  /\ nth 4 (split slash (recordKey c p)) EmptyString = peerText p.
Proof.
  intros Hpre.
  pose proof (cidText_no_slash c) as Hc.
  pose proof (peerText_no_slash p) as Hp.
  unfold recordKey, makeProviderKey.
  replace ((PROVIDER_KEY_PREFIX +:+ "/" +:+ cidText c) +:+ "/" +:+ peerText p)
    with (PROVIDER_KEY_PREFIX +:+ "/" +:+ cidText c +:+ "/" +:+ peerText p)
    by (now rewrite !string_app_assoc).
  split; [now apply parse_text_key|].
  rewrite split_record_key by assumption.
  unfold prefix_ok in Hpre.
  destruct (split slash PROVIDER_KEY_PREFIX) as [|x0 [|x1 [|x2 [|? ?]]]];
    try discriminate.
  repeat split; reflexivity.
Qed.

End KeyFacts.

(** ** Timestamps: the varint and the date *)

Lemma land_group (x : Z) : Z.land (x mod 128 + 128) 127 = x mod 128.
Proof.
  change 127 with (Z.ones 7). rewrite Z.land_ones by lia.
  change (2 ^ 7) with 128.
  rewrite <- Z.add_mod_idemp_l by lia. rewrite Z.mod_mod by lia.
  replace (x mod 128 + 128) with (x mod 128 + 1 * 128) by lia.
  rewrite Z.mod_add by lia. apply Z.mod_mod. lia.
Qed.

Lemma land_last_group (x : Z) : 0 <= x < 128 -> Z.land x 127 = x.
Proof.
  intros Hx. change 127 with (Z.ones 7). rewrite Z.land_ones by lia.
  apply Z.mod_small. change (2 ^ 7) with 128. lia.
Qed.

(** Reading back what the encoder wrote, from group [k] on: at most eight
    groups fit under the decoder's bound. *)
Lemma varint_read_encode (num : Z) :
  forall (k : nat) (res : Z) (rest : list Z),
    (k <= 7)%nat -> 0 <= num < 128 ^ (8 - Z.of_nat k) ->
    varint_read (varint_encode num ++ rest) (7 * Z.of_nat k) res
    = Some (res + num * 2 ^ (7 * Z.of_nat k)).
Proof.
  funelim (varint_encode num); intros k res rest Hk Hnum.
  - simpl. destruct (49 <? 7 * Z.of_nat k) eqn:E; [apply Z.ltb_lt in E; lia|].
    rewrite land_last_group by lia.
    destruct (128 <=? num) eqn:E2; [apply Z.leb_le in E2; lia|].
    reflexivity.
  - simpl.
    assert (Hk6 : (k <= 6)%nat).
    { destruct (Nat.eq_dec k 7%nat) as [->|]; [|lia].
      change (128 ^ (8 - Z.of_nat 7)) with 128 in Hnum. lia. }
    destruct (49 <? 7 * Z.of_nat k) eqn:E; [apply Z.ltb_lt in E; lia|].
    rewrite land_group.
    pose proof (Z.mod_pos_bound num 128 ltac:(lia)) as Hm.
    destruct (128 <=? num mod 128 + 128) eqn:E2; [|apply Z.leb_gt in E2; lia].
    replace (7 * Z.of_nat k + 7) with (7 * Z.of_nat (S k)) by lia.
    rewrite (H (S k)); [| lia |].
    + f_equal.
      replace (7 * Z.of_nat (S k)) with (7 * Z.of_nat k + 7) by lia.
      rewrite Z.pow_add_r by lia. change (2 ^ 7) with 128.
      pose proof (Z.div_mod num 128 ltac:(lia)) as Hd. nia.
    + split; [apply Z.div_pos; lia|].
      apply Z.div_lt_upper_bound; [lia|].
      replace (8 - Z.of_nat k) with (1 + (8 - Z.of_nat (S k))) in Hnum by lia.
      rewrite Z.pow_add_r in Hnum by lia. lia.
Qed.

(** The varint alone reads back every number of at most 56 bits, so every
    integer below 2^53. *)
Lemma varint_roundtrip (num : Z) (rest : list Z) :
  0 <= num < 2 ^ 56 -> varint_decode (varint_encode num ++ rest) = Some num.
Proof.
  intros Hnum. unfold varint_decode.
  change 0 with (7 * Z.of_nat 0) at 1.
  rewrite (varint_read_encode num 0 0 rest); [f_equal; simpl; lia| lia |].
  change (128 ^ (8 - Z.of_nat 0)) with (2 ^ 56). lia.
Qed.

Lemma new_Date_in_range (t : Z) : 0 <= t <= maxTime -> new_Date t = Date_ms t.
Proof.
  intros Ht. unfold new_Date. rewrite Z.abs_eq by lia.
  destruct (t <=? maxTime) eqn:E; [reflexivity|apply Z.leb_gt in E; lia].
Qed.

Lemma readTime_encodeTime (t : Z) :
  0 <= t <= maxTime -> readTime (encodeTime (Date_ms t)) = Ok (Date_ms t).
Proof.
  intros Ht. unfold readTime, encodeTime. simpl.
  rewrite <- (app_nil_r (varint_encode t)).
  rewrite varint_roundtrip by (unfold maxTime in Ht; lia).
  now rewrite new_Date_in_range.
Qed.

(** C9, as amended. Timestamp round trip: for every integer [t] from 0 to
    8.64e15, the largest time value a [Date] holds, [readTime] of the varint
    of [t] is the date whose [getTime()] is [t]. *)
Theorem timestamp_roundtrip (t : Z) :
  0 <= t <= maxTime ->
  exists d, readTime (varint_encode t) = Ok d /\ getTime d = Some t.
Proof.
  intros Ht. exists (Date_ms t). split; [|reflexivity].
  exact (readTime_encodeTime t Ht).
Qed.

(** C9, as stated, fails between 8.64e15 and 2^53: the varint reads back,
    but [new Date] of it is the invalid date, whose [getTime()] is NaN. *)
Lemma timestamp_roundtrip_beyond_date_range :
  0 <= 8640000000000001 < 2 ^ 53
  /\ varint_decode (varint_encode 8640000000000001) = Some 8640000000000001
  /\ readTime (varint_encode 8640000000000001) = Ok InvalidDate
  /\ ~ (exists d, readTime (varint_encode 8640000000000001) = Ok d
                  /\ getTime d = Some 8640000000000001).
Proof.
  split; [lia|]. split; [reflexivity|]. split; [reflexivity|].
  intros [d [Hd Ht]].
  assert (E : readTime (varint_encode 8640000000000001) = Ok InvalidDate)
    by reflexivity.
  rewrite E in Hd. injection Hd as <-. discriminate.
Qed.

Lemma timestamp_roundtrip_witness :
  exists d, readTime (varint_encode 1700000000000) = Ok d
            /\ getTime d = Some 1700000000000.
Proof. apply timestamp_roundtrip. unfold maxTime. lia. Defined.

(** ** Maps and the cache *)

Section MapFacts.
Context {V : Type}.
Implicit Types (m c : list (string * V)) (k : string).

Lemma map_get_set_eq k (v : V) m : map_get k (map_set k v m) = Some v.
Proof.
  induction m as [|[k' v'] m IH]; simpl.
  - now rewrite String.eqb_refl.
  - destruct (String.eqb k k') eqn:E; simpl.
    + now rewrite String.eqb_refl.
    + now rewrite E.
Qed.

Lemma map_get_set_ne k k' (v : V) m :
  k <> k' -> map_get k (map_set k' v m) = map_get k m.
Proof.
  intros Hne. induction m as [|[k1 v1] m IH]; simpl.
  - apply String.eqb_neq in Hne. now rewrite Hne.
  - destruct (String.eqb k' k1) eqn:E; simpl.
    + apply String.eqb_eq in E. subst k1.
      apply String.eqb_neq in Hne. now rewrite Hne.
    + now rewrite IH.
Qed.

Lemma map_get_delete k k' m :
  map_get k (map_delete k' m)
  = if String.eqb k' k then None else map_get k m.
Proof.
  unfold map_delete. induction m as [|[k1 v1] m IH]; simpl.
  - now destruct (String.eqb k' k).
  - destruct (String.eqb k' k1) eqn:E1; simpl.
    + rewrite IH. destruct (String.eqb k' k) eqn:E2; [reflexivity|].
      apply String.eqb_eq in E1. subst k1.
      rewrite String.eqb_sym. now rewrite E2.
    + rewrite IH. destruct (String.eqb k k1) eqn:E3; [|reflexivity].
      apply String.eqb_eq in E3. subst k1. now rewrite E1.
Qed.

Lemma map_get_In k (v : V) m : map_get k m = Some v -> In (k, v) m.
Proof.
  induction m as [|[k1 v1] m IH]; simpl; [discriminate|].
  destruct (String.eqb k k1) eqn:E.
  - apply String.eqb_eq in E. intros [= ->]. left. now subst.
  - intros Hg. right. now apply IH.
Qed.

Lemma map_get_keys k m : In k (map_keys m) <-> map_get k m <> None.
Proof.
  unfold map_keys. induction m as [|[k1 v1] m IH]; simpl.
  - split; [tauto|congruence].
  - destruct (String.eqb k k1) eqn:E.
    + apply String.eqb_eq in E. subst. split; [discriminate|auto].
    + apply String.eqb_neq in E. rewrite <- IH.
      split; [intros [?|?]; [congruence|assumption]|auto].
Qed.

Lemma map_keys_set k (v : V) m x :
  In x (map_keys (map_set k v m)) <-> x = k \/ In x (map_keys m).
Proof.
  rewrite !map_get_keys. destruct (String.eqb_spec x k) as [->|Hne].
  - rewrite map_get_set_eq. split; [auto|discriminate].
  - rewrite map_get_set_ne by assumption. tauto.
Qed.

Lemma map_keys_delete k m x :
  In x (map_keys (map_delete k m)) -> In x (map_keys m).
Proof.
  rewrite !map_get_keys, map_get_delete.
  destruct (String.eqb k x); congruence.
Qed.

Lemma map_set_nodup k (v : V) m :
  List.NoDup (map_keys m) -> List.NoDup (map_keys (map_set k v m)).
Proof.
  unfold map_keys. induction m as [|[k1 v1] m IH]; simpl; intros Hnd.
  - constructor; [intros []|constructor].
  - inversion Hnd as [|? ? Hnotin Hnd']; subst.
    destruct (String.eqb k k1) eqn:E; simpl.
    + apply String.eqb_eq in E. subst. now constructor.
    + constructor; [|now apply IH].
      intros Hin. apply (map_keys_set k v m k1) in Hin as [->|Hin].
      * now rewrite String.eqb_refl in E.
      * now apply Hnotin.
Qed.

Lemma map_delete_nodup k m :
  List.NoDup (map_keys m) -> List.NoDup (map_keys (map_delete k m)).
Proof.
  unfold map_keys, map_delete.
  induction m as [|[k1 v1] m IH]; simpl; intros Hnd; [constructor|].
  inversion Hnd as [|? ? Hnotin Hnd']; subst.
  destruct (negb (String.eqb k k1)); simpl; [|now apply IH].
  constructor; [|now apply IH].
  intros Hin. apply Hnotin. now apply (map_keys_delete k m k1).
Qed.

Lemma filter_length_le (f : string * V -> bool) m :
  (length (List.filter f m) <= length m)%nat.
Proof. induction m as [|e m IH]; simpl; [lia|destruct (f e); simpl; lia]. Qed.

(** The cache: what a look-up finds after each operation. *)

Lemma lru_peek_remove k k' c :
  lru_peek k (lru_remove k' c)
  = if String.eqb k' k then None else lru_peek k c.
Proof. apply map_get_delete. Qed.

Lemma lru_peek_firstn k (v : V) n c :
  lru_peek k (firstn n c) = Some v -> lru_peek k c = Some v.
Proof.
  unfold lru_peek. revert n. induction c as [|[k1 v1] c IH]; intros [|n];
    simpl; try discriminate.
  destruct (String.eqb k k1); [auto|apply IH].
Qed.

Lemma lru_peek_touch k k' (v : V) c :
  lru_peek k' c = Some v ->
  lru_peek k ((k', v) :: lru_remove k' c) = lru_peek k c.
Proof.
  intros Hv. unfold lru_peek at 1. simpl.
  destruct (String.eqb k k') eqn:E.
  - apply String.eqb_eq in E. now subst.
  - fold (lru_peek k (lru_remove k' c)). rewrite lru_peek_remove.
    now rewrite String.eqb_sym, E.
Qed.

Lemma lru_get_peek k c : fst (lru_get k c) = lru_peek k c.
Proof. unfold lru_get. now destruct (lru_peek k c). Qed.

Lemma lru_peek_get k k' c : lru_peek k (snd (lru_get k' c)) = lru_peek k c.
Proof.
  unfold lru_get. destruct (lru_peek k' c) eqn:E; [|reflexivity].
  simpl. now apply lru_peek_touch.
Qed.

Lemma lru_peek_set k k' cap (v w : V) c :
  lru_peek k (lru_set cap k' v c) = Some w ->
  (k = k' /\ w = v) \/ (k <> k' /\ lru_peek k c = Some w).
Proof.
  unfold lru_set. destruct (lru_peek k' c) eqn:E.
  - unfold lru_peek at 1. simpl. destruct (String.eqb_spec k k') as [->|Hne].
    + intros [= <-]. now left.
    + fold (lru_peek k (lru_remove k' c)). rewrite lru_peek_remove.
      destruct (String.eqb_spec k' k); [congruence|]. now right.
  - intros Hp. apply lru_peek_firstn in Hp. revert Hp.
    unfold lru_peek at 1. simpl. destruct (String.eqb_spec k k') as [->|Hne].
    + intros [= <-]. now left.
    + now right.
Qed.

Lemma lru_peek_set_eq k cap (v : V) c :
  (0 < cap)%nat -> lru_peek k (lru_set cap k v c) = Some v.
Proof.
  intros Hcap. unfold lru_set. destruct (lru_peek k c).
  - unfold lru_peek. simpl. now rewrite String.eqb_refl.
  - destruct cap; [lia|]. unfold lru_peek. simpl. now rewrite String.eqb_refl.
Qed.

(** Replacing the value of a key that is there evicts nothing. *)
Lemma lru_peek_set_present k k' cap (v v0 : V) c :
  lru_peek k' c = Some v0 ->
  lru_peek k (lru_set cap k' v c)
  = if String.eqb k k' then Some v else lru_peek k c.
Proof.
  intros Hp. unfold lru_set. rewrite Hp. unfold lru_peek at 1. simpl.
  destruct (String.eqb k k') eqn:E; [reflexivity|].
  fold (lru_peek k (lru_remove k' c)). rewrite lru_peek_remove.
  now rewrite String.eqb_sym, E.
Qed.

Lemma lru_remove_length k c : (length (lru_remove k c) <= length c)%nat.
Proof. apply filter_length_le. Qed.

Lemma lru_remove_present_length k (v : V) c :
  lru_peek k c = Some v -> (S (length (lru_remove k c)) <= length c)%nat.
Proof.
  unfold lru_peek, lru_remove. induction c as [|[k1 v1] c IH]; simpl;
    [discriminate|].
  destruct (String.eqb k k1); simpl.
  - intros _. pose proof (filter_length_le
      (fun e => negb (String.eqb k (fst e))) c). lia.
  - intros Hp. specialize (IH Hp). lia.
Qed.

Lemma lru_get_length k c : (length (snd (lru_get k c)) <= length c)%nat.
Proof.
  unfold lru_get. destruct (lru_peek k c) eqn:E; simpl; [|lia].
  now apply lru_remove_present_length in E.
Qed.

Lemma lru_set_length cap k (v : V) c :
  (length c <= cap)%nat -> (length (lru_set cap k v c) <= cap)%nat.
Proof.
  intros Hc. unfold lru_set. destruct (lru_peek k c) eqn:E; simpl.
  - apply lru_remove_present_length in E. lia.
  - rewrite length_firstn. lia.
Qed.

(** On overflow it is the entry at the far end, the least recently used
    one, that goes. *)
Lemma lru_set_evicts_last cap k (v : V) c :
  lru_peek k c = None -> length c = cap -> (0 < cap)%nat ->
  lru_set cap k v c = (k, v) :: removelast c.
Proof.
  intros Hp Hlen Hcap. unfold lru_set. rewrite Hp.
  destruct cap as [|cap]; [lia|]. simpl. f_equal.
  rewrite removelast_firstn_len, Hlen. reflexivity.
Qed.

Lemma In_firstn_full (n : nat) c e : In e (firstn n c) -> In e c.
Proof.
  revert n. induction c as [|e1 c IH]; intros [|n]; simpl; try tauto.
  intros [->|Hin]; [now left|right; eauto].
Qed.

(** A property of every value in the cache is kept by its operations. *)

Lemma cache_all_remove P k c : cache_all P c -> cache_all P (lru_remove k c).
Proof.
  unfold cache_all, lru_remove. rewrite !List.Forall_forall.
  intros Hc e He. apply List.filter_In in He as [He _]. now apply Hc.
Qed.

Lemma cache_all_peek P k (v : V) c :
  cache_all P c -> lru_peek k c = Some v -> P v.
Proof.
  unfold cache_all. rewrite List.Forall_forall. intros Hc Hp.
  apply map_get_In in Hp. exact (Hc _ Hp).
Qed.

Lemma cache_all_get P k c : cache_all P c -> cache_all P (snd (lru_get k c)).
Proof.
  intros Hc. unfold lru_get. destruct (lru_peek k c) eqn:E; [|exact Hc].
  simpl. constructor; [exact (cache_all_peek P k v c Hc E)|].
  now apply cache_all_remove.
Qed.

Lemma cache_all_set P cap k (v : V) c :
  P v -> cache_all P c -> cache_all P (lru_set cap k v c).
Proof.
  intros Hv Hc. unfold lru_set. destruct (lru_peek k c).
  - constructor; [exact Hv|now apply cache_all_remove].
  - assert (Hall : cache_all P ((k, v) :: c)) by now constructor.
    unfold cache_all in *. rewrite List.Forall_forall in *.
    intros e He. apply Hall. eapply In_firstn_full; eassumption.
Qed.

End MapFacts.

(** ** The bound of the cache and the maps it holds *)

Section CacheInvariants.
Context `{Codec} `{Config}.
Implicit Types (st : Providers) (cid : CID).

Lemma getProvidersMap_datastore sf cid st :
  datastore (snd (_getProvidersMap sf cid st)) = datastore st.
Proof.
  unfold _getProvidersMap.
  destruct (lru_get _ (cache st)) as [[provs|] c]; [reflexivity|].
  destruct (loadProviders sf (datastore st) cid); reflexivity.
Qed.

Lemma getProvidersMap_bounded sf cid st :
  cache_bounded st -> cache_bounded (snd (_getProvidersMap sf cid st)).
Proof.
  unfold cache_bounded, _getProvidersMap. intros Hb.
  pose proof (lru_get_length (makeProviderKey (inl cid)) (cache st)) as Hg.
  destruct (lru_get _ (cache st)) as [[provs|] c]; simpl in *; [lia|].
  destruct (loadProviders sf (datastore st) cid); simpl; [|lia].
  apply lru_set_length. lia.
Qed.

Lemma addProvider_bounded sf pf cid p now st :
  cache_bounded st -> cache_bounded (snd (addProvider sf pf cid p now st)).
Proof.
  intros Hb. unfold addProvider.
  pose proof (getProvidersMap_bounded sf cid st Hb) as H1.
  destruct (_getProvidersMap sf cid st) as [[provs|e] st1]; simpl in *;
    [|exact H1].
  destruct (writeProviderEntry pf (datastore st1) cid p (Date_ms now));
    unfold cache_bounded; simpl; now apply lru_set_length.
Qed.

Lemma getProviders_bounded sf cid st :
  cache_bounded st -> cache_bounded (snd (getProviders sf cid st)).
Proof.
  intros Hb. unfold getProviders.
  pose proof (getProvidersMap_bounded sf cid st Hb) as H1.
  now destruct (_getProvidersMap sf cid st) as [[provs|e] st1].
Qed.

Lemma reconcile_bounded c del :
  (length c <= cacheSize)%nat -> (length (reconcile c del) <= cacheSize)%nat.
Proof.
  intros Hb. destruct del as [ct peers]. unfold reconcile.
  pose proof (lru_get_length (makeProviderKey (inr ct)) c) as Hg.
  destruct (lru_get _ c) as [[provs|] c1]; simpl in *; [|lia].
  destruct (map_size _ =? 0)%nat.
  - pose proof (lru_remove_length (makeProviderKey (inr ct)) c1). lia.
  - apply lru_set_length. lia.
Qed.

Lemma fold_reconcile_bounded dels c :
  (length c <= cacheSize)%nat ->
  (length (fold_left reconcile dels c) <= cacheSize)%nat.
Proof.
  revert c. induction dels as [|del dels IH]; intros c Hb; simpl;
    [exact Hb|]. apply IH. now apply reconcile_bounded.
Qed.

Lemma cleanup_bounded sf cf clock st :
  cache_bounded st -> cache_bounded (snd (_cleanup sf cf clock st)).
Proof.
  intros Hb. unfold _cleanup.
  destruct (ds_query sf (datastore st) PROVIDER_KEY_PREFIX) as [entries|e];
    [|exact Hb].
  match goal with |- context [if ?b then _ else _] => destruct b end.
  - destruct (ds_commit cf _ _); [|exact Hb].
    unfold cache_bounded. simpl. now apply fold_reconcile_bounded.
  - unfold cache_bounded. simpl. now apply fold_reconcile_bounded.
Qed.

Lemma run_op_bounded st o : cache_bounded st -> cache_bounded (run_op st o).
Proof.
  destruct o; simpl; auto using addProvider_bounded, getProviders_bounded,
    cleanup_bounded.
Qed.

Lemma run_ops_bounded ops st :
  cache_bounded st -> cache_bounded (run_ops st ops).
Proof.
  unfold run_ops. revert st. induction ops as [|o ops IH]; intros st Hb;
    simpl; [exact Hb|]. apply IH. now apply run_op_bounded.
Qed.

(** Over the cache that the specification describes: after every sequence
    of operations on a new registry, and so after every prefix of one, the
    cache holds at most [cacheSize] entries. *)
Lemma cache_bound (store : gmap string (list Z)) (ops : list op) (n : nat) :
  (length (cache (run_ops (init store) (firstn n ops))) <= cacheSize)%nat.
Proof.
  apply (run_ops_bounded (firstn n ops) (init store)).
  unfold cache_bounded. simpl. lia.
Qed.

(** The maps: no key twice. *)

Local Abbreviation nodupP :=
  (fun m : list (string * Date) => List.NoDup (map_keys m)).

Lemma load_entries_nodup entries providers m :
  List.NoDup (map_keys providers) ->
  load_entries entries providers = Ok m -> List.NoDup (map_keys m).
Proof.
  revert providers. induction entries as [|[k v] entries IH];
    intros providers Hnd; simpl.
  - now intros [= <-].
  - destruct (parseProviderKey k) as [[ct pt]|e]; simpl; [|discriminate].
    destruct (readTime v) as [d|e]; simpl; [|discriminate].
    apply IH. now apply map_set_nodup.
Qed.

Lemma loadProviders_nodup sf store cid m :
  loadProviders sf store cid = Ok m -> List.NoDup (map_keys m).
Proof.
  unfold loadProviders. destruct (ds_query sf store _) as [entries|e];
    simpl; [|discriminate].
  apply load_entries_nodup. constructor.
Qed.

Lemma getProvidersMap_nodup sf cid st :
  maps_nodup st ->
  maps_nodup (snd (_getProvidersMap sf cid st))
  /\ forall m, fst (_getProvidersMap sf cid st) = Ok m ->
               List.NoDup (map_keys m).
Proof.
  unfold maps_nodup, _getProvidersMap. intros Hnd.
  pose proof (cache_all_get nodupP (makeProviderKey (inl cid)) _ Hnd) as Hg.
  pose proof (lru_get_peek (makeProviderKey (inl cid)) (cache st)) as Hp.
  destruct (lru_get _ (cache st)) as [[provs|] c]; simpl in *.
  - split; [exact Hg|]. intros m [= <-].
    exact (cache_all_peek nodupP _ _ _ Hnd (eq_sym Hp)).
  - destruct (loadProviders sf (datastore st) cid) as [provs|e] eqn:E;
      simpl; [|split; [exact Hg|discriminate]].
    apply loadProviders_nodup in E. split.
    + now apply (cache_all_set nodupP).
    + now intros m [= <-].
Qed.

Lemma addProvider_nodup sf pf cid p now st :
  maps_nodup st -> maps_nodup (snd (addProvider sf pf cid p now st)).
Proof.
  intros Hnd. unfold addProvider.
  destruct (getProvidersMap_nodup sf cid st Hnd) as [H1 H2].
  destruct (_getProvidersMap sf cid st) as [[provs|e] st1]; simpl in *;
    [|exact H1].
  assert (Hset : maps_nodup
            {| datastore := datastore st1;
               cache := lru_set cacheSize (makeProviderKey (inl cid))
                          (map_set (peerText p) (Date_ms now) provs)
                          (cache st1) |}).
  { unfold maps_nodup. simpl. apply (cache_all_set nodupP); [|exact H1].
    apply map_set_nodup. now apply H2. }
  destruct (writeProviderEntry pf (datastore st1) cid p (Date_ms now));
    exact Hset.
Qed.

Lemma getProviders_nodup sf cid st :
  maps_nodup st -> maps_nodup (snd (getProviders sf cid st)).
Proof.
  intros Hnd. unfold getProviders.
  destruct (getProvidersMap_nodup sf cid st Hnd) as [H1 _].
  now destruct (_getProvidersMap sf cid st) as [[provs|e] st1].
Qed.

Lemma fold_delete_nodup peers (m : list (string * Date)) :
  List.NoDup (map_keys m) ->
  List.NoDup (map_keys (fold_left (fun m peerId => map_delete peerId m)
                          peers m)).
Proof.
  revert m. induction peers as [|x peers IH]; intros m Hnd; simpl;
    [exact Hnd|]. apply IH. now apply map_delete_nodup.
Qed.

Lemma reconcile_nodup c del :
  cache_all nodupP c ->
  cache_all nodupP (reconcile c del).
Proof.
  intros Hnd. destruct del as [ct peers]. unfold reconcile.
  pose proof (cache_all_get nodupP (makeProviderKey (inr ct)) _ Hnd) as Hg.
  pose proof (lru_get_peek (makeProviderKey (inr ct)) c) as Hp.
  destruct (lru_get _ c) as [[provs|] c1]; simpl in *; [|exact Hg].
  destruct (map_size _ =? 0)%nat.
  - now apply (cache_all_remove nodupP).
  - apply (cache_all_set nodupP); [|exact Hg]. apply fold_delete_nodup.
    exact (cache_all_peek nodupP _ _ _ Hnd (eq_sym Hp)).
Qed.

Lemma cleanup_nodup sf cf clock st :
  maps_nodup st -> maps_nodup (snd (_cleanup sf cf clock st)).
Proof.
  intros Hnd. unfold _cleanup.
  destruct (ds_query sf (datastore st) PROVIDER_KEY_PREFIX) as [entries|e];
    [|exact Hnd].
  assert (Hfold : forall dels c,
             cache_all nodupP c ->
             cache_all nodupP
               (fold_left reconcile dels c)).
  { induction dels as [|del dels IH]; intros c Hc; simpl; [exact Hc|].
    apply IH. now apply reconcile_nodup. }
  match goal with |- context [if ?b then _ else _] => destruct b end.
  - destruct (ds_commit cf _ _); [|exact Hnd].
    unfold maps_nodup. simpl. now apply Hfold.
  - unfold maps_nodup. simpl. now apply Hfold.
Qed.

Lemma run_ops_nodup ops st : maps_nodup st -> maps_nodup (run_ops st ops).
Proof.
  unfold run_ops. revert st. induction ops as [|o ops IH]; intros st Hnd;
    simpl; [exact Hnd|]. apply IH.
  destruct o; simpl; auto using addProvider_nodup, getProviders_nodup,
    cleanup_nodup.
Qed.

End CacheInvariants.

(** ** Keys under a prefix *)

Lemma startsWith_app (pre x : string) : startsWith (pre +:+ x) pre = true.
Proof.
  induction pre as [|a pre IH]; [reflexivity|].
  rewrite append_cons. simpl. now rewrite Ascii.eqb_refl.
Qed.

Lemma startsWith_app_cancel (pre x y : string) :
  startsWith (pre +:+ x) (pre +:+ y) = startsWith x y.
Proof.
  induction pre as [|a pre IH]; [reflexivity|].
  rewrite !append_cons. simpl. now rewrite Ascii.eqb_refl.
Qed.

Lemma startsWith_app_l (s a b : string) :
  startsWith s (a +:+ b) = true -> startsWith s a = true.
Proof.
  revert s. induction a as [|x a IH]; intros s; [reflexivity|].
  rewrite append_cons. destruct s as [|y s]; simpl; [discriminate|].
  intros Hs. apply andb_true_iff in Hs as [Hxy Hs].
  rewrite Hxy. simpl. now apply IH.
Qed.

Lemma startsWith_before_sep (sep : ascii) (c1 c2 rest : string) :
  has_char sep c1 = false ->
  startsWith (c2 +:+ String sep rest) c1 = true -> startsWith c2 c1 = true.
Proof.
  revert c2. induction c1 as [|a c1 IH]; intros c2 Hc; [reflexivity|].
  simpl in Hc. apply orb_false_iff in Hc as [Ha Hc1].
  destruct c2 as [|b c2].
  - rewrite append_nil. simpl. rewrite Ha. discriminate.
  - rewrite append_cons. simpl. intros Hs.
    apply andb_true_iff in Hs as [Hab Hs]. rewrite Hab. simpl. now apply IH.
Qed.

Lemma sep_app_inj (sep : ascii) (a b x y : string) :
  has_char sep a = false -> has_char sep b = false ->
  a +:+ String sep x = b +:+ String sep y -> a = b /\ x = y.
Proof.
  revert b. induction a as [|c a IH]; intros b Ha Hb Heq.
  - destruct b as [|d b].
    + rewrite !append_nil in Heq. now injection Heq.
    + rewrite append_nil, append_cons in Heq. injection Heq as <- _.
      simpl in Hb. now rewrite Ascii.eqb_refl in Hb.
  - simpl in Ha. apply orb_false_iff in Ha as [Hc Ha].
    destruct b as [|d b].
    + rewrite append_nil, append_cons in Heq. injection Heq as -> _.
      now rewrite Ascii.eqb_refl in Hc.
    + rewrite !append_cons in Heq. injection Heq as -> Heq.
      simpl in Hb. apply orb_false_iff in Hb as [_ Hb].
      destruct (IH b Ha Hb Heq) as [-> ->]. now split.
Qed.

Lemma append_inj_r (a x y : string) : a +:+ x = a +:+ y -> x = y.
Proof.
  induction a as [|c a IH]; [now rewrite !append_nil|].
  rewrite !append_cons. intros [= Heq]. now apply IH.
Qed.

(** ** Association lists without a key twice *)

Section Assoc.
Context {V : Type}.
Implicit Types (l : list (string * V)) (k : string).

Lemma map_get_notin k l : ~ In k (List.map fst l) -> map_get k l = None.
Proof.
  intros Hn. destruct (map_get k l) eqn:E; [|reflexivity].
  exfalso. apply Hn. apply map_get_In in E.
  change k with (fst (k, v)). now apply in_map.
Qed.

Lemma In_map_get k (v : V) l :
  List.NoDup (List.map fst l) -> In (k, v) l -> map_get k l = Some v.
Proof.
  induction l as [|[k1 v1] l IH]; simpl; intros Hnd Hin; [contradiction|].
  inversion Hnd as [|? ? Hnotin Hnd']; subst.
  destruct Hin as [[= -> ->]|Hin].
  - now rewrite String.eqb_refl.
  - destruct (String.eqb_spec k k1) as [->|Hne]; [|now apply IH].
    exfalso. apply Hnotin. change k1 with (fst (k1, v)). now apply in_map.
Qed.

Lemma map_get_filter (f : string * V -> bool) k (v : V) l :
  List.NoDup (List.map fst l) ->
  map_get k (List.filter f l) = Some v <-> In (k, v) l /\ f (k, v) = true.
Proof.
  intros Hnd.
  assert (Hndf : List.NoDup (List.map fst (List.filter f l))).
  { clear k v. induction l as [|e l IH]; simpl; [constructor|].
    inversion Hnd as [|? ? Hnotin Hnd']; subst.
    destruct (f e); simpl; [|now apply IH].
    constructor; [|now apply IH].
    intros Hin. apply Hnotin. apply in_map_iff in Hin as [e' [He' Hin]].
    apply List.filter_In in Hin as [Hin _]. rewrite <- He'.
    now apply in_map. }
  split.
  - intros Hg. apply map_get_In in Hg. now apply List.filter_In in Hg.
  - intros Hin. apply In_map_get; [exact Hndf|]. now apply List.filter_In.
Qed.

Lemma filter_key_singleton k (v : V) l :
  List.NoDup (List.map fst l) -> In (k, v) l ->
  List.filter (fun e => String.eqb (fst e) k) l = [(k, v)].
Proof.
  induction l as [|[k1 v1] l IH]; simpl; intros Hnd Hin; [contradiction|].
  inversion Hnd as [|? ? Hnotin Hnd']; subst.
  destruct Hin as [[= -> ->]|Hin].
  - rewrite String.eqb_refl. f_equal.
    clear IH Hnd. induction l as [|[k2 v2] l IH]; simpl; [reflexivity|].
    simpl in Hnotin. destruct (String.eqb_spec k2 k) as [->|Hne].
    + exfalso. apply Hnotin. now left.
    + apply IH. tauto. now inversion Hnd'.
  - destruct (String.eqb_spec k1 k) as [->|Hne]; [|now apply IH].
    exfalso. apply Hnotin. change k with (fst (k, v)). now apply in_map.
Qed.

End Assoc.

(** ** The datastore: scans, puts and deletes *)

Section StoreFacts.
Implicit Types (store : gmap string (list Z)) (k pre : string).

Lemma store_entries_nodup store :
  List.NoDup (List.map fst (map_to_list store)).
Proof. apply NoDup_ListNoDup. apply (NoDup_fst_map_to_list store). Qed.

Lemma store_entries_In store k (v : list Z) :
  In (k, v) (map_to_list store) <-> store !! k = Some v.
Proof. rewrite <- list_elem_of_In. apply elem_of_map_to_list. Qed.

(** What a scan under a prefix finds at a key. *)
Lemma scan_lookup store pre k :
  map_get k (entries_under store pre)
  = if startsWith k pre then store !! k else None.
Proof.
  unfold entries_under.
  pose proof (store_entries_nodup store) as Hnd.
  destruct (map_get k (List.filter _ (map_to_list store))) as [v|] eqn:E.
  - apply (map_get_filter _ k v _ Hnd) in E as [Hin Hpre]. simpl in Hpre.
    rewrite Hpre. symmetry. now apply store_entries_In.
  - destruct (startsWith k pre) eqn:Hpre; [|reflexivity].
    destruct (store !! k) as [v|] eqn:Hl; [|reflexivity].
    assert (Hg : map_get k (List.filter
                    (fun e => startsWith (fst e) pre) (map_to_list store))
                 = Some v).
    { apply (map_get_filter _ k v _ Hnd). split; [|exact Hpre].
      now apply store_entries_In. }
    congruence.
Qed.

Lemma scan_In store pre k (v : list Z) :
  In (k, v) (entries_under store pre)
  <-> store !! k = Some v /\ startsWith k pre = true.
Proof.
  unfold entries_under. rewrite List.filter_In, store_entries_In.
  reflexivity.
Qed.

Lemma scan_nodup store pre :
  List.NoDup (List.map fst (entries_under store pre)).
Proof.
  unfold entries_under.
  pose proof (store_entries_nodup store) as Hnd.
  induction (map_to_list store) as [|e l IH]; simpl; [constructor|].
  inversion Hnd as [|? ? Hnotin Hnd']; subst.
  destruct (startsWith (fst e) pre); simpl; [|now apply IH].
  constructor; [|now apply IH].
  intros Hin. apply Hnotin. apply in_map_iff in Hin as [e' [He' Hin]].
  apply List.filter_In in Hin as [Hin _]. rewrite <- He'. now apply in_map.
Qed.

(** What a committed batch of deletes leaves at a key. *)
Lemma commit_lookup store (batch : list string) k :
  fold_right (fun k s => delete k s) store batch !! k
  = if List.existsb (String.eqb k) batch then None else store !! k.
Proof.
  induction batch as [|k1 batch IH]; simpl; [reflexivity|].
  destruct (String.eqb_spec k k1) as [->|Hne]; simpl.
  - apply lookup_delete_eq.
  - rewrite lookup_delete_ne by congruence. exact IH.
Qed.

End StoreFacts.

(** ** The records of a cid in the datastore *)

Section Records.
Context `{Codec} `{Config} `{!CodecLaws}.
Hypothesis Hprefix : prefix_ok.
Implicit Types (store : gmap string (list Z)) (st : Providers).
Implicit Types (c cid : CID) (p : PeerId) (k s : string).

Lemma makeProviderKey_text c :
  makeProviderKey (inr (cidText c)) = makeProviderKey (inl c).
Proof. reflexivity. Qed.

Lemma recordKey_text c p :
  recordKey c p
  = PROVIDER_KEY_PREFIX +:+ "/" +:+ cidText c +:+ "/" +:+ peerText p.
Proof. unfold recordKey, makeProviderKey. now rewrite !string_app_assoc. Qed.

Lemma parse_recordKey c p :
  parseProviderKey (recordKey c p) = Ok (cidText c, peerText p).
Proof.
  rewrite recordKey_text.
  apply parse_text_key; [exact Hprefix|apply cidText_no_slash|
                          apply peerText_no_slash].
Qed.

Lemma recordKey_under_prefix c p :
  startsWith (recordKey c p) PROVIDER_KEY_PREFIX = true.
Proof. rewrite recordKey_text. apply startsWith_app. Qed.

Lemma recordKey_under_cid c p :
  startsWith (recordKey c p) (makeProviderKey (inl c)) = true.
Proof. unfold recordKey. apply startsWith_app. Qed.

Lemma under_cid_under_prefix k c :
  startsWith k (makeProviderKey (inl c)) = true ->
  startsWith k PROVIDER_KEY_PREFIX = true.
Proof. unfold makeProviderKey. apply startsWith_app_l. Qed.

(** A record key lies under the prefix of the cids with its cid text
    only. *)
Lemma recordKey_under_cid_inv c c' p' :
  startsWith (recordKey c' p') (makeProviderKey (inl c)) = true ->
  cidText c = cidText c'.
Proof.
  rewrite recordKey_text. unfold makeProviderKey.
  rewrite startsWith_app_cancel.
  change ("/" +:+ cidText c' +:+ "/" +:+ peerText p')
    with ("/" +:+ (cidText c' +:+ "/" +:+ peerText p')).
  rewrite (startsWith_app_cancel "/").
  intros Hs. apply cidText_prefix_free.
  apply (startsWith_before_sep slash _ _ (peerText p'));
    [apply cidText_no_slash|exact Hs].
Qed.

Lemma key_text_inj (ct1 ct2 s1 s2 : string) :
  has_char slash ct1 = false -> has_char slash ct2 = false ->
  PROVIDER_KEY_PREFIX +:+ "/" +:+ ct1 +:+ "/" +:+ s1
  = PROVIDER_KEY_PREFIX +:+ "/" +:+ ct2 +:+ "/" +:+ s2 ->
  ct1 = ct2 /\ s1 = s2.
Proof.
  intros Hct1 Hct2 Heq. apply append_inj_r in Heq.
  apply (append_inj_r "/") in Heq.
  exact (sep_app_inj slash ct1 ct2 s1 s2 Hct1 Hct2 Heq).
Qed.

Lemma cid_key_eq_recordKey c s c' p' :
  makeProviderKey (inl c) +:+ "/" +:+ s = recordKey c' p' ->
  cidText c = cidText c' /\ s = peerText p'.
Proof.
  rewrite recordKey_text. unfold makeProviderKey.
  rewrite !string_app_assoc.
  apply key_text_inj; apply cidText_no_slash.
Qed.

Lemma makeProviderKey_cid_eq c c' :
  cidText c = cidText c' ->
  makeProviderKey (inl c) = makeProviderKey (inl c').
Proof. unfold makeProviderKey. now intros ->. Qed.

Lemma makeProviderKey_inj (ct1 ct2 : string) :
  makeProviderKey (inr ct1) = makeProviderKey (inr ct2) -> ct1 = ct2.
Proof.
  unfold makeProviderKey. intros Heq. apply append_inj_r in Heq.
  now apply (append_inj_r "/") in Heq.
Qed.

(** In a well-formed store the entries under a cid that the parser
    accepts are the records of that cid. *)
Lemma wf_entry_under_cid store k (v : list Z) c r :
  store_wf store -> store !! k = Some v ->
  startsWith k (makeProviderKey (inl c)) = true ->
  parseProviderKey k = Ok r ->
  exists p, k = makeProviderKey (inl c) +:+ "/" +:+ peerText p
            /\ r = (cidText c, peerText p).
Proof.
  intros Hwf Hl Hs Hr.
  destruct (Hwf k v r Hl (under_cid_under_prefix k c Hs) Hr)
    as [c' [p' ->]].
  rewrite parse_recordKey in Hr. injection Hr as <-.
  apply recordKey_under_cid_inv in Hs. exists p'. split.
  - unfold recordKey. now rewrite (makeProviderKey_cid_eq c c').
  - now rewrite Hs.
Qed.

(** The map that the loop of [loadProviders] builds, key by key. *)
Lemma load_entries_get (K : string) entries :
  forall providers m,
    List.NoDup (List.map fst entries) ->
    (forall k v r, In (k, v) entries -> parseProviderKey k = Ok r ->
                   k = K +:+ "/" +:+ snd r) ->
    load_entries entries providers = Ok m ->
    forall s, map_get s m
              = match map_get (K +:+ "/" +:+ s) entries with
                | Some v => match readTime v with
                            | Ok d => Some d
                            | Err _ => None
                            end
                | None => map_get s providers
                end.
Proof.
  induction entries as [|[k v] entries IH]; intros providers m Hnd Hcan;
    simpl.
  - now intros [= <-].
  - destruct (parseProviderKey k) as [[ct pt]|e] eqn:Hp; simpl;
      [|discriminate].
    destruct (readTime v) as [d|e] eqn:Hd; simpl; [|discriminate].
    intros Hload s.
    inversion Hnd as [|? ? Hnotin Hnd']; subst.
    rewrite (IH _ _ Hnd' (fun k' v' r Hin => Hcan k' v' r (or_intror Hin))
               Hload s).
    pose proof (Hcan k v (ct, pt) (or_introl eq_refl) Hp) as Hk.
    simpl in Hk.
    destruct (String.eqb_spec (K +:+ "/" +:+ s) k) as [Heq|Hne].
    + rewrite Heq, (map_get_notin k entries Hnotin).
      rewrite Hk in Heq. apply append_inj_r in Heq.
      apply (append_inj_r "/") in Heq. subst s.
      now rewrite map_get_set_eq, Hd.
    + destruct (map_get (K +:+ "/" +:+ s) entries); [reflexivity|].
      apply map_get_set_ne. intros ->. apply Hne. now rewrite Hk.
Qed.

Lemma load_entries_readable entries :
  forall providers m,
    load_entries entries providers = Ok m ->
    forall k v, In (k, v) entries ->
                (exists r, parseProviderKey k = Ok r)
                /\ (exists d, readTime v = Ok d).
Proof.
  induction entries as [|[k v] entries IH]; intros providers m; simpl;
    [intros _ ? ? []|].
  destruct (parseProviderKey k) as [r|e] eqn:Hp; simpl; [|discriminate].
  destruct (readTime v) as [d|e] eqn:Hd; simpl; [|discriminate].
  intros Hload k' v' [[= <- <-]|Hin]; [eauto|].
  exact (IH _ _ Hload k' v' Hin).
Qed.

Lemma load_entries_ok entries :
  (forall k v, In (k, v) entries ->
               (exists r, parseProviderKey k = Ok r)
               /\ (exists d, readTime v = Ok d)) ->
  forall providers, exists m, load_entries entries providers = Ok m.
Proof.
  induction entries as [|[k v] entries IH]; intros Hall providers; simpl;
    [eauto|].
  destruct (Hall k v (or_introl eq_refl)) as [[r ->] [d ->]]. simpl.
  apply IH. intros k' v' Hin. apply Hall. now right.
Qed.

Lemma loadProviders_loadable store c m :
  loadProviders false store c = Ok m -> loadable store c.
Proof.
  unfold loadProviders, ds_query. simpl. intros Hload k v Hl Hs.
  apply (load_entries_readable _ _ _ Hload k v).
  apply scan_In. now split.
Qed.

Lemma loadable_loadProviders store c :
  loadable store c -> exists m, loadProviders false store c = Ok m.
Proof.
  intros Hld. unfold loadProviders, ds_query. simpl.
  apply load_entries_ok. intros k v Hin.
  apply scan_In in Hin as [Hl Hs]. exact (Hld k v Hl Hs).
Qed.

(** What [loadProviders] returns is the records of the cid. *)
Lemma loadProviders_backend store c m :
  store_wf store -> loadProviders false store c = Ok m ->
  forall s, map_get s m = backend_time store c s.
Proof.
  intros Hwf Hload s. unfold loadProviders, ds_query in Hload.
  simpl in Hload.
  rewrite (load_entries_get (makeProviderKey (inl c)) _ [] m
             (scan_nodup store (makeProviderKey (inl c))));
    [| |exact Hload].
  - rewrite scan_lookup. unfold backend_time.
    change (makeProviderKey (inl c) +:+ "/" +:+ s)
      with (makeProviderKey (inl c) +:+ ("/" +:+ s)).
    rewrite startsWith_app.
    now destruct (store !! (makeProviderKey (inl c) +:+ ("/" +:+ s))).
  - intros k v r Hin Hr. apply scan_In in Hin as [Hl Hs].
    destruct (wf_entry_under_cid store k v c r Hwf Hl Hs Hr)
      as [p [-> ->]]. reflexivity.
Qed.

(** The peers of the records of a cid are texts of peer ids. *)
Lemma backend_time_peer store c s :
  store_wf store -> loadable store c ->
  backend_time store c s <> None -> exists p, s = peerText p.
Proof.
  intros Hwf Hld. unfold backend_time.
  destruct (store !! (makeProviderKey (inl c) +:+ "/" +:+ s)) as [v|] eqn:Hl;
    [|congruence].
  intros _.
  assert (Hs : startsWith (makeProviderKey (inl c) +:+ "/" +:+ s)
                 (makeProviderKey (inl c)) = true) by apply startsWith_app.
  destruct (Hld _ v Hl Hs) as [[r Hr] _].
  destruct (wf_entry_under_cid store _ v c r Hwf Hl Hs Hr) as [p [Hk _]].
  apply append_inj_r in Hk. apply (append_inj_r "/") in Hk. eauto.
Qed.

(** The effect of the [put] of [writeProviderEntry]. *)

Lemma put_store_wf store c p (v : list Z) :
  store_wf store -> store_wf (<[recordKey c p := v]> store).
Proof.
  intros Hwf k v' r Hl Hs Hr.
  destruct (decide (recordKey c p = k)) as [<-|Hne]; [eauto|].
  rewrite lookup_insert_ne in Hl by exact Hne. eauto.
Qed.

Lemma put_loadable store c p now c0 :
  0 <= now <= maxTime -> loadable store c0 ->
  loadable (<[recordKey c p := encodeTime (Date_ms now)]> store) c0.
Proof.
  intros Hnow Hld k v Hl Hs.
  destruct (decide (recordKey c p = k)) as [<-|Hne].
  - rewrite lookup_insert_eq in Hl. injection Hl as <-. split.
    + rewrite parse_recordKey. eauto.
    + rewrite readTime_encodeTime by exact Hnow. eauto.
  - rewrite lookup_insert_ne in Hl by exact Hne. eauto.
Qed.

Lemma put_backend_time store c p now c0 s :
  0 <= now <= maxTime ->
  backend_time (<[recordKey c p := encodeTime (Date_ms now)]> store) c0 s
  = if String.eqb (cidText c0) (cidText c) && String.eqb s (peerText p)
    then Some (Date_ms now) else backend_time store c0 s.
Proof.
  intros Hnow. unfold backend_time.
  destruct (decide (recordKey c p
                    = makeProviderKey (inl c0) +:+ "/" +:+ s)) as [Heq|Hne].
  - rewrite <- Heq, lookup_insert_eq.
    rewrite readTime_encodeTime by exact Hnow.
    symmetry in Heq. apply cid_key_eq_recordKey in Heq as [Hc Hs].
    now rewrite Hc, Hs, !String.eqb_refl.
  - rewrite lookup_insert_ne by exact Hne.
    destruct (String.eqb_spec (cidText c0) (cidText c)) as [Hc|]; simpl;
      [|reflexivity].
    destruct (String.eqb_spec s (peerText p)) as [Hs|]; [|reflexivity].
    exfalso. apply Hne. unfold recordKey.
    now rewrite (makeProviderKey_cid_eq c0 c Hc), Hs.
Qed.

End Records.

(** ** The cache against the datastore: [addProvider] and [getProviders] *)

Section Coherence.
Context `{Codec} `{Config} `{!CodecLaws}.
Hypothesis Hprefix : prefix_ok.
Implicit Types (store : gmap string (list Z)) (st : Providers).
Implicit Types (c cid : CID) (p : PeerId) (k s : string).
Implicit Types (Q : gmap string (list Z) -> CID -> list (string * Date) -> Prop).

Lemma loadable_by_key store c c' :
  makeProviderKey (inl c) = makeProviderKey (inl c') ->
  loadable store c -> loadable store c'.
Proof. unfold loadable. now intros ->. Qed.

Lemma backend_time_by_key store c c' s :
  makeProviderKey (inl c) = makeProviderKey (inl c') ->
  backend_time store c s = backend_time store c' s.
Proof. unfold backend_time. now intros ->. Qed.

Lemma snapshot_by_key : by_key snapshot.
Proof.
  intros store c c' m Hk [Hld Hm]. split.
  - exact (loadable_by_key store c c' Hk Hld).
  - intros s. rewrite Hm. now apply backend_time_by_key.
Qed.

Lemma sound_map_by_key : by_key sound_map.
Proof.
  intros store c c' m Hk [Hld Hm]. split; [|exact Hm].
  exact (loadable_by_key store c c' Hk Hld).
Qed.

Lemma loadProviders_scan_ok sf store c m :
  loadProviders sf store c = Ok m -> loadProviders false store c = Ok m.
Proof. destruct sf; [discriminate|trivial]. Qed.

Lemma loadProviders_snapshot store c m :
  store_wf store -> loadProviders false store c = Ok m -> snapshot store c m.
Proof.
  intros Hwf Hload. split.
  - exact (loadProviders_loadable store c m Hload).
  - exact (loadProviders_backend Hprefix store c m Hwf Hload).
Qed.

Lemma snapshot_sound store c m :
  store_wf store -> snapshot store c m -> sound_map store c m.
Proof.
  intros Hwf [Hld Hm]. split; [exact Hld|].
  intros s Hs. apply map_get_keys in Hs. rewrite Hm in Hs.
  exact (backend_time_peer Hprefix store c s Hwf Hld Hs).
Qed.

(** [_getProvidersMap] keeps a property of the cached maps that every
    loaded map has, and returns a map with it. *)
Lemma getProvidersMap_rel Q sf c st :
  by_key Q ->
  (forall m, loadProviders false (datastore st) c = Ok m ->
             Q (datastore st) c m) ->
  cache_rel Q st ->
  cache_rel Q (snd (_getProvidersMap sf c st))
  /\ forall m, fst (_getProvidersMap sf c st) = Ok m -> Q (datastore st) c m.
Proof.
  intros HQ Hload Hrel. unfold _getProvidersMap.
  pose proof (lru_get_peek (makeProviderKey (inl c)) (cache st)) as Hp.
  pose proof (fun k => lru_peek_get k (makeProviderKey (inl c)) (cache st))
    as Hk.
  destruct (lru_get _ (cache st)) as [[provs|] c1]; simpl in *.
  - split.
    + intros c0 m0. unfold cached. simpl. rewrite Hk. apply Hrel.
    + intros m [= <-]. apply Hrel. unfold cached. now rewrite <- Hp.
  - destruct (loadProviders sf (datastore st) c) as [provs|e] eqn:E; simpl.
    + apply loadProviders_scan_ok in E. split; [|now intros m [= <-]; auto].
      intros c0 m0. unfold cached. simpl. intros Hc0.
      apply lru_peek_set in Hc0 as [[Hkey ->]|[_ Hc0]].
      * symmetry in Hkey. exact (HQ _ c c0 _ Hkey (Hload _ E)).
      * rewrite Hk in Hc0. now apply Hrel.
    + split; [|discriminate].
      intros c0 m0. unfold cached. simpl. rewrite Hk. apply Hrel.
Qed.

(** The cached maps after the [cache.set] of [addProvider]. *)
Lemma cached_after_set st1 c provs' store' c0 m0 :
  cached {| datastore := store';
            cache := lru_set cacheSize (makeProviderKey (inl c)) provs'
                       (cache st1) |} c0 = Some m0 ->
  (makeProviderKey (inl c0) = makeProviderKey (inl c) /\ m0 = provs')
  \/ (makeProviderKey (inl c0) <> makeProviderKey (inl c)
      /\ cached st1 c0 = Some m0).
Proof. unfold cached. simpl. apply lru_peek_set. Qed.

Lemma getProvidersMap_store_wf sf c st :
  store_wf (datastore st) ->
  store_wf (datastore (snd (_getProvidersMap sf c st))).
Proof. now rewrite getProvidersMap_datastore. Qed.

Lemma addProvider_store_wf sf pf c p now st :
  store_wf (datastore st) ->
  store_wf (datastore (snd (addProvider sf pf c p now st))).
Proof.
  intros Hwf. unfold addProvider.
  pose proof (getProvidersMap_datastore sf c st) as Hd.
  destruct (_getProvidersMap sf c st) as [[provs|e] st1]; simpl in *;
    [|now rewrite Hd].
  unfold writeProviderEntry, ds_put. destruct pf; simpl;
    [now rewrite Hd|].
  rewrite Hd. now apply put_store_wf.
Qed.

Lemma getProviders_datastore sf c st :
  datastore (snd (getProviders sf c st)) = datastore st.
Proof.
  unfold getProviders.
  pose proof (getProvidersMap_datastore sf c st) as Hd.
  now destruct (_getProvidersMap sf c st) as [[provs|e] st1].
Qed.

Lemma getProviders_rel Q sf c st :
  by_key Q ->
  (forall m, loadProviders false (datastore st) c = Ok m ->
             Q (datastore st) c m) ->
  cache_rel Q st -> cache_rel Q (snd (getProviders sf c st)).
Proof.
  intros HQ Hload Hrel. unfold getProviders.
  destruct (getProvidersMap_rel Q sf c st HQ Hload Hrel) as [Hr _].
  pose proof (getProvidersMap_datastore sf c st) as Hd.
  destruct (_getProvidersMap sf c st) as [[provs|e] st1]; exact Hr.
Qed.

(** [addProvider] whose [put] goes through keeps the cache coherent. *)
Lemma addProvider_coherent sf c p now st :
  0 <= now <= maxTime -> store_wf (datastore st) -> coherent st ->
  coherent (snd (addProvider sf false c p now st)).
Proof.
  intros Hnow Hwf Hco. unfold addProvider.
  destruct (getProvidersMap_rel snapshot sf c st snapshot_by_key
              (fun m => loadProviders_snapshot _ c m Hwf) Hco) as [Hr Hm].
  pose proof (getProvidersMap_datastore sf c st) as Hd.
  destruct (_getProvidersMap sf c st) as [[provs|e] st1]; simpl in *;
    [|exact Hr].
  specialize (Hm provs eq_refl). rewrite <- Hd in Hm.
  unfold writeProviderEntry, ds_put. simpl.
  intros c0 m0 Hc0. simpl.
  apply cached_after_set in Hc0 as [[Hkey ->]|[Hkey Hc0]].
  - apply (snapshot_by_key _ c c0 _ (eq_sym Hkey)).
    destruct Hm as [Hld Hm]. split.
    + now apply put_loadable.
    + intros s. fold (recordKey c p).
      rewrite put_backend_time by exact Hnow.
      rewrite String.eqb_refl. simpl.
      destruct (String.eqb_spec s (peerText p)) as [->|Hne].
      * apply map_get_set_eq.
      * rewrite map_get_set_ne by exact Hne. apply Hm.
  - destruct (Hr c0 m0 Hc0) as [Hld Hm0]. split.
    + fold (recordKey c p). now apply put_loadable.
    + intros s. fold (recordKey c p).
      rewrite put_backend_time by exact Hnow.
      destruct (String.eqb_spec (cidText c0) (cidText c)) as [Hc|_];
        [|apply Hm0].
      exfalso. apply Hkey. now apply makeProviderKey_cid_eq.
Qed.

(** Whatever fails, [addProvider] keeps the cached maps sound. *)
Lemma addProvider_sound sf pf c p now st :
  0 <= now <= maxTime -> store_wf (datastore st) -> cache_sound st ->
  cache_sound (snd (addProvider sf pf c p now st)).
Proof.
  intros Hnow Hwf Hso. unfold addProvider.
  destruct (getProvidersMap_rel sound_map sf c st sound_map_by_key
              (fun m Hl => snapshot_sound _ c m Hwf
                             (loadProviders_snapshot _ c m Hwf Hl)) Hso)
    as [Hr Hm].
  pose proof (getProvidersMap_datastore sf c st) as Hd.
  destruct (_getProvidersMap sf c st) as [[provs|e] st1]; simpl in *;
    [|exact Hr].
  specialize (Hm provs eq_refl). rewrite <- Hd in Hm.
  assert (Hkeys : forall s,
             In s (map_keys (map_set (peerText p) (Date_ms now) provs)) ->
             exists p', s = peerText p').
  { intros s Hs. apply map_keys_set in Hs as [->|Hs]; [eauto|].
    now apply Hm. }
  unfold writeProviderEntry, ds_put. destruct pf; simpl.
  - intros c0 m0 Hc0. simpl.
    apply cached_after_set in Hc0 as [[Hkey ->]|[Hkey Hc0]].
    + apply (sound_map_by_key _ c c0 _ (eq_sym Hkey)).
      split; [apply Hm|exact Hkeys].
    + exact (Hr c0 m0 Hc0).
  - intros c0 m0 Hc0. simpl. fold (recordKey c p).
    apply cached_after_set in Hc0 as [[Hkey ->]|[Hkey Hc0]].
    + apply (sound_map_by_key _ c c0 _ (eq_sym Hkey)).
      split; [|exact Hkeys]. apply put_loadable; [exact Hprefix|exact Hnow|].
      apply Hm.
    + destruct (Hr c0 m0 Hc0) as [Hld Hm0]. split; [|exact Hm0].
      now apply put_loadable.
Qed.

Lemma getProviders_coherent sf c st :
  store_wf (datastore st) -> coherent st ->
  coherent (snd (getProviders sf c st)).
Proof.
  intros Hwf Hco.
  pose proof (getProviders_rel snapshot sf c st snapshot_by_key
                (fun m => loadProviders_snapshot _ c m Hwf) Hco) as Hr.
  intros c0 m0 Hc0. specialize (Hr c0 m0 Hc0).
  rewrite getProviders_datastore in Hr |- *. exact Hr.
Qed.

Lemma getProviders_sound sf c st :
  store_wf (datastore st) -> cache_sound st ->
  cache_sound (snd (getProviders sf c st)).
Proof.
  intros Hwf Hso.
  pose proof (getProviders_rel sound_map sf c st sound_map_by_key
                (fun m Hl => snapshot_sound _ c m Hwf
                               (loadProviders_snapshot _ c m Hwf Hl)) Hso)
    as Hr.
  intros c0 m0 Hc0. specialize (Hr c0 m0 Hc0).
  rewrite getProviders_datastore in Hr |- *. exact Hr.
Qed.

End Coherence.

(** ** The sweep *)

Lemma set_has_add (s x : string) (l : list string) :
  set_has s (set_add x l) = String.eqb s x || set_has s l.
Proof.
  unfold set_add. destruct (set_has x l) eqn:E.
  - destruct (String.eqb_spec s x) as [->|]; [now rewrite E|reflexivity].
  - unfold set_has. rewrite existsb_app. simpl.
    now rewrite orb_false_r, orb_comm.
Qed.

Lemma set_has_In (s : string) (l : list string) :
  set_has s l = true <-> In s l.
Proof.
  unfold set_has. rewrite existsb_exists. split.
  - intros [x [Hin Heq]]. apply String.eqb_eq in Heq. now subst.
  - intros Hin. exists s. split; [exact Hin|apply String.eqb_refl].
Qed.

Lemma NoDup_snoc {A : Type} (l : list A) (x : A) :
  List.NoDup l -> ~ In x l -> List.NoDup (l ++ [x]).
Proof.
  induction l as [|a l IH]; simpl; intros Hnd Hx.
  - constructor; [intros []|constructor].
  - inversion Hnd as [|? ? Hnotin Hnd']; subst. constructor.
    + rewrite in_app_iff. simpl. intros [?|[?|[]]]; [tauto|]. subst. tauto.
    + apply IH; tauto.
Qed.

Lemma fold_delete_get {V : Type} (peers : list string)
  (m : list (string * V)) (s : string) :
  map_get s (fold_left (fun m peerId => map_delete peerId m) peers m)
  = if set_has s peers then None else map_get s m.
Proof.
  revert m. induction peers as [|x peers IH]; intros m; simpl; [reflexivity|].
  rewrite IH, map_get_delete. rewrite (String.eqb_sym s x).
  destruct (set_has s peers), (String.eqb x s); reflexivity.
Qed.

Section Sweep.
Context `{Codec} `{Config}.
Implicit Types (store : gmap string (list Z)) (st : Providers).
Implicit Types (sw : sweep) (k s ct : string).

Lemma line_ok_more clock scanned e line :
  line_ok clock scanned line -> line_ok clock (scanned ++ [e]) line.
Proof.
  intros (v & ct & pt & d & i & Hin & Hrest).
  exists v, ct, pt, d, i. split; [|exact Hrest].
  apply in_or_app. now left.
Qed.

Lemma sweep_inv_start clock : sweep_inv clock [] sweep_start.
Proof.
  split; simpl.
  - intros line [].
  - constructor.
  - intros k v r d [].
  - intros k. split; [intros []|intros (line & [] & _)].
  - intros ct s. split; [discriminate|intros (k & [] & _)].
  - constructor.
Qed.

(** One turn of the scan loop keeps what the locals hold. *)
Lemma sweep_entry_inv clock scanned sw (e : string * list Z) :
  ~ In (fst e) (List.map fst scanned) ->
  sweep_inv clock scanned sw ->
  sweep_inv clock (scanned ++ [e]) (sweep_entry clock sw e).
Proof.
  intros Hfresh [Hlines Hnd Hscan Hbatch Hdel Hdnd].
  destruct e as [k v]. simpl in Hfresh.
  assert (Hnokey : forall line, In line (comparisons sw) ->
                                cmp_key line <> k).
  { intros line Hin Hk. apply Hfresh.
    destruct (Hlines line Hin) as (v' & _ & _ & _ & _ & Hin' & _).
    rewrite Hk in Hin'. change k with (fst (k, v')). now apply in_map. }
  unfold sweep_entry.
  destruct (parseProviderKey k) as [[ct pt]|err] eqn:Hp; simpl.
  2:{ split; simpl; auto.
      - intros line Hin. apply line_ok_more. auto.
      - intros k' v' r d Hin Hr Hd.
        apply in_app_or in Hin as [Hin|[[= <- <-]|[]]]; [eauto|].
        congruence. }
  destruct (readTime v) as [d|err] eqn:Hd; simpl.
  2:{ split; simpl; auto.
      - intros line Hin. apply line_ok_more. auto.
      - intros k' v' r d Hin Hr Hd'.
        apply in_app_or in Hin as [Hin|[[= <- <-]|[]]]; [eauto|].
        congruence. }
  set (now := clock (reads sw)).
  set (expired := match getTime d with
                  | Some t => provideValidity <? now - t
                  | None => false
                  end).
  set (line := {| cmp_key := k; cmp_now := now; cmp_time := getTime d;
                  cmp_expired := expired |}).
  assert (Hline : line_ok clock (scanned ++ [(k, v)]) line).
  { exists v, ct, pt, d, (reads sw). simpl.
    split; [apply in_or_app; right; now left|]. auto. }
  assert (Hlines' : forall l, In l (comparisons sw ++ [line]) ->
                              line_ok clock (scanned ++ [(k, v)]) l).
  { intros l Hin. apply in_app_or in Hin as [Hin|[<-|[]]]; [|exact Hline].
    apply line_ok_more. auto. }
  assert (Hnd' : List.NoDup (List.map cmp_key (comparisons sw ++ [line]))).
  { rewrite map_app. simpl. apply NoDup_snoc; [exact Hnd|].
    intros Hin. apply in_map_iff in Hin as [l [Hk Hin]].
    exact (Hnokey l Hin Hk). }
  assert (Hscan' : forall k' v' r d', In (k', v') (scanned ++ [(k, v)]) ->
             parseProviderKey k' = Ok r -> readTime v' = Ok d' ->
             exists l, In l (comparisons sw ++ [line]) /\ cmp_key l = k').
  { intros k' v' r d' Hin Hr Hd'.
    apply in_app_or in Hin as [Hin|[[= <- <-]|[]]].
    - destruct (Hscan k' v' r d' Hin Hr Hd') as [l [Hl Hk]].
      exists l. split; [apply in_or_app; now left|exact Hk].
    - exists line. split; [apply in_or_app; right; now left|reflexivity]. }
  destruct expired eqn:Hexp; split; simpl; auto.
  - (* the batch, an expired entry *)
    intros k'. rewrite in_app_iff. simpl. split.
    + intros [Hin|[<-|[]]].
      * apply Hbatch in Hin as (l & Hl & Hk & He).
        exists l. split; [apply in_or_app; now left|now split].
      * exists line. split; [apply in_or_app; right; now left|].
        split; reflexivity.
    + intros (l & Hl & Hk & He).
      apply in_app_or in Hl as [Hl|[<-|[]]].
      * left. apply Hbatch. eauto.
      * right. left. exact Hk.
  - (* the deleted peers, an expired entry *)
    intros ct' s. destruct (String.eqb_spec ct' ct) as [->|Hne].
    + rewrite map_get_set_eq. simpl. rewrite set_has_add. split.
      * intros Hs. apply orb_true_iff in Hs as [Hs|Hs].
        -- apply String.eqb_eq in Hs. subst s. exists k.
           split; [apply in_or_app; right; now left|exact Hp].
        -- apply Hdel in Hs as (k' & Hin & Hk').
           exists k'. split; [apply in_or_app; now left|exact Hk'].
      * intros (k' & Hin & Hk'). apply orb_true_iff.
        apply in_app_or in Hin as [Hin|[<-|[]]].
        -- right. apply Hdel. eauto.
        -- left. rewrite Hp in Hk'. injection Hk' as <-.
           apply String.eqb_refl.
    + rewrite map_get_set_ne by exact Hne. rewrite Hdel. split.
      * intros (k' & Hin & Hk').
        exists k'. split; [apply in_or_app; now left|exact Hk'].
      * intros (k' & Hin & Hk').
        apply in_app_or in Hin as [Hin|[<-|[]]]; [eauto|].
        rewrite Hp in Hk'. injection Hk' as <- _. congruence.
  - now apply map_set_nodup.
  - (* the batch, an entry that stays *)
    intros k'. rewrite Hbatch. split.
    + intros (l & Hl & Hk & He).
      exists l. split; [apply in_or_app; now left|now split].
    + intros (l & Hl & Hk & He).
      apply in_app_or in Hl as [Hl|[<-|[]]]; [eauto|].
      simpl in He. congruence.
Qed.

Lemma sweep_fold_inv clock entries :
  forall scanned sw,
    List.NoDup (List.map fst (scanned ++ entries)) ->
    sweep_inv clock scanned sw ->
    sweep_inv clock (scanned ++ entries)
      (fold_left (sweep_entry clock) entries sw).
Proof.
  induction entries as [|e entries IH]; intros scanned sw Hnd Hinv; simpl.
  - now rewrite app_nil_r.
  - replace (scanned ++ e :: entries) with ((scanned ++ [e]) ++ entries)
      in * by (now rewrite <- app_assoc).
    apply IH; [exact Hnd|].
    apply sweep_entry_inv; [|exact Hinv].
    rewrite <- app_assoc in Hnd. simpl in Hnd. rewrite map_app in Hnd.
    simpl in Hnd. apply NoDup_remove_2 in Hnd.
    intros Hin. apply Hnd. apply in_or_app. now left.
Qed.

(** What a sweep that returns has done. *)
Lemma cleanup_returns sf cf clock st sw st' :
  _cleanup sf cf clock st = (Ok sw, st') ->
  sw = fold_left (sweep_entry clock)
         (entries_under (datastore st) PROVIDER_KEY_PREFIX) sweep_start
  /\ cache st' = fold_left reconcile (deleted sw) (cache st)
  /\ (datastore st' = fold_right (fun key m => delete key m) (datastore st)
                        (batch sw)
      \/ (deleted sw = [] /\ datastore st' = datastore st)).
Proof.
  unfold _cleanup, ds_query. destruct sf; [discriminate|].
  set (sw0 := fold_left (sweep_entry clock) _ sweep_start).
  destruct (deleted sw0) as [|del dels] eqn:Hdel; simpl.
  - intros [= <- <-]. simpl. rewrite Hdel. auto.
  - unfold ds_commit. destruct cf; [discriminate|].
    intros [= <- <-]. simpl. rewrite Hdel. auto.
Qed.

Lemma cleanup_sweep_inv sf cf clock st sw st' :
  _cleanup sf cf clock st = (Ok sw, st') ->
  sweep_inv clock (entries_under (datastore st) PROVIDER_KEY_PREFIX) sw.
Proof.
  intros Hc. apply cleanup_returns in Hc as [-> _].
  apply (sweep_fold_inv clock _ [] sweep_start).
  - apply scan_nodup.
  - apply sweep_inv_start.
Qed.

(** The datastore after a sweep that returns. *)
Lemma cleanup_lookup sf cf clock st sw st' k :
  _cleanup sf cf clock st = (Ok sw, st') ->
  datastore st' !! k
  = if List.existsb (String.eqb k) (batch sw) then None
    else datastore st !! k.
Proof.
  intros Hc. pose proof (cleanup_sweep_inv _ _ _ _ _ _ Hc) as Hinv.
  apply cleanup_returns in Hc as (_ & _ & [->|[Hdel ->]]).
  - apply commit_lookup.
  - destruct (List.existsb (String.eqb k) (batch sw)) eqn:E; [|reflexivity].
    exfalso. apply existsb_exists in E as [k' [Hin _]].
    apply (inv_batch _ _ _ Hinv) in Hin as (line & Hl & Hk & He).
    destruct (inv_lines _ _ _ Hinv line Hl)
      as (v & ct & pt & d & i & _ & Hp & _).
    assert (Hs : set_has pt (default [] (map_get ct (deleted sw))) = true).
    { apply (inv_deleted _ _ _ Hinv). exists k'. rewrite <- Hk.
      split; [|exact Hp]. apply (inv_batch _ _ _ Hinv). eauto. }
    rewrite Hdel in Hs. discriminate.
Qed.

(** The cache after the last loop of [_cleanup], key by key. *)
Lemma reconcile_peek (c : list (string * list (string * Date))) ct peers k :
  lru_peek k (reconcile c (ct, peers))
  = if String.eqb k (makeProviderKey (inr ct)) then
      match lru_peek k c with
      | Some m =>
          let m' := fold_left (fun m peerId => map_delete peerId m) peers m in
          if (map_size m' =? 0)%nat then None else Some m'
      | None => None
      end
    else lru_peek k c.
Proof.
  unfold reconcile. set (key := makeProviderKey (inr ct)).
  unfold lru_get. destruct (lru_peek key c) as [provs|] eqn:Hp.
  - pose proof (lru_peek_touch key key provs c Hp) as Hkey.
    destruct (map_size _ =? 0)%nat eqn:Hsz.
    + rewrite lru_peek_remove. rewrite (String.eqb_sym key k).
      destruct (String.eqb_spec k key) as [->|Hne].
      * now rewrite Hp, Hsz.
      * now apply lru_peek_touch.
    + rewrite (lru_peek_set_present k key cacheSize _ provs)
        by (now rewrite Hkey).
      destruct (String.eqb_spec k key) as [->|Hne].
      * now rewrite Hp, Hsz.
      * now apply lru_peek_touch.
  - destruct (String.eqb_spec k key) as [->|Hne]; [now rewrite Hp|].
    reflexivity.
Qed.

Lemma fold_reconcile_peek dels :
  forall (c : list (string * list (string * Date))) ct,
    List.NoDup (map_keys dels) ->
    lru_peek (makeProviderKey (inr ct)) (fold_left reconcile dels c)
    = match map_get ct dels with
      | None => lru_peek (makeProviderKey (inr ct)) c
      | Some peers =>
          match lru_peek (makeProviderKey (inr ct)) c with
          | Some m =>
              let m' := fold_left (fun m peerId => map_delete peerId m)
                          peers m in
              if (map_size m' =? 0)%nat then None else Some m'
          | None => None
          end
      end.
Proof.
  induction dels as [|[ct1 peers] dels IH]; intros c ct Hnd;
    [reflexivity|].
  inversion Hnd as [|? ? Hnotin Hnd']; subst.
  cbn [fold_left map_get].
  rewrite (IH _ _ Hnd'), reconcile_peek.
  destruct (String.eqb_spec ct ct1) as [->|Hne].
  - rewrite String.eqb_refl.
    now rewrite (map_get_notin ct1 dels Hnotin).
  - destruct (String.eqb_spec (makeProviderKey (inr ct))
                (makeProviderKey (inr ct1))) as [Heq|_]; [|reflexivity].
    exfalso. apply Hne. unfold makeProviderKey in Heq.
    apply append_inj_r in Heq. now apply (append_inj_r "/") in Heq.
Qed.

End Sweep.


Section SweepRecords.
Context `{Codec} `{Config} `{!CodecLaws}.
Hypothesis Hprefix : prefix_ok.
Implicit Types (store : gmap string (list Z)) (st : Providers).
Implicit Types (sw : sweep) (k s ct pt : string) (c : CID).

(** A key of a well-formed store that the parser accepts is built from
    its two parts, which are the texts of a cid and of a peer. *)
Lemma wf_key_text store k (v : list Z) ct pt :
  store_wf store -> store !! k = Some v ->
  startsWith k PROVIDER_KEY_PREFIX = true ->
  parseProviderKey k = Ok (ct, pt) ->
  k = makeProviderKey (inr ct) +:+ "/" +:+ pt
  /\ exists c p, ct = cidText c /\ pt = peerText p.
Proof.
  intros Hwf Hl Hs Hp. destruct (Hwf k v _ Hl Hs Hp) as [c [p ->]].
  rewrite (parse_recordKey Hprefix) in Hp. injection Hp as <- <-.
  split; [reflexivity|eauto].
Qed.

Lemma batch_key_scanned clock store sw k :
  sweep_inv clock (entries_under store PROVIDER_KEY_PREFIX) sw ->
  In k (batch sw) ->
  exists v ct pt,
    store !! k = Some v /\ startsWith k PROVIDER_KEY_PREFIX = true
    /\ parseProviderKey k = Ok (ct, pt).
Proof.
  intros Hinv Hin.
  apply (inv_batch _ _ _ Hinv) in Hin as (line & Hl & <- & _).
  destruct (inv_lines _ _ _ Hinv line Hl)
    as (v & ct & pt & d & i & Hin & Hp & _).
  apply scan_In in Hin as [Hlk Hs]. eauto 6.
Qed.

(** The peers that [deleted] holds for a cid are those of the keys in
    the batch. *)
Lemma deleted_iff_batch clock store sw ct pt :
  store_wf store ->
  sweep_inv clock (entries_under store PROVIDER_KEY_PREFIX) sw ->
  has_char slash ct = false ->
  set_has pt (default [] (map_get ct (deleted sw))) = true
  <-> In (makeProviderKey (inr ct) +:+ "/" +:+ pt) (batch sw).
Proof.
  intros Hwf Hinv Hct. rewrite (inv_deleted _ _ _ Hinv). split.
  - intros (k & Hin & Hp).
    destruct (batch_key_scanned _ _ _ _ Hinv Hin)
      as (v & ct' & pt' & Hl & Hs & Hp').
    rewrite Hp in Hp'. injection Hp' as <- <-.
    destruct (wf_key_text store k v ct pt Hwf Hl Hs Hp) as [-> _].
    exact Hin.
  - intros Hin. exists (makeProviderKey (inr ct) +:+ "/" +:+ pt).
    split; [exact Hin|].
    destruct (batch_key_scanned _ _ _ _ Hinv Hin)
      as (v & ct' & pt' & Hl & Hs & Hp').
    destruct (wf_key_text store _ v ct' pt' Hwf Hl Hs Hp')
      as [Hk (c' & p' & Hc' & _)].
    unfold makeProviderKey in Hk. rewrite !string_app_assoc in Hk.
    apply (key_text_inj ct ct' pt pt' Hct) in Hk as [<- <-];
      [exact Hp'|]. rewrite Hc'. apply cidText_no_slash.
Qed.

Lemma cleanup_failed sf cf clock st e st' :
  _cleanup sf cf clock st = (Err e, st') -> st' = st.
Proof.
  unfold _cleanup.
  destruct (ds_query sf (datastore st) PROVIDER_KEY_PREFIX);
    [|now intros [= _ <-]].
  match goal with |- context [if ?b then _ else _] => destruct b end.
  - destruct (ds_commit cf _ _); [discriminate|now intros [= _ <-]].
  - discriminate.
Qed.

Lemma cleanup_lookup_Some sf cf clock st sw st' k (v : list Z) :
  _cleanup sf cf clock st = (Ok sw, st') ->
  datastore st' !! k = Some v -> datastore st !! k = Some v.
Proof.
  intros Hc. rewrite (cleanup_lookup _ _ _ _ _ _ k Hc).
  now destruct (List.existsb (String.eqb k) (batch sw)).
Qed.

Lemma cleanup_store_wf sf cf clock st :
  store_wf (datastore st) ->
  store_wf (datastore (snd (_cleanup sf cf clock st))).
Proof.
  intros Hwf. destruct (_cleanup sf cf clock st) as [[sw|e] st'] eqn:Hc;
    simpl.
  - intros k v r Hl Hs Hr.
    apply (cleanup_lookup_Some _ _ _ _ _ _ k v Hc) in Hl.
    exact (Hwf k v r Hl Hs Hr).
  - now rewrite (cleanup_failed _ _ _ _ _ _ Hc).
Qed.

Lemma cleanup_loadable sf cf clock st sw st' c :
  _cleanup sf cf clock st = (Ok sw, st') ->
  loadable (datastore st) c -> loadable (datastore st') c.
Proof.
  intros Hc Hld k v Hl. apply Hld.
  exact (cleanup_lookup_Some _ _ _ _ _ _ k v Hc Hl).
Qed.

(** The map a sweep leaves in the cache for a cid is the one it found,
    without the peers that [deleted] holds for the cid. *)
Lemma cleanup_cached sf cf clock st sw st' c m' :
  _cleanup sf cf clock st = (Ok sw, st') ->
  cached st' c = Some m' ->
  exists m, cached st c = Some m
            /\ forall s, map_get s m'
                         = if set_has s (default []
                                (map_get (cidText c) (deleted sw)))
                           then None else map_get s m.
Proof.
  intros Hc. pose proof (cleanup_sweep_inv _ _ _ _ _ _ Hc) as Hinv.
  apply cleanup_returns in Hc as (_ & Hcache & _).
  unfold cached. rewrite Hcache, <- makeProviderKey_text.
  rewrite (fold_reconcile_peek _ _ _ (inv_deleted_nodup _ _ _ Hinv)).
  destruct (map_get (cidText c) (deleted sw)) as [peers|]; simpl.
  - destruct (lru_peek _ (cache st)) as [m|]; [|discriminate].
    destruct (map_size _ =? 0)%nat; [discriminate|].
    intros [= <-]. exists m. split; [reflexivity|].
    intros s. apply fold_delete_get.
  - intros Hm. exists m'. now split.
Qed.

Lemma cleanup_sound sf cf clock st :
  cache_sound st -> cache_sound (snd (_cleanup sf cf clock st)).
Proof.
  intros Hso. destruct (_cleanup sf cf clock st) as [[sw|e] st'] eqn:Hc;
    simpl; [|now rewrite (cleanup_failed _ _ _ _ _ _ Hc)].
  intros c m' Hm'.
  destruct (cleanup_cached _ _ _ _ _ _ c m' Hc Hm') as [m [Hm Hget]].
  destruct (Hso c m Hm) as [Hld Hkeys]. split.
  - exact (cleanup_loadable _ _ _ _ _ _ c Hc Hld).
  - intros s Hs. apply Hkeys. apply map_get_keys.
    apply map_get_keys in Hs. rewrite Hget in Hs.
    now destruct (set_has s _).
Qed.

Lemma cleanup_coherent sf cf clock st :
  store_wf (datastore st) -> coherent st ->
  coherent (snd (_cleanup sf cf clock st)).
Proof.
  intros Hwf Hco. destruct (_cleanup sf cf clock st) as [[sw|e] st'] eqn:Hc;
    simpl; [|now rewrite (cleanup_failed _ _ _ _ _ _ Hc)].
  pose proof (cleanup_sweep_inv _ _ _ _ _ _ Hc) as Hinv.
  intros c m' Hm'.
  destruct (cleanup_cached _ _ _ _ _ _ c m' Hc Hm') as [m [Hm Hget]].
  destruct (Hco c m Hm) as [Hld Hback]. split.
  - exact (cleanup_loadable _ _ _ _ _ _ c Hc Hld).
  - intros s. rewrite Hget, Hback.
    assert (Hafter : backend_time (datastore st') c s
              = if List.existsb
                     (String.eqb (makeProviderKey (inl c) +:+ "/" +:+ s))
                     (batch sw)
                then None else backend_time (datastore st) c s).
    { unfold backend_time. rewrite (cleanup_lookup _ _ _ _ _ _ _ Hc).
      now destruct (List.existsb _ (batch sw)). }
    rewrite Hafter.
    pose proof (deleted_iff_batch clock (datastore st) sw (cidText c) s
                  Hwf Hinv (cidText_no_slash c)) as Hiff.
    rewrite makeProviderKey_text in Hiff.
    destruct (set_has s _) eqn:Hs.
    + destruct (List.existsb _ (batch sw)) eqn:Hb; [reflexivity|].
      exfalso. assert (Hin : In (makeProviderKey (inl c) +:+ "/" +:+ s)
                               (batch sw)) by now apply Hiff.
      apply set_has_In in Hin. unfold set_has in Hin. congruence.
    + destruct (List.existsb _ (batch sw)) eqn:Hb; [|reflexivity].
      exfalso. assert (Hin : In (makeProviderKey (inl c) +:+ "/" +:+ s)
                               (batch sw)) by now apply set_has_In.
      apply Hiff in Hin. congruence.
Qed.

(** In a datastore whose keys under the prefix are keys of records, no two
    of them have the same cid and peer as their fourth and fifth parts. *)
Lemma wf_one_key store k (v : list Z) ct pt :
  store_wf store -> store !! k = Some v ->
  startsWith k PROVIDER_KEY_PREFIX = true ->
  parseProviderKey k = Ok (ct, pt) ->
  forall k' (v' : list Z),
    store !! k' = Some v' ->
    startsWith k' PROVIDER_KEY_PREFIX = true ->
    parseProviderKey k' = Ok (ct, pt) -> k' = k.
Proof.
  intros Hwf Hl Hs Hp k' v' Hl' Hs' Hp'.
  destruct (wf_key_text store k v ct pt Hwf Hl Hs Hp) as [-> _].
  now destruct (wf_key_text store k' v' ct pt Hwf Hl' Hs' Hp') as [-> _].
Qed.


End SweepRecords.

(** ** Sequences of operations *)

Section Sequences.
Context `{Codec} `{Config} `{!CodecLaws}.
Hypothesis Hprefix : prefix_ok.
Implicit Types (store : gmap string (list Z)) (st : Providers).
Implicit Types (c cid : CID) (p : PeerId) (o : op) (ops : list op).

Lemma run_op_sound st o :
  op_clock_ok o ->
  store_wf (datastore st) /\ cache_sound st ->
  store_wf (datastore (run_op st o)) /\ cache_sound (run_op st o).
Proof.
  intros Hclock [Hwf Hso]. destruct o as [sf pf c p now|sf c|sf cf clock];
    simpl in *.
  - split; [now apply addProvider_store_wf|now apply addProvider_sound].
  - split; [now rewrite getProviders_datastore|now apply getProviders_sound].
  - split; [now apply cleanup_store_wf|now apply cleanup_sound].
Qed.

Lemma run_ops_sound ops st :
  Forall op_clock_ok ops ->
  store_wf (datastore st) /\ cache_sound st ->
  store_wf (datastore (run_ops st ops)) /\ cache_sound (run_ops st ops).
Proof.
  unfold run_ops. revert st.
  induction ops as [|o ops IH]; intros st Hclock Hinv; simpl; [exact Hinv|].
  apply Forall_cons in Hclock as [Ho Hclock].
  apply IH; [exact Hclock|]. now apply run_op_sound.
Qed.

Lemma run_op_coherent st o :
  op_clock_ok o -> op_put_ok o ->
  store_wf (datastore st) /\ coherent st ->
  store_wf (datastore (run_op st o)) /\ coherent (run_op st o).
Proof.
  intros Hclock Hput [Hwf Hco].
  destruct o as [sf pf c p now|sf c|sf cf clock]; simpl in *.
  - subst pf.
    split; [now apply addProvider_store_wf|now apply addProvider_coherent].
  - split; [now rewrite getProviders_datastore
           |now apply getProviders_coherent].
  - split; [now apply cleanup_store_wf|now apply cleanup_coherent].
Qed.

Lemma run_ops_coherent ops st :
  Forall op_clock_ok ops -> Forall op_put_ok ops ->
  store_wf (datastore st) /\ coherent st ->
  store_wf (datastore (run_ops st ops)) /\ coherent (run_ops st ops).
Proof.
  unfold run_ops. revert st.
  induction ops as [|o ops IH]; intros st Hclock Hput Hinv; simpl;
    [exact Hinv|].
  apply Forall_cons in Hclock as [Ho Hclock].
  apply Forall_cons in Hput as [Hp Hput].
  apply IH; [exact Hclock|exact Hput|]. now apply run_op_coherent.
Qed.

(** C1, as amended. Cache coherence: after any sequence of operations on
    a new registry over a well-formed datastore in which no [put] has
    failed, the map that the cache holds for a cid has exactly the peers
    and times that [loadProviders] reads from the datastore for it. *)
Theorem cache_coherence (store : gmap string (list Z)) (ops : list op)
  (cid : CID) (m : list (string * Date)) :
  store_wf store ->
  Forall op_clock_ok ops -> Forall op_put_ok ops ->
  cached (run_ops (init store) ops) cid = Some m ->
  exists m',
    loadProviders false (datastore (run_ops (init store) ops)) cid = Ok m'
    /\ forall peer, map_get peer m = map_get peer m'.
Proof.
  intros Hwf Hclock Hput Hm.
  destruct (run_ops_coherent ops (init store) Hclock Hput) as [Hwf' Hco].
  { split; [exact Hwf|]. intros c0 m0. discriminate. }
  destruct (Hco cid m Hm) as [Hld Hback].
  destruct (loadable_loadProviders _ cid Hld) as [m' Hm'].
  exists m'. split; [exact Hm'|].
  intros peer. rewrite Hback. symmetry.
  exact (loadProviders_backend Hprefix _ cid m' Hwf' Hm' peer).
Qed.

(** [addProvider] twice *)

Lemma getProvidersMap_returns sf c st provs st1 :
  _getProvidersMap sf c st = (Ok provs, st1) ->
  datastore st1 = datastore st
  /\ ((exists m, lru_peek (makeProviderKey (inl c)) (cache st1) = Some m)
      \/ loadable (datastore st) c).
Proof.
  unfold _getProvidersMap.
  destruct (lru_get _ (cache st)) as [[m|] c1] eqn:Hg.
  - intros [= <- <-]. simpl. split; [reflexivity|]. left.
    unfold lru_get in Hg.
    destruct (lru_peek _ (cache st)) as [m0|]; [|discriminate].
    injection Hg as <- <-. exists m0. unfold lru_peek. simpl.
    now rewrite String.eqb_refl.
  - destruct (loadProviders sf (datastore st) c) as [m|e] eqn:E;
      [|discriminate].
    intros [= <- <-]. simpl. split; [reflexivity|]. right.
    apply loadProviders_scan_ok in E.
    exact (loadProviders_loadable _ c m E).
Qed.

Lemma getProvidersMap_total c st :
  (exists m, lru_peek (makeProviderKey (inl c)) (cache st) = Some m)
  \/ loadable (datastore st) c ->
  exists provs st1, _getProvidersMap false c st = (Ok provs, st1).
Proof.
  intros Hor. unfold _getProvidersMap, lru_get.
  destruct (lru_peek _ (cache st)) as [m|] eqn:Hp; [eauto|].
  destruct Hor as [[m Hm]|Hld]; [discriminate|].
  destruct (loadable_loadProviders _ c Hld) as [m ->]. eauto.
Qed.

Lemma addProvider_returns sf pf c p now st st1 :
  addProvider sf pf c p now st = (Ok tt, st1) ->
  datastore st1 = <[recordKey c p := varint_encode now]> (datastore st)
  /\ ((exists m, lru_peek (makeProviderKey (inl c)) (cache st1) = Some m)
      \/ loadable (datastore st) c).
Proof.
  unfold addProvider.
  destruct (_getProvidersMap sf c st) as [[provs|e] sta] eqn:Hg;
    [|discriminate].
  apply getProvidersMap_returns in Hg as [Hd Hor].
  unfold writeProviderEntry, ds_put. destruct pf; [discriminate|].
  intros [= <-]. simpl. rewrite Hd. split; [reflexivity|].
  destruct Hor as [[m Hm]|Hld]; [left|now right].
  exists (map_set (peerText p) (Date_ms now) provs).
  rewrite (lru_peek_set_present _ _ _ _ m _ Hm).
  now rewrite String.eqb_refl.
Qed.

(** C3. Idempotent refresh: when [addProvider] for a cid and a peer has
    completed at time [t1], a second call at a later time [t2] completes
    too when the datastore does not fail, and the datastore then holds
    exactly one record under the key of the cid and the peer, whose value
    reads back as [t2]. *)
Theorem addProvider_refresh (sf1 pf1 : bool) (c : CID) (p : PeerId)
  (t1 t2 : Z) (st st1 : Providers) :
  0 <= t1 -> t1 < t2 -> t2 <= maxTime ->
  addProvider sf1 pf1 c p t1 st = (Ok tt, st1) ->
  exists st2,
    addProvider false false c p t2 st1 = (Ok tt, st2)
    /\ List.filter (fun e => String.eqb (fst e) (recordKey c p))
         (map_to_list (datastore st2))
       = [(recordKey c p, varint_encode t2)]
    /\ readTime (varint_encode t2) = Ok (Date_ms t2).
Proof.
  intros Ht1 Ht12 Ht2 Hadd1.
  apply addProvider_returns in Hadd1 as [Hd1 Hor1].
  assert (Hor2 : (exists m, lru_peek (makeProviderKey (inl c)) (cache st1)
                            = Some m)
                 \/ loadable (datastore st1) c).
  { destruct Hor1 as [Hhit|Hld]; [now left|right].
    rewrite Hd1. change (varint_encode t1) with (encodeTime (Date_ms t1)).
    apply put_loadable; [exact Hprefix|lia|exact Hld]. }
  destruct (getProvidersMap_total c st1 Hor2) as (provs & sta & Hg).
  pose proof (getProvidersMap_returns _ _ _ _ _ Hg) as [Hda _].
  eexists. split; [|split].
  - unfold addProvider. rewrite Hg. reflexivity.
  - simpl. rewrite Hda. fold (recordKey c p).
    apply filter_key_singleton; [apply store_entries_nodup|].
    apply store_entries_In. apply lookup_insert_eq.
  - apply (readTime_encodeTime t2). lia.
Qed.

(** Reading after a write *)

Lemma peerText_inj p p' : peerText p = peerText p' -> p = p'.
Proof.
  intros Heq. pose proof (peerIdFromString_peerText p) as E.
  rewrite Heq, peerIdFromString_peerText in E. now injection E.
Qed.

Lemma peers_from_strings_total texts :
  (forall s, In s texts -> exists p, s = peerText p) ->
  exists l, peers_from_strings texts = Ok l
            /\ forall p, In (peerText p) texts -> In p l.
Proof.
  induction texts as [|s texts IH]; intros Hall; simpl.
  - exists []. split; [reflexivity|intros p []].
  - destruct (Hall s (or_introl eq_refl)) as [p0 ->].
    rewrite peerIdFromString_peerText.
    destruct IH as [l [-> Hl]]; [intros s Hs; apply Hall; now right|].
    simpl. exists (p0 :: l). split; [reflexivity|].
    intros p [Heq|Hin]; [left; now apply peerText_inj|right; auto].
Qed.

Lemma holds_peer_by_key c p : by_key (holds_peer c p).
Proof. intros store c1 c2 m Hk Hh Hk2. apply Hh. congruence. Qed.

Lemma holds_peer_loaded c p st c' m :
  store_wf (datastore st) ->
  backend_time (datastore st) c (peerText p) <> None ->
  loadProviders false (datastore st) c' = Ok m ->
  holds_peer c p (datastore st) c' m.
Proof.
  intros Hwf Hback Hload Hk.
  rewrite (loadProviders_backend Hprefix _ c' m Hwf Hload).
  now rewrite (backend_time_by_key _ c' c _ Hk).
Qed.

Lemma addProvider_provided_new sf pf c p now st st1 :
  0 <= now <= maxTime ->
  store_wf (datastore st) -> cache_sound st ->
  addProvider sf pf c p now st = (Ok tt, st1) ->
  provided c p st1.
Proof.
  intros Hnow Hwf Hso Hadd.
  pose proof (addProvider_store_wf sf pf c p now st Hwf) as Hwf1.
  pose proof (addProvider_sound Hprefix sf pf c p now st Hnow Hwf Hso)
    as Hso1.
  rewrite Hadd in Hwf1, Hso1. simpl in Hwf1, Hso1.
  unfold addProvider in Hadd.
  destruct (getProvidersMap_rel sound_map sf c st sound_map_by_key
              (fun m Hl => snapshot_sound Hprefix _ c m Hwf
                             (loadProviders_snapshot Hprefix _ c m Hwf Hl))
              Hso) as [_ Hm].
  pose proof (getProvidersMap_datastore sf c st) as Hd.
  destruct (_getProvidersMap sf c st) as [[provs|e] sta]; simpl in *;
    [|discriminate].
  destruct (Hm provs eq_refl) as [Hld _].
  unfold writeProviderEntry, ds_put in Hadd.
  destruct pf; [discriminate|]. injection Hadd as <-.
  split; [exact Hwf1|]. split; [exact Hso1|].
  simpl. rewrite Hd. fold (recordKey c p). split; [|split].
  - apply put_loadable; assumption.
  - rewrite put_backend_time by exact Hnow.
    now rewrite !String.eqb_refl.
  - intros c0 m0 Hc0 Hk.
    apply cached_after_set in Hc0 as [[_ ->]|[Hne Hc0]].
    + now rewrite map_get_set_eq.
    + contradiction.
Qed.

Lemma addProvider_provided sf pf c' p' now c p st :
  0 <= now <= maxTime -> provided c p st ->
  provided c p (snd (addProvider sf pf c' p' now st)).
Proof.
  intros Hnow (Hwf & Hso & Hld & Hback & Hhold).
  pose proof (addProvider_store_wf sf pf c' p' now st Hwf) as Hwf1.
  pose proof (addProvider_sound Hprefix sf pf c' p' now st Hnow Hwf Hso)
    as Hso1.
  split; [exact Hwf1|]. split; [exact Hso1|].
  unfold addProvider in *.
  destruct (getProvidersMap_rel (holds_peer c p) sf c' st
              (holds_peer_by_key c p)
              (fun m => holds_peer_loaded c p st c' m Hwf Hback) Hhold)
    as [Hr Hm].
  pose proof (getProvidersMap_datastore sf c' st) as Hd.
  destruct (_getProvidersMap sf c' st) as [[provs|e] sta]; simpl in *.
  2:{ rewrite Hd. split; [exact Hld|]. split; [exact Hback|exact Hr]. }
  specialize (Hm provs eq_refl).
  assert (Hcache : forall store',
             cache_rel (holds_peer c p)
               {| datastore := store';
                  cache := lru_set cacheSize (makeProviderKey (inl c'))
                             (map_set (peerText p') (Date_ms now) provs)
                             (cache sta) |}).
  { intros store' c0 m0 Hc0 Hk.
    apply cached_after_set in Hc0 as [[Hk' ->]|[_ Hc0]].
    - destruct (String.eqb_spec (peerText p) (peerText p')) as [->|Hne].
      + now rewrite map_get_set_eq.
      + rewrite map_get_set_ne by exact Hne. apply Hm. congruence.
    - exact (Hr c0 m0 Hc0 Hk). }
  unfold writeProviderEntry, ds_put. destruct pf; simpl.
  - rewrite Hd. split; [exact Hld|]. split; [exact Hback|apply Hcache].
  - rewrite Hd. fold (recordKey c' p'). split; [|split].
    + apply put_loadable; assumption.
    + rewrite put_backend_time by exact Hnow.
      now destruct (_ && _).
    + apply Hcache.
Qed.

Lemma getProviders_provided sf c' c p st :
  provided c p st -> provided c p (snd (getProviders sf c' st)).
Proof.
  intros (Hwf & Hso & Hld & Hback & Hhold).
  pose proof (getProviders_sound Hprefix sf c' st Hwf Hso) as Hso1.
  pose proof (getProviders_rel (holds_peer c p) sf c' st
                (holds_peer_by_key c p)
                (fun m => holds_peer_loaded c p st c' m Hwf Hback) Hhold)
    as Hr.
  pose proof (getProviders_datastore sf c' st) as Hd.
  unfold provided. rewrite Hd.
  split; [exact Hwf|]. split; [exact Hso1|]. split; [exact Hld|].
  split; [exact Hback|exact Hr].
Qed.

Lemma run_ops_provided ops c p st :
  Forall op_clock_ok ops -> Forall op_no_sweep ops ->
  provided c p st -> provided c p (run_ops st ops).
Proof.
  unfold run_ops. revert st.
  induction ops as [|o ops IH]; intros st Hclock Hns Hpr; simpl;
    [exact Hpr|].
  apply Forall_cons in Hclock as [Ho Hclock].
  apply Forall_cons in Hns as [Hn Hns].
  apply IH; [exact Hclock|exact Hns|].
  destruct o as [sf pf c' p' now|sf c'|sf cf clock]; simpl in *.
  - now apply addProvider_provided.
  - now apply getProviders_provided.
  - contradiction.
Qed.

Lemma getProviders_of_provided c p st :
  provided c p st ->
  exists l st', getProviders false c st = (Ok l, st') /\ In p l.
Proof.
  intros (Hwf & Hso & Hld & Hback & Hhold).
  destruct (getProvidersMap_total c st (or_intror Hld))
    as (provs & sta & Hg).
  destruct (getProvidersMap_rel sound_map false c st sound_map_by_key
              (fun m Hl => snapshot_sound Hprefix _ c m Hwf
                             (loadProviders_snapshot Hprefix _ c m Hwf Hl))
              Hso) as [_ Hsound].
  destruct (getProvidersMap_rel (holds_peer c p) false c st
              (holds_peer_by_key c p)
              (fun m => holds_peer_loaded c p st c m Hwf Hback) Hhold)
    as [_ Hpeer].
  rewrite Hg in Hsound, Hpeer. simpl in Hsound, Hpeer.
  destruct (Hsound provs eq_refl) as [_ Hkeys].
  specialize (Hpeer provs eq_refl eq_refl).
  destruct (peers_from_strings_total (map_keys provs) Hkeys) as [l [Hl Hin]].
  exists l, sta. split.
  - unfold getProviders. now rewrite Hg, Hl.
  - apply Hin. now apply map_get_keys.
Qed.

(** C7, as amended.  Read after write: on a registry made over a datastore
    whose keys under the prefix that the parser accepts are keys of
    records, when [addProvider] of a peer for a cid has completed, and
    calls of [addProvider] and [getProviders] for any cids and peers have
    followed, failed or not, then [getProviders] for the cid returns, when
    its scan does not fail, a list that holds the peer: whether the cache
    still has the cid or not.  The clock of every [addProvider] shows a
    time a [Date] holds. *)
Theorem read_after_write (store : gmap string (list Z))
  (before after : list op) (sf pf : bool) (c : CID) (p : PeerId) (now : Z)
  (st1 : Providers) :
  store_wf store ->
  Forall op_clock_ok before -> 0 <= now <= maxTime ->
  Forall op_clock_ok after -> Forall op_no_sweep after ->
  addProvider sf pf c p now (run_ops (init store) before) = (Ok tt, st1) ->
  exists l st',
    getProviders false c (run_ops st1 after) = (Ok l, st') /\ In p l.
Proof.
  intros Hwf Hbefore Hnow Hafter Hns Hadd.
  destruct (run_ops_sound before (init store) Hbefore) as [Hwf0 Hso0].
  { split; [exact Hwf|]. intros c0 m0. discriminate. }
  apply getProviders_of_provided.
  apply run_ops_provided; [exact Hafter|exact Hns|].
  exact (addProvider_provided_new sf pf c p now _ st1 Hnow Hwf0 Hso0 Hadd).
Qed.

(** The list that [getProviders] returns *)

Lemma loaded_peer_keys store c m :
  store_wf store -> loadProviders false store c = Ok m -> peer_keys store c m.
Proof.
  intros Hwf Hload.
  exact (proj2 (snapshot_sound Hprefix store c m Hwf
                  (loadProviders_snapshot Hprefix store c m Hwf Hload))).
Qed.

Lemma peer_keys_by_key : by_key peer_keys.
Proof. intros store c c' m _ Hk. exact Hk. Qed.

Lemma addProvider_peer_keys sf pf c p now st :
  store_wf (datastore st) -> cache_rel peer_keys st ->
  cache_rel peer_keys (snd (addProvider sf pf c p now st)).
Proof.
  intros Hwf Hrel. unfold addProvider.
  destruct (getProvidersMap_rel peer_keys sf c st peer_keys_by_key
              (fun m => loaded_peer_keys _ c m Hwf) Hrel) as [Hr Hm].
  destruct (_getProvidersMap sf c st) as [[provs|e] st1]; simpl in *;
    [|exact Hr].
  specialize (Hm provs eq_refl).
  assert (Hset : forall store',
             cache_rel peer_keys
               {| datastore := store';
                  cache := lru_set cacheSize (makeProviderKey (inl c))
                             (map_set (peerText p) (Date_ms now) provs)
                             (cache st1) |}).
  { intros store' c0 m0 Hc0.
    apply cached_after_set in Hc0 as [[_ ->]|[_ Hc0]].
    - intros s Hs. apply map_keys_set in Hs as [->|Hs]; [eauto|].
      now apply Hm.
    - exact (Hr c0 m0 Hc0). }
  destruct (writeProviderEntry pf (datastore st1) c p (Date_ms now));
    apply Hset.
Qed.

Lemma cleanup_peer_keys sf cf clock st :
  cache_rel peer_keys st ->
  cache_rel peer_keys (snd (_cleanup sf cf clock st)).
Proof.
  intros Hrel. destruct (_cleanup sf cf clock st) as [[sw|e] st'] eqn:Hc;
    simpl; [|now rewrite (cleanup_failed _ _ _ _ _ _ Hc)].
  intros c m' Hm'.
  destruct (cleanup_cached _ _ _ _ _ _ c m' Hc Hm') as [m [Hm Hget]].
  intros s Hs. apply (Hrel c m Hm). apply map_get_keys.
  apply map_get_keys in Hs. rewrite Hget in Hs. now destruct (set_has s _).
Qed.

Lemma run_ops_peer_keys ops st :
  store_wf (datastore st) /\ cache_rel peer_keys st ->
  store_wf (datastore (run_ops st ops))
  /\ cache_rel peer_keys (run_ops st ops).
Proof.
  unfold run_ops. revert st.
  induction ops as [|o ops IH]; intros st [Hwf Hrel]; simpl; [now split|].
  apply IH. destruct o as [sf pf c p now|sf c|sf cf clock]; simpl.
  - split; [now apply addProvider_store_wf|now apply addProvider_peer_keys].
  - split; [now rewrite getProviders_datastore|].
    exact (getProviders_rel peer_keys sf c st peer_keys_by_key
             (fun m => loaded_peer_keys _ c m Hwf) Hrel).
  - split; [now apply cleanup_store_wf|now apply cleanup_peer_keys].
Qed.

Lemma peers_from_strings_texts texts l :
  (forall s, In s texts -> exists p, s = peerText p) ->
  peers_from_strings texts = Ok l -> List.map peerText l = texts.
Proof.
  revert l. induction texts as [|s texts IH]; intros l Hall; simpl.
  - now intros [= <-].
  - destruct (Hall s (or_introl eq_refl)) as [p0 ->].
    rewrite peerIdFromString_peerText.
    destruct (peers_from_strings texts) as [ps|e]; simpl; [|discriminate].
    intros [= <-]. simpl. f_equal. apply IH; [|reflexivity].
    intros s Hs. apply Hall. now right.
Qed.

(** C10. Duplicate-free result: in every state that a sequence of
    operations reaches from a new registry over a well-formed datastore,
    the list that [getProviders] returns holds no peer twice. *)
Theorem getProviders_no_duplicates (store : gmap string (list Z))
  (ops : list op) (sf : bool) (cid : CID) (l : list PeerId)
  (st' : Providers) :
  store_wf store ->
  getProviders sf cid (run_ops (init store) ops) = (Ok l, st') ->
  List.NoDup l.
Proof.
  intros Hwf Hget. unfold getProviders in Hget.
  assert (Hnd : maps_nodup (run_ops (init store) ops)).
  { apply run_ops_nodup. constructor. }
  destruct (run_ops_peer_keys ops (init store)) as [Hwf' Hrel].
  { split; [exact Hwf|]. intros c0 m0. discriminate. }
  destruct (getProvidersMap_nodup sf cid _ Hnd) as [_ Hm].
  destruct (getProvidersMap_rel peer_keys sf cid _ peer_keys_by_key
              (fun m => loaded_peer_keys _ cid m Hwf') Hrel) as [_ Hkeys].
  destruct (_getProvidersMap sf cid (run_ops (init store) ops))
    as [[provs|e] st1]; simpl in *; [|discriminate].
  injection Hget as Hl _.
  apply peers_from_strings_texts in Hl; [|exact (Hkeys provs eq_refl)].
  apply (NoDup_map_inv peerText). rewrite Hl. now apply Hm.
Qed.

End Sequences.

(** ** More on the keys *)

Lemma split_length sep s : length (split sep s) = S (count_char sep s).
Proof.
  induction s as [|a s IH]; simpl; [reflexivity|].
  destruct (Ascii.eqb a sep); simpl; [now rewrite IH|].
  destruct (split sep s) as [|h t] eqn:E; [now apply split_nonempty in E|].
  simpl in *. exact IH.
Qed.

Lemma split_parts_no_sep sep s :
  forall x, In x (split sep s) -> has_char sep x = false.
Proof.
  induction s as [|a s IH]; simpl; intros x Hx.
  - destruct Hx as [<-|[]]. reflexivity.
  - destruct (Ascii.eqb a sep) eqn:Ea.
    + destruct Hx as [<-|Hx]; [reflexivity|now apply IH].
    + destruct (split sep s) as [|h t] eqn:E.
      * destruct Hx as [<-|[]]. simpl. now rewrite Ea.
      * destruct Hx as [<-|Hx].
        -- simpl. rewrite Ea. simpl. apply IH. now left.
        -- apply IH. now right.
Qed.

Lemma split_one_inv sep s b : split sep s = [b] -> s = b.
Proof.
  revert b. induction s as [|a s IH]; simpl; intros b.
  - now intros [= <-].
  - destruct (Ascii.eqb a sep).
    + intros [= _ E]. now apply split_nonempty in E.
    + destruct (split sep s) as [|h t] eqn:E;
        [now apply split_nonempty in E|].
      intros [= <- ->]. f_equal. now apply IH.
Qed.

Lemma split_two_inv sep s a b :
  split sep s = [a; b] -> s = a +:+ String sep b.
Proof.
  revert a. induction s as [|x s IH]; simpl; intros a.
  - discriminate.
  - destruct (Ascii.eqb_spec x sep) as [->|Hne].
    + intros [= <- E]. apply split_one_inv in E. now subst.
    + destruct (split sep s) as [|h t] eqn:E; [discriminate|].
      intros [= <- ->]. rewrite append_cons. f_equal. now apply IH.
Qed.

Lemma startsWith_inv s pre :
  startsWith s pre = true -> exists rest, s = pre +:+ rest.
Proof.
  revert s. induction pre as [|a pre IH]; intros s; simpl.
  - intros _. now exists s.
  - destruct s as [|b s]; [discriminate|].
    intros Hs. apply andb_true_iff in Hs as [Hab Hs].
    apply Ascii.eqb_eq in Hab. subst b.
    destruct (IH s Hs) as [rest ->]. now exists rest.
Qed.

(** X1. [parseProviderKey] accepts exactly the keys that hold four '/': it
    then returns two texts without '/', and else throws the error that
    names the key. *)
Theorem parseProviderKey_shape (key : string) :
  match parseProviderKey key with
  | Ok (c, p) =>
      count_char slash key = 4%nat
      /\ has_char slash c = false /\ has_char slash p = false
  | Err e => count_char slash key <> 4%nat /\ e = MalformedKey key
  end.
Proof.
  unfold parseProviderKey.
  pose proof (split_length slash key) as Hlen.
  pose proof (split_parts_no_sep slash key) as Hparts.
  destruct (length (split slash key) =? 5)%nat eqn:E; simpl.
  - apply Nat.eqb_eq in E. split; [lia|].
    split; apply Hparts; apply nth_In; lia.
  - apply Nat.eqb_neq in E. split; [lia|reflexivity].
Qed.

Section KeyShape.
Context `{Codec} `{Config}.

(** X2. Parsing, then building: a key that lies under the prefix followed
    by '/' and that [parseProviderKey] accepts is the key that
    [makeProviderKey] builds from the cid it returns, followed by '/' and
    the peer it returns. *)
Theorem parse_then_make (key c p : string) :
  prefix_ok ->
  startsWith key (PROVIDER_KEY_PREFIX +:+ "/") = true ->
  parseProviderKey key = Ok (c, p) ->
  key = makeProviderKey (inr c) +:+ "/" +:+ p.
Proof.
  unfold prefix_ok, parseProviderKey. intros Hpre Hs.
  apply startsWith_inv in Hs as [rest ->].
  rewrite string_app_assoc.
  change ("/" +:+ rest) with (String slash rest).
  rewrite split_app.
  destruct (split slash PROVIDER_KEY_PREFIX) as [|x0 [|x1 [|x2 [|? ?]]]];
    try discriminate.
  destruct (split slash rest) as [|a [|b [|? ?]]] eqn:E; simpl;
    try discriminate.
  intros [= <- <-]. apply split_two_inv in E. subst rest.
  unfold makeProviderKey. now rewrite !string_app_assoc.
Qed.

(** X3. The keys of the records of two peers of a cid, or of two cids with
    different texts, differ: a [put] for one never overwrites another. *)
Theorem recordKey_inj `{!CodecLaws} (c c' : CID) (p p' : PeerId) :
  recordKey c p = recordKey c' p' -> cidText c = cidText c' /\ p = p'.
Proof.
  rewrite !recordKey_text. intros Heq.
  apply key_text_inj in Heq as [Hc Hp]; try apply cidText_no_slash.
  split; [exact Hc|]. now apply peerText_inj.
Qed.

End KeyShape.

(** ** The cleanup service: [start] and [stop] *)

Lemma run_call_one_interval (period : Z) (sv : service) (c : service_call) :
  (if started sv
   then exists t, cleaner sv = Some t /\ active sv = [t]
                  /\ timer_period t = period
   else cleaner sv = None /\ active sv = []) ->
  let sv' := run_call period sv c in
  if started sv'
  then exists t, cleaner sv' = Some t /\ active sv' = [t]
                 /\ timer_period t = period
  else cleaner sv' = None /\ active sv' = [].
Proof.
  destruct c; simpl; unfold start, stop.
  - destruct (started sv) eqn:Hst; intros Hinv.
    + now rewrite Hst.
    + simpl. destruct Hinv as [_ Hact]. rewrite Hact. eauto.
  - destruct (started sv) eqn:Hst; intros Hinv.
    + destruct Hinv as (t & Hc & Hact & _). rewrite Hc, Hact. simpl.
      now rewrite Nat.eqb_refl.
    + destruct Hinv as [Hc Hact]. rewrite Hc. simpl. now split.
Qed.

(** X4. However [start] and [stop] follow one another on a new object, one
    cleanup interval is active when [isStarted()] holds, the one that
    [cleaner] keeps, with the period [cleanupInterval]; and none is active
    when it does not. *)
Theorem service_one_interval (period : Z) (calls : list service_call) :
  let sv := run_calls period service_new calls in
  if isStarted sv
  then exists t, cleaner sv = Some t /\ active sv = [t]
                 /\ timer_period t = period
  else cleaner sv = None /\ active sv = [].
Proof.
  unfold run_calls, isStarted.
  assert (Hgen : forall sv,
             (if started sv
              then exists t, cleaner sv = Some t /\ active sv = [t]
                             /\ timer_period t = period
              else cleaner sv = None /\ active sv = []) ->
             let sv' := fold_left (run_call period) calls sv in
             if started sv'
             then exists t, cleaner sv' = Some t /\ active sv' = [t]
                            /\ timer_period t = period
             else cleaner sv' = None /\ active sv' = []).
  { induction calls as [|c calls IH]; intros sv Hinv; simpl; [exact Hinv|].
    apply IH. now apply run_call_one_interval. }
  apply Hgen. simpl. now split.
Qed.

(** ** More on [loadProviders], [addProvider] and [getProviders] *)

Lemma map_keys_set_present {V : Type} (k : string) (v : V)
  (m : list (string * V)) :
  In k (map_keys m) -> map_keys (map_set k v m) = map_keys m.
Proof.
  unfold map_keys. induction m as [|[k1 v1] m IH]; simpl; [intros []|].
  destruct (String.eqb_spec k k1) as [->|Hne]; [reflexivity|].
  intros [Heq|Hin]; [congruence|]. simpl. f_equal. now apply IH.
Qed.

Section MoreRegistry.
Context `{Codec} `{Config} `{!CodecLaws}.
Hypothesis Hprefix : prefix_ok.
Implicit Types (store : gmap string (list Z)) (st : Providers).
Implicit Types (c cid : CID) (p : PeerId).

Lemma load_entries_error entries :
  forall providers e,
    load_entries entries providers = Err e ->
    exists k v, In (k, v) entries
                /\ (parseProviderKey k = Err e \/ readTime v = Err e).
Proof.
  induction entries as [|[k v] entries IH]; intros providers e; simpl;
    [discriminate|].
  destruct (parseProviderKey k) as [r|e1] eqn:Hp; simpl.
  - destruct (readTime v) as [d|e2] eqn:Hd; simpl.
    + intros Hload. destruct (IH _ _ Hload) as (k' & v' & Hin & Herr).
      exists k', v'. split; [now right|exact Herr].
    + intros [= <-]. exists k, v. split; [now left|now right].
  - intros [= <-]. exists k, v. split; [now left|now left].
Qed.

(** X5. [loadProviders] over a datastore that does not fail returns a map
    exactly when every entry under the prefix of the cid can be read; when
    it throws, it throws what [parseProviderKey] or [readTime] throws for
    one of these entries. *)
Theorem loadProviders_outcome store cid :
  match loadProviders false store cid with
  | Ok m => loadable store cid
  | Err e =>
      exists k v,
        store !! k = Some v
        /\ startsWith k (makeProviderKey (inl cid)) = true
        /\ (parseProviderKey k = Err e \/ readTime v = Err e)
  end.
Proof.
  destruct (loadProviders false store cid) as [m|e] eqn:Hload.
  - exact (loadProviders_loadable store cid m Hload).
  - unfold loadProviders, ds_query in Hload. simpl in Hload.
    destruct (load_entries_error _ _ _ Hload) as (k & v & Hin & Herr).
    apply scan_In in Hin as [Hl Hs]. eauto.
Qed.

(** X6. Writing, then loading: in a well-formed datastore of which the
    records of a cid can be read, after [writeProviderEntry] for the cid, a
    peer and a time, [loadProviders] for the cid returns a map that has the
    peer at that time and every other peer as before. *)
Theorem write_then_load store store' cid p now m :
  store_wf store -> 0 <= now <= maxTime ->
  loadProviders false store cid = Ok m ->
  writeProviderEntry false store cid p (Date_ms now) = Ok store' ->
  exists m',
    loadProviders false store' cid = Ok m'
    /\ map_get (peerText p) m' = Some (Date_ms now)
    /\ forall s, s <> peerText p -> map_get s m' = map_get s m.
Proof.
  intros Hwf Hnow Hload Hwrite.
  unfold writeProviderEntry, ds_put in Hwrite. injection Hwrite as <-.
  fold (recordKey cid p).
  pose proof (loadProviders_loadable store cid m Hload) as Hld.
  pose proof (put_store_wf store cid p (encodeTime (Date_ms now)) Hwf) as Hwf'.
  pose proof (put_loadable Hprefix store cid p now cid Hnow Hld) as Hld'.
  destruct (loadable_loadProviders _ cid Hld') as [m' Hm'].
  exists m'. split; [exact Hm'|].
  pose proof (loadProviders_backend Hprefix _ cid m' Hwf' Hm') as Hb'.
  pose proof (loadProviders_backend Hprefix _ cid m Hwf Hload) as Hb.
  split.
  - rewrite Hb', put_backend_time by exact Hnow.
    now rewrite !String.eqb_refl.
  - intros s Hs. rewrite Hb', Hb, put_backend_time by exact Hnow.
    rewrite String.eqb_refl. simpl.
    destruct (String.eqb_spec s (peerText p)); [contradiction|reflexivity].
Qed.

(** X7. [addProvider] leaves every key of the datastore but the key of its
    record as it is; when it returns, that key holds the varint of its
    time, and when it throws, the datastore is as before. *)
Theorem addProvider_datastore sf pf cid p now st (r : result unit) st' :
  addProvider sf pf cid p now st = (r, st') ->
  (forall k, k <> recordKey cid p ->
             datastore st' !! k = datastore st !! k)
  /\ match r with
     | Ok _ => datastore st' !! recordKey cid p = Some (varint_encode now)
     | Err _ => datastore st' = datastore st
     end.
Proof.
  unfold addProvider.
  pose proof (getProvidersMap_datastore sf cid st) as Hd.
  destruct (_getProvidersMap sf cid st) as [[provs|e] st1]; simpl in Hd.
  - unfold writeProviderEntry, ds_put. destruct pf.
    + intros [= <- <-]. simpl. rewrite Hd. now split.
    + intros [= <- <-]. simpl. rewrite Hd. fold (recordKey cid p). split.
      * intros k Hk. now apply lookup_insert_ne.
      * apply lookup_insert_eq.
  - intros [= <- <-]. rewrite Hd. now split.
Qed.

(** X8. When [addProvider] throws and it is not its [put] that failed, the
    datastore and the cache are as before the call. *)
Theorem addProvider_throws_unchanged sf cid p now st e st' :
  addProvider sf false cid p now st = (Err e, st') -> st' = st.
Proof.
  unfold addProvider, _getProvidersMap, lru_get.
  destruct (lru_peek _ (cache st)) as [m|].
  - unfold writeProviderEntry, ds_put. discriminate.
  - destruct (loadProviders sf (datastore st) cid) as [m|e1].
    + unfold writeProviderEntry, ds_put. discriminate.
    + intros [= _ <-]. now destruct st.
Qed.

Lemma getProvidersMap_cached sf cid st provs st1 :
  (0 < cacheSize)%nat ->
  _getProvidersMap sf cid st = (Ok provs, st1) ->
  lru_peek (makeProviderKey (inl cid)) (cache st1) = Some provs.
Proof.
  intros Hcap. unfold _getProvidersMap, lru_get.
  destruct (lru_peek _ (cache st)) as [m|] eqn:Hp.
  - intros [= <- <-]. unfold lru_peek. simpl. now rewrite String.eqb_refl.
  - destruct (loadProviders sf (datastore st) cid) as [m|e]; [|discriminate].
    intros [= <- <-]. simpl. now apply lru_peek_set_eq.
Qed.

(** X9. With a cache that holds at least one cid, when [getProviders] has
    returned a list for a cid, the next [getProviders] for it returns the
    same list, also when the datastore then fails: the second call reads
    the cache and does not scan. *)
Theorem getProviders_again sf sf' cid st l st1 :
  (0 < cacheSize)%nat ->
  getProviders sf cid st = (Ok l, st1) ->
  fst (getProviders sf' cid st1) = Ok l
  /\ datastore (snd (getProviders sf' cid st1)) = datastore st.
Proof.
  intros Hcap. unfold getProviders at 1.
  destruct (_getProvidersMap sf cid st) as [[provs|e] sta] eqn:Hg;
    [|discriminate].
  intros [= Hl <-].
  pose proof (getProvidersMap_cached sf cid st provs sta Hcap Hg) as Hp.
  pose proof (getProvidersMap_datastore sf cid st) as Hd.
  rewrite Hg in Hd. simpl in Hd.
  unfold getProviders, _getProvidersMap, lru_get. rewrite Hp. simpl.
  split; [exact Hl|exact Hd].
Qed.

(** X10. After any sequence of operations in which no [put] has failed, on
    a new registry over a well-formed datastore, the list that
    [getProviders] returns for a cid holds exactly the peers of which the
    datastore has a record for the cid. *)
Theorem getProviders_exact store (ops : list op) sf cid l st' p :
  store_wf store ->
  Forall op_clock_ok ops -> Forall op_put_ok ops ->
  getProviders sf cid (run_ops (init store) ops) = (Ok l, st') ->
  In p l
  <-> exists v, datastore (run_ops (init store) ops) !! recordKey cid p
                = Some v.
Proof.
  intros Hwf Hclock Hput Hget.
  destruct (run_ops_coherent Hprefix ops (init store) Hclock Hput)
    as [Hwf' Hco].
  { split; [exact Hwf|]. intros c0 m0. discriminate. }
  set (st := run_ops (init store) ops) in *.
  unfold getProviders in Hget.
  destruct (getProvidersMap_rel snapshot sf cid st snapshot_by_key
              (fun m => loadProviders_snapshot Hprefix _ cid m Hwf') Hco)
    as [_ Hsnap].
  destruct (_getProvidersMap sf cid st) as [[provs|e] sta]; simpl in *;
    [|discriminate].
  injection Hget as Hl _.
  pose proof (Hsnap provs eq_refl) as Hs.
  destruct (snapshot_sound Hprefix _ cid provs Hwf' Hs) as [Hld Hkeys].
  apply (peers_from_strings_texts _ _ Hkeys) in Hl.
  destruct Hs as [_ Hback].
  assert (Hin : In p l <-> In (peerText p) (map_keys provs)).
  { rewrite <- Hl. split; [apply in_map|].
    intros Hin. apply in_map_iff in Hin as [p' [Heq Hin]].
    apply peerText_inj in Heq. now subst. }
  rewrite Hin, map_get_keys, Hback. unfold backend_time.
  fold (recordKey cid p). split.
  - destruct (datastore st !! recordKey cid p) as [v|]; [eauto|congruence].
  - intros [v Hv]. rewrite Hv.
    destruct (Hld _ v Hv (recordKey_under_cid cid p)) as [_ [d ->]].
    discriminate.
Qed.

(** X11. Providing again does not change the list: when the cache holds
    the map of a cid and the peer is in it, [getProviders] returns after
    [addProvider] for the cid and the peer, failed or not, what it returned
    before it: the peers in the order in which they were first set. *)
Theorem addProvider_again_same_list sf pf sf1 sf2 cid p now st m :
  cached st cid = Some m ->
  In (peerText p) (map_keys m) ->
  fst (getProviders sf1 cid st) = peers_from_strings (map_keys m)
  /\ fst (getProviders sf2 cid (snd (addProvider sf pf cid p now st)))
     = peers_from_strings (map_keys m).
Proof.
  unfold cached. intros Hm Hin. split.
  - unfold getProviders, _getProvidersMap, lru_get. now rewrite Hm.
  - assert (Hpeek : lru_peek (makeProviderKey (inl cid))
                      (cache (snd (addProvider sf pf cid p now st)))
                    = Some (map_set (peerText p) (Date_ms now) m)).
    { unfold addProvider, _getProvidersMap, lru_get. rewrite Hm.
      assert (Hset : lru_peek (makeProviderKey (inl cid))
                (lru_set cacheSize (makeProviderKey (inl cid))
                   (map_set (peerText p) (Date_ms now) m)
                   ((makeProviderKey (inl cid), m)
                    :: lru_remove (makeProviderKey (inl cid)) (cache st)))
              = Some (map_set (peerText p) (Date_ms now) m)).
      { rewrite (lru_peek_set_present _ _ _ _ m).
        - now rewrite String.eqb_refl.
        - unfold lru_peek. simpl. now rewrite String.eqb_refl. }
      unfold writeProviderEntry, ds_put. destruct pf; exact Hset. }
    unfold getProviders, _getProvidersMap, lru_get. rewrite Hpeek. simpl.
    now rewrite map_keys_set_present.
Qed.

(** X12. Durability across a restart: on a registry made over a datastore
    whose keys under the prefix that the parser accepts are keys of
    records, and with the clock of every [addProvider] showing a time a
    [Date] holds, when [addProvider] of a peer for a cid has completed and
    calls of [addProvider] and [getProviders], and no sweep, have followed,
    a new registry over the datastore they leave returns for the cid, when
    its scan does not fail, a list that holds the peer. *)
Theorem restart_keeps_provider store (before after : list op) sf pf cid p
  now st1 :
  store_wf store ->
  Forall op_clock_ok before -> 0 <= now <= maxTime ->
  Forall op_clock_ok after -> Forall op_no_sweep after ->
  addProvider sf pf cid p now (run_ops (init store) before) = (Ok tt, st1) ->
  exists l st',
    getProviders false cid (init (datastore (run_ops st1 after)))
    = (Ok l, st')
    /\ In p l.
Proof.
  intros Hwf Hbefore Hnow Hafter Hns Hadd.
  destruct (run_ops_sound Hprefix before (init store) Hbefore)
    as [Hwf0 Hso0].
  { split; [exact Hwf|]. intros c0 m0. discriminate. }
  pose proof (addProvider_provided_new Hprefix sf pf cid p now _ st1 Hnow
                Hwf0 Hso0 Hadd) as Hpr.
  apply (run_ops_provided Hprefix after cid p st1 Hafter Hns) in Hpr.
  destruct Hpr as (Hwf2 & _ & Hld & Hback & _).
  apply (getProviders_of_provided Hprefix).
  split; [exact Hwf2|]. split; [intros c0 m0; discriminate|].
  split; [exact Hld|]. split; [exact Hback|].
  intros c0 m0. discriminate.
Qed.

(** X18. A [put] that fails leaves the peer in the cache: when the map of
    the cid is there or can be loaded and the cache holds at least one cid,
    [addProvider] whose [put] fails throws the failure of the datastore,
    leaves the datastore as it was, and leaves in the cache a map of the
    cid that has the peer at the time of the call. *)
Theorem failed_put_stays_cached sf cid p now st provs :
  (0 < cacheSize)%nat ->
  fst (_getProvidersMap sf cid st) = Ok provs ->
  fst (addProvider sf true cid p now st) = Err BackendFailure
  /\ datastore (snd (addProvider sf true cid p now st)) = datastore st
  /\ cached (snd (addProvider sf true cid p now st)) cid
     = Some (map_set (peerText p) (Date_ms now) provs).
Proof.
  intros Hcap Hg. unfold addProvider.
  pose proof (getProvidersMap_datastore sf cid st) as Hd.
  destruct (_getProvidersMap sf cid st) as [[m|e] st1]; simpl in *;
    [|discriminate].
  injection Hg as ->. unfold writeProviderEntry, ds_put. simpl.
  split; [reflexivity|]. split; [exact Hd|].
  unfold cached. simpl. now apply lru_peek_set_eq.
Qed.

End MoreRegistry.

(** ** More on the sweep *)

Section MoreSweep.
Context `{Codec} `{Config}.
Implicit Types (store : gmap string (list Z)) (st : Providers) (sw : sweep).

(** X13. A sweep throws only when its scan or its commit fails, with the
    failure of the datastore and never with the error of an entry, and the
    datastore and the cache are then as before it. *)
Theorem cleanup_throws sf cf clock st e st' :
  _cleanup sf cf clock st = (Err e, st') ->
  st' = st /\ e = BackendFailure /\ (sf = true \/ cf = true).
Proof.
  unfold _cleanup, ds_query. destruct sf.
  - intros [= <- <-]. auto.
  - match goal with |- context [if ?b then _ else _] => destruct b end.
    + unfold ds_commit. destruct cf; [|discriminate].
      intros [= <- <-]. auto.
    + discriminate.
Qed.

(** X14. A sweep that returns has changed no value and added no key; a key
    that it has deleted lay under the prefix, could be read, and held a
    time [t] with [now - t > provideValidity] at a reading [now] of the
    clock.  So an entry that it cannot read, or whose date is invalid,
    stays. *)
Theorem cleanup_deletes_only_expired sf cf clock st sw st' (k : string) :
  _cleanup sf cf clock st = (Ok sw, st') ->
  datastore st' !! k = datastore st !! k
  \/ (datastore st' !! k = None
      /\ exists v ct pt d t i,
           datastore st !! k = Some v
           /\ startsWith k PROVIDER_KEY_PREFIX = true
           /\ parseProviderKey k = Ok (ct, pt)
           /\ readTime v = Ok d /\ getTime d = Some t
           /\ provideValidity < clock i - t).
Proof.
  intros Hc. pose proof (cleanup_sweep_inv _ _ _ _ _ _ Hc) as Hinv.
  rewrite (cleanup_lookup _ _ _ _ _ _ k Hc).
  destruct (List.existsb (String.eqb k) (batch sw)) eqn:E; [right|now left].
  split; [reflexivity|].
  assert (Hin : In k (batch sw)) by now apply set_has_In.
  apply (inv_batch _ _ _ Hinv) in Hin as (line & Hl & <- & He).
  destruct (inv_lines _ _ _ Hinv line Hl)
    as (v & ct & pt & d & i & Hin & Hp & Hd & Htime & Hnow & Hexp).
  apply scan_In in Hin as [Hlk Hs].
  rewrite He, Htime, Hnow in Hexp. unfold expiry in Hexp.
  destruct (getTime d) as [t|] eqn:Ht; [|discriminate].
  symmetry in Hexp. apply Z.ltb_lt in Hexp.
  exists v, ct, pt, d, t, i. auto 8.
Qed.

Lemma sweep_entry_counts clock sw (e : string * list Z) (n : nat) :
  count sw = length (comparisons sw) /\ deleteCount sw = length (batch sw)
  /\ (count sw + length (logged sw) = n)%nat /\ reads sw = S (count sw)
  /\ (deleteCount sw <= count sw)%nat ->
  let sw' := sweep_entry clock sw e in
  count sw' = length (comparisons sw') /\ deleteCount sw' = length (batch sw')
  /\ (count sw' + length (logged sw') = S n)%nat /\ reads sw' = S (count sw')
  /\ (deleteCount sw' <= count sw')%nat.
Proof.
  intros (Hc & Hd & Hn & Hr & Hle). destruct e as [k v].
  unfold sweep_entry.
  destruct (parseProviderKey k) as [[ct pt]|err]; simpl.
  2:{ rewrite length_app. simpl. repeat split; lia. }
  destruct (readTime v) as [d|err]; simpl.
  2:{ rewrite length_app. simpl. repeat split; lia. }
  match goal with |- context [if ?b then _ else _] => destruct b end; simpl;
    rewrite ?length_app; simpl; repeat split; lia.
Qed.

(** X15. The numbers that a sweep logs: [count] is the number of entries
    that it has read and compared, [deleteCount] the number of keys in its
    batch, and the entries that it has read and those that it has rejected
    are together all the entries under the prefix. *)
Theorem cleanup_counts sf cf clock st sw st' :
  _cleanup sf cf clock st = (Ok sw, st') ->
  count sw = length (comparisons sw)
  /\ deleteCount sw = length (batch sw)
  /\ (deleteCount sw <= count sw)%nat
  /\ (count sw + length (logged sw)
      = length (entries_under (datastore st) PROVIDER_KEY_PREFIX))%nat.
Proof.
  intros Hc. apply cleanup_returns in Hc as [-> _].
  assert (Hgen : forall entries sw0 n,
             count sw0 = length (comparisons sw0)
             /\ deleteCount sw0 = length (batch sw0)
             /\ (count sw0 + length (logged sw0) = n)%nat
             /\ reads sw0 = S (count sw0)
             /\ (deleteCount sw0 <= count sw0)%nat ->
             let sw' := fold_left (sweep_entry clock) entries sw0 in
             count sw' = length (comparisons sw')
             /\ deleteCount sw' = length (batch sw')
             /\ (count sw' + length (logged sw') = n + length entries)%nat
             /\ reads sw' = S (count sw')
             /\ (deleteCount sw' <= count sw')%nat).
  { induction entries as [|e entries IH]; intros sw0 n Hinv; simpl.
    - rewrite Nat.add_0_r. exact Hinv.
    - replace (n + S (length entries))%nat with (S n + length entries)%nat
        by lia.
      apply IH. now apply sweep_entry_counts. }
  destruct (Hgen (entries_under (datastore st) PROVIDER_KEY_PREFIX)
              sweep_start 0%nat) as (Hc & Hd & Hn & _ & Hle).
  { simpl. repeat split; lia. }
  simpl in Hn. auto.
Qed.

Lemma sweep_fold_keeps clock lo entries :
  (forall i, clock i <= lo) ->
  (forall k v r d t, In (k, v) entries -> parseProviderKey k = Ok r ->
                     readTime v = Ok d -> getTime d = Some t ->
                     lo - t <= provideValidity) ->
  forall sw,
    deleted (fold_left (sweep_entry clock) entries sw) = deleted sw
    /\ batch (fold_left (sweep_entry clock) entries sw) = batch sw.
Proof.
  intros Hclock. induction entries as [|[k v] entries IH]; intros Hyoung sw;
    [now split|].
  cbn [fold_left].
  destruct (IH (fun k' v' r d t Hin => Hyoung k' v' r d t (or_intror Hin))
              (sweep_entry clock sw (k, v))) as [-> ->].
  unfold sweep_entry.
  destruct (parseProviderKey k) as [[ct pt]|err] eqn:Hp; simpl;
    [|now split].
  destruct (readTime v) as [d|err] eqn:Hd; simpl; [|now split].
  destruct (getTime d) as [t|] eqn:Ht; [|now split].
  pose proof (Hyoung k v _ d t (or_introl eq_refl) Hp Hd Ht) as Hy.
  pose proof (Hclock (reads sw)) as Hr.
  destruct (provideValidity <? clock (reads sw) - t) eqn:E;
    [apply Z.ltb_lt in E; lia|now split].
Qed.

(** X16. A sweep after a sweep deletes nothing when the clock has not
    moved on: when the readings of the first are all at least [lo] and
    those of the second at most [lo], the second finds nothing to delete
    and leaves the datastore and the cache as the first left them. *)
Theorem cleanup_again_deletes_nothing sf cf clock1 clock2 lo st sw st' :
  (forall i, lo <= clock1 i) -> (forall i, clock2 i <= lo) ->
  _cleanup sf cf clock1 st = (Ok sw, st') ->
  exists sw2,
    _cleanup false false clock2 st' = (Ok sw2, st')
    /\ batch sw2 = [] /\ deleted sw2 = [].
Proof.
  intros Hlo1 Hlo2 Hc.
  pose proof (cleanup_sweep_inv _ _ _ _ _ _ Hc) as Hinv.
  assert (Hyoung : forall k v r d t,
             In (k, v) (entries_under (datastore st') PROVIDER_KEY_PREFIX) ->
             parseProviderKey k = Ok r -> readTime v = Ok d ->
             getTime d = Some t -> lo - t <= provideValidity).
  { intros k v r d t Hin Hp Hd Ht. apply scan_In in Hin as [Hl' Hs].
    pose proof Hl' as Hl. rewrite (cleanup_lookup _ _ _ _ _ _ k Hc) in Hl.
    destruct (List.existsb (String.eqb k) (batch sw)) eqn:E; [discriminate|].
    assert (Hin : In (k, v) (entries_under (datastore st)
                               PROVIDER_KEY_PREFIX))
      by (apply scan_In; now split).
    destruct (inv_scanned _ _ _ Hinv k v r d Hin Hp Hd) as [line [Hline Hk]].
    destruct (inv_lines _ _ _ Hinv line Hline)
      as (v' & ct & pt & d' & i & Hin' & _ & Hd' & Htime & Hnow & Hexp).
    rewrite Hk in Hin'. apply scan_In in Hin' as [Hl2 _].
    assert (v' = v) by congruence. subst v'.
    assert (d' = d) by congruence. subst d'.
    rewrite Htime, Ht, Hnow in Hexp. simpl in Hexp.
    destruct (cmp_expired line) eqn:He.
    - exfalso. assert (Hb : In k (batch sw))
        by (apply (inv_batch _ _ _ Hinv); eauto).
      apply set_has_In in Hb. unfold set_has in Hb. congruence.
    - symmetry in Hexp. apply Z.ltb_ge in Hexp.
      pose proof (Hlo1 i). lia. }
  destruct (sweep_fold_keeps clock2 lo _ Hlo2 Hyoung sweep_start)
    as [Hdel Hbatch].
  simpl in Hdel, Hbatch.
  exists (fold_left (sweep_entry clock2)
            (entries_under (datastore st') PROVIDER_KEY_PREFIX) sweep_start).
  split; [|split; [exact Hbatch|exact Hdel]].
  unfold _cleanup, ds_query. cbv zeta. rewrite Hdel. simpl.
  now destruct st'.
Qed.

End MoreSweep.

Section SweepAfterWrite.
Context `{Codec} `{Config} `{!CodecLaws}.
Hypothesis Hprefix : prefix_ok.
Implicit Types (store : gmap string (list Z)) (st : Providers) (sw : sweep).
Implicit Types (c cid : CID) (p : PeerId).

Lemma cleanup_provided sf cf clock st sw st' c p :
  provided c p st ->
  _cleanup sf cf clock st = (Ok sw, st') ->
  ~ In (recordKey c p) (batch sw) ->
  provided c p st'.
Proof.
  intros (Hwf & Hso & Hld & Hback & Hhold) Hc Hnot.
  pose proof (cleanup_sweep_inv _ _ _ _ _ _ Hc) as Hinv.
  pose proof (cleanup_store_wf sf cf clock st Hwf) as Hwf'.
  pose proof (cleanup_sound sf cf clock st Hso) as Hso'.
  rewrite Hc in Hwf', Hso'. simpl in Hwf', Hso'.
  split; [exact Hwf'|]. split; [exact Hso'|].
  split; [exact (cleanup_loadable _ _ _ _ _ _ c Hc Hld)|]. split.
  - unfold backend_time in *. fold (recordKey c p) in *.
    rewrite (cleanup_lookup _ _ _ _ _ _ _ Hc).
    destruct (List.existsb (String.eqb (recordKey c p)) (batch sw)) eqn:E;
      [|exact Hback].
    exfalso. apply Hnot. now apply set_has_In.
  - intros c0 m' Hm' Hk.
    destruct (cleanup_cached _ _ _ _ _ _ c0 m' Hc Hm') as [m [Hm Hget]].
    rewrite Hget.
    destruct (set_has (peerText p) _) eqn:Hs; [|exact (Hhold c0 m Hm Hk)].
    exfalso. apply Hnot.
    apply (deleted_iff_batch Hprefix clock (datastore st) sw (cidText c0)
             (peerText p) Hwf Hinv (cidText_no_slash c0)) in Hs.
    rewrite makeProviderKey_text, Hk in Hs. exact Hs.
Qed.

(** X17. A sweep does not take a young record: on a registry made over a
    datastore whose keys under the prefix that the parser accepts are keys
    of records, and with the clock of every [addProvider] showing a time a
    [Date] holds, when [addProvider] of a peer for a cid has completed at
    time [now], and a sweep follows that returns and whose clock never
    shows more than [now + provideValidity], the record is in the datastore
    after the sweep with its value, and [getProviders] for the cid then
    returns, when its scan does not fail, a list that holds the peer. *)
Theorem sweep_keeps_young_record store (before : list op) sf pf sf' cf'
  clock cid p now st1 sw st2 :
  store_wf store ->
  Forall op_clock_ok before -> 0 <= now <= maxTime ->
  addProvider sf pf cid p now (run_ops (init store) before) = (Ok tt, st1) ->
  (forall i, clock i - now <= provideValidity) ->
  _cleanup sf' cf' clock st1 = (Ok sw, st2) ->
  datastore st2 !! recordKey cid p = Some (varint_encode now)
  /\ exists l st3, getProviders false cid st2 = (Ok l, st3) /\ In p l.
Proof.
  intros Hwf Hbefore Hnow Hadd Hclock Hc.
  destruct (run_ops_sound Hprefix before (init store) Hbefore)
    as [Hwf0 Hso0].
  { split; [exact Hwf|]. intros c0 m0. discriminate. }
  pose proof (addProvider_provided_new Hprefix sf pf cid p now _ st1 Hnow
                Hwf0 Hso0 Hadd) as Hpr.
  apply addProvider_returns in Hadd as [Hd1 _].
  assert (Hl1 : datastore st1 !! recordKey cid p = Some (varint_encode now))
    by (rewrite Hd1; apply lookup_insert_eq).
  pose proof (cleanup_sweep_inv _ _ _ _ _ _ Hc) as Hinv.
  assert (Hnot : ~ In (recordKey cid p) (batch sw)).
  { intros Hin.
    apply (inv_batch _ _ _ Hinv) in Hin as (line & Hl & Hk & He).
    destruct (inv_lines _ _ _ Hinv line Hl)
      as (v & ct & pt & d & i & Hin & _ & Hd & Htime & Hnowi & Hexp).
    rewrite Hk in Hin. apply scan_In in Hin as [Hlk _].
    rewrite Hl1 in Hlk. injection Hlk as <-.
    change (varint_encode now) with (encodeTime (Date_ms now)) in Hd.
    rewrite readTime_encodeTime in Hd by exact Hnow. injection Hd as <-.
    rewrite He, Htime, Hnowi in Hexp. simpl in Hexp.
    symmetry in Hexp. apply Z.ltb_lt in Hexp.
    pose proof (Hclock i). lia. }
  split.
  - rewrite (cleanup_lookup _ _ _ _ _ _ _ Hc).
    destruct (List.existsb (String.eqb (recordKey cid p)) (batch sw)) eqn:E;
      [|exact Hl1].
    exfalso. apply Hnot. now apply set_has_In.
  - apply (getProviders_of_provided Hprefix).
    exact (cleanup_provided _ _ _ _ _ _ cid p Hpr Hc Hnot).
Qed.

End SweepAfterWrite.

(** ** The cache as [hashlru] builds it: how many cids it holds *)

Section HashlruFacts.
Context {V : Type}.
Implicit Types (h : hashlru V) (m : list (string * V)) (k key : string).

Lemma map_set_length_le k (v : V) m :
  (length (map_set k v m) <= S (length m))%nat.
Proof.
  induction m as [|[k' v'] m IH]; simpl; [lia|].
  destruct (String.eqb k k'); simpl; lia.
Qed.

Lemma map_set_length_present k (v v0 : V) m :
  map_get k m = Some v0 -> length (map_set k v m) = length m.
Proof.
  induction m as [|[k' v'] m IH]; simpl; [discriminate|].
  destruct (String.eqb k k'); simpl; [reflexivity|].
  intros Hg. now rewrite IH.
Qed.

Lemma map_delete_length_le k m :
  (length (map_delete k m) <= length m)%nat.
Proof. unfold map_delete. apply filter_length_le. Qed.

Lemma nodup_length_le (l : list string) :
  (length (nodup string_dec l) <= length l)%nat.
Proof.
  induction l as [|x l IH]; simpl; [lia|].
  destruct (in_dec string_dec x l); simpl; lia.
Qed.

Lemma hashlru_new_inv (max : nat) :
  (0 < max)%nat -> hashlru_inv (hashlru_new (V := V) max).
Proof. intros Hmax. unfold hashlru_inv. simpl. lia. Qed.

Lemma hashlru_update_max key (v : V) h :
  hl_max (hashlru_update key v h) = hl_max h.
Proof.
  unfold hashlru_update. now destruct (hl_max h <=? S (hl_size h))%nat.
Qed.

Lemma hashlru_update_inv key (v : V) h :
  hashlru_inv h -> hashlru_inv (hashlru_update key v h).
Proof.
  intros (Hc & Hs & Ho). unfold hashlru_update, hashlru_inv.
  pose proof (map_set_length_le key v (hl_cache h)) as Hlen.
  destruct (hl_max h <=? S (hl_size h))%nat eqn:E; simpl.
  - apply Nat.leb_le in E. lia.
  - apply Nat.leb_gt in E. lia.
Qed.

Lemma hashlru_get_max key h : hl_max (snd (hashlru_get key h)) = hl_max h.
Proof.
  unfold hashlru_get. destruct (map_get key (hl_cache h)); [reflexivity|].
  destruct (map_get key (hl_old h)); [|reflexivity].
  apply hashlru_update_max.
Qed.

Lemma hashlru_get_inv key h :
  hashlru_inv h -> hashlru_inv (snd (hashlru_get key h)).
Proof.
  intros Hinv. unfold hashlru_get.
  destruct (map_get key (hl_cache h)); [exact Hinv|].
  destruct (map_get key (hl_old h)); [|exact Hinv].
  now apply hashlru_update_inv.
Qed.

Lemma hashlru_set_max key (v : V) h : hl_max (hashlru_set key v h) = hl_max h.
Proof.
  unfold hashlru_set. destruct (map_get key (hl_cache h)); [reflexivity|].
  apply hashlru_update_max.
Qed.

Lemma hashlru_set_inv key (v : V) h :
  hashlru_inv h -> hashlru_inv (hashlru_set key v h).
Proof.
  intros Hinv. unfold hashlru_set.
  destruct (map_get key (hl_cache h)) as [v0|] eqn:Hg;
    [|now apply hashlru_update_inv].
  destruct Hinv as (Hc & Hs & Ho). unfold hashlru_inv. simpl.
  rewrite (map_set_length_present key v v0 _ Hg). lia.
Qed.

Lemma hashlru_remove_inv key h :
  hashlru_inv h -> hashlru_inv (hashlru_remove key h).
Proof.
  intros (Hc & Hs & Ho). unfold hashlru_remove, hashlru_inv. simpl.
  pose proof (map_delete_length_le key (hl_cache h)).
  pose proof (map_delete_length_le key (hl_old h)). lia.
Qed.

(** Both generations together hold fewer than twice [max] keys. *)
Lemma hashlru_keys_bound h :
  hashlru_inv h -> (length (hashlru_keys h) <= 2 * hl_max h - 1)%nat.
Proof.
  intros (Hc & Hs & Ho). unfold hashlru_keys.
  pose proof (nodup_length_le (map_keys (hl_cache h) ++ map_keys (hl_old h)))
    as Hn.
  rewrite length_app in Hn. unfold map_keys in Hn.
  rewrite !length_map in Hn. unfold map_keys. lia.
Qed.

End HashlruFacts.

Section HashlruRegistry.
Context `{Codec} `{Config}.
Implicit Types (st : ProvidersH) (o : op) (ops : list op).

Lemma getProvidersMap_h_inv sf cid st :
  cache_inv_h st -> cache_inv_h (snd (_getProvidersMap_h sf cid st)).
Proof.
  intros [Hmax Hinv]. unfold _getProvidersMap_h, cache_inv_h.
  pose proof (hashlru_get_max (makeProviderKey (inl cid)) (h_cache st))
    as Hgm.
  pose proof (hashlru_get_inv (makeProviderKey (inl cid)) (h_cache st) Hinv)
    as Hgi.
  destruct (hashlru_get _ (h_cache st)) as [[provs|] c]; simpl in *.
  - split; [congruence|exact Hgi].
  - destruct (loadProviders sf (h_datastore st) cid) as [provs|e]; simpl.
    + split; [rewrite hashlru_set_max; congruence|].
      now apply hashlru_set_inv.
    + split; [congruence|exact Hgi].
Qed.

Lemma addProvider_h_inv sf pf cid p now st :
  cache_inv_h st -> cache_inv_h (snd (addProvider_h sf pf cid p now st)).
Proof.
  intros Hst. unfold addProvider_h.
  pose proof (getProvidersMap_h_inv sf cid st Hst) as Hg.
  destruct (_getProvidersMap_h sf cid st) as [[provs|e] st1]; simpl in *;
    [|exact Hg].
  destruct Hg as [Hmax Hinv].
  assert (Hset : cache_inv_h
            {| h_datastore := h_datastore st1;
               h_cache := hashlru_set (makeProviderKey (inl cid))
                            (map_set (peerText p) (Date_ms now) provs)
                            (h_cache st1) |}).
  { split; simpl; [rewrite hashlru_set_max; exact Hmax|].
    now apply hashlru_set_inv. }
  destruct (writeProviderEntry pf (h_datastore st1) cid p (Date_ms now));
    exact Hset.
Qed.

Lemma getProviders_h_inv sf cid st :
  cache_inv_h st -> cache_inv_h (snd (getProviders_h sf cid st)).
Proof.
  intros Hst. unfold getProviders_h.
  pose proof (getProvidersMap_h_inv sf cid st Hst) as Hg.
  now destruct (_getProvidersMap_h sf cid st) as [[provs|e] st1].
Qed.

Lemma reconcile_h_inv (c : hashlru (list (string * Date))) del :
  hashlru_inv c ->
  hl_max (reconcile_h c del) = hl_max c /\ hashlru_inv (reconcile_h c del).
Proof.
  intros Hinv. destruct del as [cid peers]. unfold reconcile_h.
  pose proof (hashlru_get_max (makeProviderKey (inr cid)) c) as Hgm.
  pose proof (hashlru_get_inv (makeProviderKey (inr cid)) c Hinv) as Hgi.
  destruct (hashlru_get _ c) as [[provs|] c1]; simpl in *;
    [|now split].
  destruct (map_size _ =? 0)%nat.
  - split; [exact Hgm|now apply hashlru_remove_inv].
  - split; [now rewrite hashlru_set_max|now apply hashlru_set_inv].
Qed.

Lemma fold_reconcile_h_inv dels (c : hashlru (list (string * Date))) :
  hashlru_inv c ->
  hl_max (fold_left reconcile_h dels c) = hl_max c
  /\ hashlru_inv (fold_left reconcile_h dels c).
Proof.
  revert c. induction dels as [|del dels IH]; intros c Hinv;
    cbn [fold_left]; [now split|].
  destruct (reconcile_h_inv c del Hinv) as [Hmax Hinv'].
  destruct (IH _ Hinv') as [Hmax' Hinv'']. split; [congruence|exact Hinv''].
Qed.

Lemma cleanup_h_inv sf cf clock st :
  cache_inv_h st -> cache_inv_h (snd (_cleanup_h sf cf clock st)).
Proof.
  intros [Hmax Hinv]. unfold _cleanup_h, cache_inv_h.
  destruct (ds_query sf (h_datastore st) PROVIDER_KEY_PREFIX) as [entries|e];
    [|now split].
  cbv zeta.
  match goal with
  | |- context [match ?committed with Ok _ => _ | Err _ => _ end] =>
      destruct committed as [store|e]
  end; [|now split].
  simpl.
  destruct (fold_reconcile_h_inv
              (deleted (fold_left (sweep_entry clock) entries sweep_start))
              (h_cache st) Hinv) as [Hmax' Hinv'].
  split; [congruence|exact Hinv'].
Qed.

Lemma run_op_h_inv st o : cache_inv_h st -> cache_inv_h (run_op_h st o).
Proof.
  intros Hst. destruct o as [sf pf c p now|sf c|sf cf clock]; simpl.
  - now apply addProvider_h_inv.
  - now apply getProviders_h_inv.
  - now apply cleanup_h_inv.
Qed.

Lemma run_ops_h_inv ops st :
  cache_inv_h st -> cache_inv_h (run_ops_h st ops).
Proof.
  unfold run_ops_h. revert st.
  induction ops as [|o ops IH]; intros st Hst; simpl; [exact Hst|].
  apply IH. now apply run_op_h_inv.
Qed.

(** C6, as amended.  Cache bound: over the cache that [hashlru] builds,
    after every sequence of operations on a new registry, and so after
    every prefix of one, the cache holds at most [2 * cacheSize - 1] cids;
    [cacheSize] is at least 1, or the constructor throws. *)
Theorem hashlru_cache_bound (store : gmap string (list Z)) (ops : list op)
  (n : nat) :
  (0 < cacheSize)%nat ->
  (resident (run_ops_h (init_h store) (firstn n ops)) <= 2 * cacheSize - 1)%nat.
Proof.
  intros Hsize.
  assert (Hinit : cache_inv_h (init_h store)).
  { split; [reflexivity|]. now apply hashlru_new_inv. }
  destruct (run_ops_h_inv (firstn n ops) (init_h store) Hinit) as [Hmax Hinv].
  unfold resident. rewrite <- Hmax. now apply hashlru_keys_bound.
Qed.

End HashlruRegistry.

(** ** The theorems at the small instance *)

#[local] Existing Instance demo_codec.
#[local] Existing Instance demo_config.

Lemma demo_laws : CodecLaws.
Proof.
  split.
  - intros []; reflexivity.
  - intros []; reflexivity.
  - intros [] []; simpl; intros Hs; try reflexivity; discriminate.
  - intros []; reflexivity.
Qed.

Lemma demo_prefix_ok : prefix_ok.
Proof. reflexivity. Qed.

Lemma store_wf_empty : store_wf ∅.
Proof. intros k v r Hl. now rewrite lookup_empty in Hl. Qed.

Lemma demo_two_records_wf : store_wf (datastore demo_two_records).
Proof.
  apply (run_ops_sound (H1 := demo_laws) demo_prefix_ok).
  - repeat constructor; unfold maxTime; simpl; lia.
  - split; [apply store_wf_empty|]. intros c m. discriminate.
Qed.

(** With the prefix of the spec the key of a record has four parts, and
    the parser rejects it. *)
Lemma spec_prefix_key_rejected :
  @parseProviderKey (@recordKey demo_codec spec_prefix_config CidA Peer1)
  = Err (MalformedKey "/providers/ciqa/QmP1")
  /\ length (split slash (@recordKey demo_codec spec_prefix_config CidA Peer1))
     = 4%nat.
Proof. split; reflexivity. Qed.

Lemma parse_record_key_roundtrip_witness :
  prefix_ok
  /\ parseProviderKey (recordKey CidA Peer1) = Ok ("ciqa", "QmP1")
  /\ length (split slash (recordKey CidA Peer1)) = 5%nat
  /\ nth 3 (split slash (recordKey CidA Peer1)) EmptyString = "ciqa"
  /\ nth 4 (split slash (recordKey CidA Peer1)) EmptyString = "QmP1".
Proof.
  split; [reflexivity|].
  apply (@parse_record_key_roundtrip demo_codec demo_config demo_laws
           CidA Peer1).
  reflexivity.
Defined.

Lemma getProviders_no_duplicates_witness : List.NoDup [Peer1; Peer2].
Proof.
  apply (@getProviders_no_duplicates demo_codec demo_config demo_laws
           demo_prefix_ok ∅ demo_refresh_ops false CidA [Peer1; Peer2]
           (snd (@getProviders demo_codec demo_config false CidA
                   demo_refreshed))).
  - exact store_wf_empty.
  - vm_compute. reflexivity.
Defined.


Lemma cache_coherence_witness :
  exists m',
    @loadProviders demo_codec demo_config false (datastore demo_refreshed) CidA
    = Ok m'
    /\ forall peer,
         map_get peer [("QmP1", Date_ms 1700); ("QmP2", Date_ms 1500)]
         = map_get peer m'.
Proof.
  apply (@cache_coherence demo_codec demo_config demo_laws demo_prefix_ok ∅
           demo_refresh_ops CidA).
  - exact store_wf_empty.
  - repeat constructor; unfold maxTime; simpl; lia.
  - repeat constructor.
  - vm_compute. reflexivity.
Defined.

(** C1, as stated, fails when a [put] fails: [addProvider] has put the peer
    in the cached map before it writes the record, and leaves it there when
    the write is rejected.  The cache then holds a peer of which the
    datastore has no record. *)
Lemma cache_incoherent_after_failed_put :
  fst demo_failed_put = Err BackendFailure
  /\ @cached demo_codec demo_config (snd demo_failed_put) CidA
     = Some [("QmP1", Date_ms 5)]
  /\ @loadProviders demo_codec demo_config false
       (datastore (snd demo_failed_put)) CidA = Ok []
  /\ ~ (forall peer,
          map_get peer [("QmP1", Date_ms 5)]
          = map_get peer (@nil (string * Date))).
Proof.
  split; [reflexivity|]. split; [reflexivity|]. split; [reflexivity|].
  intros Heq. specialize (Heq "QmP1"). discriminate.
Qed.

Lemma addProvider_refresh_witness :
  exists st2,
    @addProvider demo_codec demo_config false false CidA Peer1 2000
      (snd (@addProvider demo_codec demo_config false false CidA Peer1 1000
              (init ∅)))
    = (Ok tt, st2)
    /\ List.filter
         (fun e => String.eqb (fst e) (@recordKey demo_codec demo_config
                                         CidA Peer1))
         (map_to_list (datastore st2))
       = [(@recordKey demo_codec demo_config CidA Peer1, varint_encode 2000)]
    /\ readTime (varint_encode 2000) = Ok (Date_ms 2000).
Proof.
  apply (@addProvider_refresh demo_codec demo_config demo_laws demo_prefix_ok
           false false CidA Peer1 1000 2000 (init ∅)).
  - lia.
  - lia.
  - unfold maxTime. lia.
  - vm_compute. reflexivity.
Defined.

Lemma read_after_write_witness :
  exists l st',
    @getProviders demo_codec demo_config false CidA
      (@run_ops demo_codec demo_config
         (snd (@addProvider demo_codec demo_config false false CidA Peer1 5
                 (init ∅)))
         demo_other_ops)
    = (Ok l, st')
    /\ In Peer1 l.
Proof.
  apply (@read_after_write demo_codec demo_config demo_laws demo_prefix_ok ∅
           [] demo_other_ops false false CidA Peer1 5).
  - exact store_wf_empty.
  - constructor.
  - unfold maxTime. lia.
  - repeat constructor; unfold maxTime; simpl; lia.
  - repeat constructor.
  - vm_compute. reflexivity.
Defined.

(** In the run of the witness the cache of two has dropped the first cid
    before it is read. *)
Lemma read_after_write_evicted :
  @cached demo_codec demo_config
    (@run_ops demo_codec demo_config
       (snd (@addProvider demo_codec demo_config false false CidA Peer1 5
               (init ∅)))
       demo_other_ops) CidA = None.
Proof. reflexivity. Qed.

(** C4: a value that the decoder rejects.  The sweep logs the error, skips
    the entry and returns; [getProviders] and [addProvider] for the cid of
    the entry throw the error of the decoder at their caller. *)
Lemma malformed_record_surfaces :
  fst (@getProviders demo_codec demo_config false CidA
         (init store_truncated_value)) = Err MalformedRecord
  /\ fst (@addProvider demo_codec demo_config false false CidA Peer2 5
            (init store_truncated_value)) = Err MalformedRecord
  /\ exists sw,
       @_cleanup demo_codec demo_config false false demo_clock
         (init store_truncated_value)
       = (Ok sw, init store_truncated_value)
       /\ logged sw = [MalformedRecord].
Proof.
  split; [reflexivity|]. split; [reflexivity|].
  eexists. split; [vm_compute; reflexivity|reflexivity].
Qed.

(** C8: a key of six parts under the prefix of a cid.  With a datastore
    that does not fail, [addProvider] and [getProviders] for the cid fail
    all the same, with the error of the key parser. *)
Lemma malformed_key_surfaces :
  fst (@addProvider demo_codec demo_config false false CidA Peer2 5
         (init store_long_key))
  = Err (MalformedKey "/dht/provider/ciqa/QmP1/x")
  /\ fst (@getProviders demo_codec demo_config false CidA
            (init store_long_key))
     = Err (MalformedKey "/dht/provider/ciqa/QmP1/x").
Proof. split; reflexivity. Qed.

(** The rest of C4 and of C8, which the code does as they say. *)

(** A sweep over a datastore that does not fail returns, whatever the
    entries it meets. *)
Lemma cleanup_total `{Codec} `{Config} (clock : nat -> Z) (st : Providers) :
  exists sw st', _cleanup false false clock st = (Ok sw, st').
Proof.
  unfold _cleanup, ds_query, ds_commit.
  match goal with |- context [if ?b then _ else _] => destruct b end; eauto.
Qed.

(** An entry that the parser or the decoder rejects changes nothing in the
    locals of the sweep but the log. *)
Lemma sweep_entry_rejected `{Codec} `{Config} (clock : nat -> Z) (sw : sweep)
  (key : string) (value : list Z) (e : error) :
  (let* parsed := parseProviderKey key in
   let* date := readTime value in Ok (parsed, date)) = Err e ->
  let sw' := sweep_entry clock sw (key, value) in
  logged sw' = (logged sw ++ [e])%list
  /\ batch sw' = batch sw /\ deleted sw' = deleted sw
  /\ comparisons sw' = comparisons sw /\ reads sw' = reads sw.
Proof.
  intros He. unfold sweep_entry. rewrite He. simpl. auto.
Qed.

(** Empty lookup: with no entry under the prefix of a cid and no map for it
    in the cache, [getProviders] returns the empty list. *)
Lemma getProviders_unknown_cid `{Codec} `{Config} (st : Providers) (cid : CID) :
  cached st cid = None ->
  entries_under (datastore st) (makeProviderKey (inl cid)) = [] ->
  fst (getProviders false cid st) = Ok [].
Proof.
  unfold cached, getProviders, _getProvidersMap, lru_get. intros -> Hnone.
  unfold loadProviders, ds_query. simpl. rewrite Hnone. reflexivity.
Qed.


(** C7, as stated, fails when the datastore has a record of the cid whose
    peer part is not the text of a peer: the [addProvider] loads it into
    the map and completes, and the [getProviders] that follows throws what
    [peerIdFromString] throws at that text. *)
Lemma read_after_write_bad_peer_text :
  fst demo_bad_peer_add = Ok tt
  /\ fst (@getProviders demo_codec demo_config false CidA
            (snd demo_bad_peer_add)) = Err (InvalidPeerId "notapeer").
Proof. split; vm_compute; reflexivity. Qed.

Lemma hashlru_cache_bound_witness :
  (@resident
     (@run_ops_h demo_codec demo_config (@init_h demo_config ∅)
        (firstn 3 demo_three_cids))
   <= 2 * @cacheSize demo_config - 1)%nat.
Proof.
  apply (@hashlru_cache_bound demo_codec demo_config ∅ demo_three_cids 3).
  simpl. lia.
Defined.

(** C6, as stated, fails over the cache that [hashlru] builds: with
    [cacheSize] 2, an [addProvider] for one cid and a [getProviders] for
    each of two more leave all three in the cache, and a [getProviders]
    for any of the three then returns without a scan of the datastore:
    it does even when the scan would fail. *)
Lemma cache_holds_three_cids :
  @cacheSize demo_config = 2%nat
  /\ resident demo_three_resident = 3%nat
  /\ hashlru_has "/dht/provider/ciqa" (h_cache demo_three_resident) = true
  /\ hashlru_has "/dht/provider/ciqb" (h_cache demo_three_resident) = true
  /\ hashlru_has "/dht/provider/ciqc" (h_cache demo_three_resident) = true
  /\ fst (@getProviders_h demo_codec demo_config true CidA
            demo_three_resident) = Ok [Peer1]
  /\ fst (@getProviders_h demo_codec demo_config true CidB
            demo_three_resident) = Ok []
  /\ fst (@getProviders_h demo_codec demo_config true CidC
            demo_three_resident) = Ok []
  /\ ~ (resident demo_three_resident <= @cacheSize demo_config)%nat.
Proof.
  split; [reflexivity|]. split; [vm_compute; reflexivity|].
  split; [vm_compute; reflexivity|]. split; [vm_compute; reflexivity|].
  split; [vm_compute; reflexivity|]. split; [vm_compute; reflexivity|].
  split; [vm_compute; reflexivity|]. split; [vm_compute; reflexivity|].
  assert (Hres : resident demo_three_resident = 3%nat)
    by (vm_compute; reflexivity).
  rewrite Hres. simpl. lia.
Qed.

(** ** The further theorems at the small instance *)

Lemma parse_then_make_witness :
  "/dht/provider/ciqa/QmP1"
  = @makeProviderKey demo_codec demo_config (inr "ciqa") +:+ "/" +:+ "QmP1".
Proof.
  apply (@parse_then_make demo_codec demo_config "/dht/provider/ciqa/QmP1"
           "ciqa" "QmP1"); reflexivity.
Defined.

Lemma recordKey_inj_witness :
  @cidText demo_codec CidB = @cidText demo_codec CidB /\ Peer2 = Peer2.
Proof.
  apply (@recordKey_inj demo_codec demo_config demo_laws CidB CidB Peer2
           Peer2).
  reflexivity.
Defined.

Lemma write_then_load_witness :
  exists m',
    @loadProviders demo_codec demo_config false
      (<["/dht/provider/ciqa/QmP1" := [5]]> ∅) CidA = Ok m'
    /\ map_get "QmP1" m' = Some (Date_ms 5)
    /\ forall s, s <> "QmP1" -> map_get s m' = map_get s (@nil (string * Date)).
Proof.
  apply (@write_then_load demo_codec demo_config demo_laws demo_prefix_ok
           ∅ (<["/dht/provider/ciqa/QmP1" := [5]]> ∅) CidA Peer1 5 []).
  - exact store_wf_empty.
  - unfold maxTime. lia.
  - reflexivity.
  - vm_compute. reflexivity.
Defined.

Lemma addProvider_datastore_witness :
  (forall k, k <> @recordKey demo_codec demo_config CidA Peer1 ->
             datastore (snd demo_first_add) !! k
             = datastore (init ∅) !! k)
  /\ datastore (snd demo_first_add)
       !! @recordKey demo_codec demo_config CidA Peer1
     = Some (varint_encode 5).
Proof.
  apply (@addProvider_datastore demo_codec demo_config false false CidA Peer1
           5 (init ∅) (Ok tt) (snd demo_first_add)).
  vm_compute. reflexivity.
Defined.

Lemma addProvider_throws_unchanged_witness : snd demo_scan_failed = init ∅.
Proof.
  apply (@addProvider_throws_unchanged demo_codec demo_config true CidA Peer1
           5 (init ∅) BackendFailure).
  vm_compute. reflexivity.
Defined.

Lemma getProviders_again_witness :
  fst (@getProviders demo_codec demo_config true CidA
         (snd (@getProviders demo_codec demo_config false CidA
                 demo_restarted)))
  = Ok [Peer1; Peer2]
  /\ datastore (snd (@getProviders demo_codec demo_config true CidA
                       (snd (@getProviders demo_codec demo_config false CidA
                               demo_restarted))))
     = datastore demo_restarted.
Proof.
  apply (@getProviders_again demo_codec demo_config false true CidA
           demo_restarted [Peer1; Peer2]).
  - simpl. lia.
  - vm_compute. reflexivity.
Defined.

Lemma getProviders_exact_witness :
  In Peer1 [Peer1; Peer2]
  <-> exists v,
        datastore demo_refreshed
          !! @recordKey demo_codec demo_config CidA Peer1 = Some v.
Proof.
  apply (@getProviders_exact demo_codec demo_config demo_laws demo_prefix_ok
           ∅ demo_refresh_ops false CidA [Peer1; Peer2]
           (snd (@getProviders demo_codec demo_config false CidA
                   demo_refreshed)) Peer1).
  - exact store_wf_empty.
  - repeat constructor; unfold maxTime; simpl; lia.
  - repeat constructor.
  - vm_compute. reflexivity.
Defined.

Lemma addProvider_again_same_list_witness :
  fst (@getProviders demo_codec demo_config false CidA demo_refreshed)
  = @peers_from_strings demo_codec ["QmP1"; "QmP2"]
  /\ fst (@getProviders demo_codec demo_config false CidA
            (snd (@addProvider demo_codec demo_config false false CidA Peer2
                    1900 demo_refreshed)))
     = @peers_from_strings demo_codec ["QmP1"; "QmP2"].
Proof.
  apply (@addProvider_again_same_list demo_codec demo_config false false
           false false CidA Peer2 1900 demo_refreshed
           [("QmP1", Date_ms 1700); ("QmP2", Date_ms 1500)]).
  - reflexivity.
  - simpl. auto.
Defined.

Lemma restart_keeps_provider_witness :
  exists l st',
    @getProviders demo_codec demo_config false CidA
      (init (datastore (@run_ops demo_codec demo_config (snd demo_first_add)
                          demo_other_ops)))
    = (Ok l, st')
    /\ In Peer1 l.
Proof.
  apply (@restart_keeps_provider demo_codec demo_config demo_laws
           demo_prefix_ok ∅ [] demo_other_ops false false CidA Peer1 5).
  - exact store_wf_empty.
  - constructor.
  - unfold maxTime. lia.
  - repeat constructor; unfold maxTime; simpl; lia.
  - repeat constructor.
  - vm_compute. reflexivity.
Defined.

Lemma cleanup_throws_witness :
  snd demo_sweep_failed = demo_two_records
  /\ BackendFailure = BackendFailure /\ (true = true \/ false = true).
Proof.
  apply (@cleanup_throws demo_codec demo_config true false demo_clock
           demo_two_records BackendFailure (snd demo_sweep_failed)).
  vm_compute. reflexivity.
Defined.

Lemma cleanup_deletes_only_expired_witness :
  datastore (snd demo_sweep) !! "/dht/provider/ciqa/QmP1"
  = datastore demo_two_records !! "/dht/provider/ciqa/QmP1"
  \/ (datastore (snd demo_sweep) !! "/dht/provider/ciqa/QmP1" = None
      /\ exists v ct pt d t i,
           datastore demo_two_records !! "/dht/provider/ciqa/QmP1" = Some v
           /\ startsWith "/dht/provider/ciqa/QmP1" "/dht/provider" = true
           /\ parseProviderKey "/dht/provider/ciqa/QmP1" = Ok (ct, pt)
           /\ readTime v = Ok d /\ getTime d = Some t
           /\ 1000 < demo_clock i - t).
Proof.
  apply (@cleanup_deletes_only_expired demo_codec demo_config false false
           demo_clock demo_two_records demo_sweep_log (snd demo_sweep)
           "/dht/provider/ciqa/QmP1").
  vm_compute. reflexivity.
Defined.

Lemma cleanup_counts_witness :
  count demo_sweep_log = length (comparisons demo_sweep_log)
  /\ deleteCount demo_sweep_log = length (batch demo_sweep_log)
  /\ (deleteCount demo_sweep_log <= count demo_sweep_log)%nat
  /\ (count demo_sweep_log + length (logged demo_sweep_log)
      = length (entries_under (datastore demo_two_records) "/dht/provider"))%nat.
Proof.
  apply (@cleanup_counts demo_codec demo_config false false demo_clock
           demo_two_records demo_sweep_log (snd demo_sweep)).
  vm_compute. reflexivity.
Defined.

Lemma cleanup_again_deletes_nothing_witness :
  exists sw2,
    @_cleanup demo_codec demo_config false false demo_clock (snd demo_sweep)
    = (Ok sw2, snd demo_sweep)
    /\ batch sw2 = [] /\ deleted sw2 = [].
Proof.
  apply (@cleanup_again_deletes_nothing demo_codec demo_config false false
           demo_clock demo_clock 2000 demo_two_records demo_sweep_log).
  - intros i. unfold demo_clock. lia.
  - intros i. unfold demo_clock. lia.
  - vm_compute. reflexivity.
Defined.

Lemma sweep_keeps_young_record_witness :
  datastore (snd demo_young_sweep)
    !! @recordKey demo_codec demo_config CidA Peer1
  = Some (varint_encode 5)
  /\ exists l st3,
       @getProviders demo_codec demo_config false CidA (snd demo_young_sweep)
       = (Ok l, st3)
       /\ In Peer1 l.
Proof.
  apply (@sweep_keeps_young_record demo_codec demo_config demo_laws
           demo_prefix_ok ∅ [] false false false false demo_young_clock CidA
           Peer1 5 (snd demo_first_add) demo_young_log).
  - exact store_wf_empty.
  - constructor.
  - unfold maxTime. lia.
  - vm_compute. reflexivity.
  - intros i. unfold demo_young_clock. simpl. lia.
  - vm_compute. reflexivity.
Defined.

Lemma failed_put_stays_cached_witness :
  fst demo_failed_put = Err BackendFailure
  /\ datastore (snd demo_failed_put) = datastore (init ∅)
  /\ @cached demo_codec demo_config (snd demo_failed_put) CidA
     = Some (map_set "QmP1" (Date_ms 5) []).
Proof.
  apply (@failed_put_stays_cached demo_codec demo_config false CidA Peer1 5
           (init ∅) []).
  - simpl. lia.
  - reflexivity.
Defined.
